(** * ZetaStitcher: tile grid model, position estimation, optimisation and fusion

    A shallow embedding of the parts of the [stitcher] package that its
    specification makes promises about:

    - [stitcher/global_optimization.py]: the decision vector and the
      champion selection of the optimiser ensemble;
    - [stitcher/filematrix.py]: the tile table, its mosaic check, the
      slices and the full size of the stitched volume;
    - [stitcher/fuse_runner.py]: the minimum spanning tree of the overlap
      graph, the propagation of absolute positions and the sinusoidal
      blending of two overlapping regions;
    - [stitcher/fuser/fuse_runner.py]: the partition of the output volume
      into chunks that fit in memory.

    numpy arrays are nested lists (or indexed functions where only the
    shape and the items matter), pandas tables are lists of rows in table
    order, networkx graphs are insertion-ordered adjacency lists, and a
    Python exception is a value of [exn] on the left of a sum. *)

From Stdlib Require Import String Ascii DecimalString DecimalPos DecimalZ.
From Stdlib Require Import List ZArith QArith Qround Bool Arith Lia Permutation.
From Stdlib Require Import Reals Lra.
From Stdlib Require Import Relations Sorted.
Import ListNotations.

Close Scope R_scope.
Close Scope Q_scope.

(** ** Python exceptions *)

Inductive exn : Type :=
| ValueError (msg : string)
| IndexError (msg : string)
| KeyError (key : string)
| TypeError (msg : string)
| ZeroDivisionError.

(** ['{}'.format(n)] for a natural number. *)
Definition show_nat (n : nat) : string := NilZero.string_of_uint (Nat.to_uint n).

(** ** numpy *)

Module Np.

(** [zip_with f] is the elementwise operation of two arrays of equal
    shape along their first axis. *)
Fixpoint zip_with {A B C : Type} (f : A -> B -> C) (l1 : list A) (l2 : list B)
  : list C :=
  match l1, l2 with
  | a :: l1', b :: l2' => f a b :: zip_with f l1' l2'
  | _, _ => []
  end.

(** [np.cumsum(l, axis=0)]: the running sums along the first axis, the
    items being added with [add]. *)
Fixpoint cumsum_from {A : Type} (add : A -> A -> A) (acc : A) (l : list A)
  : list A :=
  match l with
  | [] => []
  | a :: l' => let s := add acc a in s :: cumsum_from add s l'
  end.

Definition cumsum {A : Type} (add : A -> A -> A) (l : list A) : list A :=
  match l with
  | [] => []
  | a :: l' => a :: cumsum_from add a l'
  end.


(** [n] consecutive chunks of [k] items: a C-order reshape of a flat
    buffer to [n] rows of [k]. *)
Fixpoint chunks {A : Type} (k n : nat) (l : list A) : list (list A) :=
  match n with
  | O => []
  | S n' => firstn k l :: chunks k n' (skipn k l)
  end.

Definition array1 := list Z.
Definition array2 := list array1.
Definition array3 := list array2.

Definition add1 : array1 -> array1 -> array1 := zip_with Z.add.
Definition add2 : array2 -> array2 -> array2 := zip_with add1.

(** [x.reshape([ysize, xsize, c])] of a flat array; numpy raises
    ValueError when the sizes do not agree. *)
Definition reshape3 (x : array1) (shape : nat * nat * nat) : exn + array3 :=
  let '(ysize, xsize, c) := shape in
  if (length x =? ysize * xsize * c)%nat
  then inr (map (chunks c xsize) (chunks (xsize * c) ysize x))
  else inl (ValueError "cannot reshape array"%string).

(** [t.flatten()] of a three-dimensional array. *)
Definition flatten3 (t : array3) : array1 := concat (map (@concat Z) t).

(** [np.linspace(start, stop, num)]: [num] evenly spaced samples, the
    last one set to [stop]; the samples are real numbers here. *)
Definition linspace (start stop : R) (num : nat) : list R :=
  let div := (num - 1)%nat in
  let delta := (stop - start)%R in
  map (fun i =>
         if ((1 <? num) && (i =? num - 1))%nat then stop
         else if (0 <? div)%nat then (INR i * (delta / INR div) + start)%R
              else (INR i * delta + start)%R)
      (seq 0 num).

(** [np.tile(a, [reps])] of a one-dimensional array. *)
Definition tile {A : Type} (a : list A) (reps : nat) : list A :=
  concat (repeat a reps).

(** [np.reshape(a, [rows, cols])] of a one-dimensional array. *)
Definition reshape2 {A : Type} (a : list A) (rows cols : nat)
  : exn + list (list A) :=
  if (length a =? rows * cols)%nat then inr (chunks cols rows a)
  else inl (ValueError "cannot reshape array"%string).

(** [np.transpose(m)] of a matrix with [cols] columns. *)
Definition transpose (cols : nat) (m : list (list R)) : list (list R) :=
  map (fun j => map (fun row => nth j row 0%R) m) (seq 0 cols).

(** A three-dimensional array of real numbers, [frames] planes of
    [height] rows of [width] items: its shape and its items. *)
Record ndarray : Type := {
  frames : nat;
  height : nat;
  width : nat;
  item : nat -> nat -> nat -> R
}.

Definition shape (a : ndarray) : list nat := [frames a; height a; width a].

Definition shape_eqb (s1 s2 : list nat) : bool :=
  if list_eq_dec Nat.eq_dec s1 s2 then true else false.

End Np.

(** ** networkx *)

Module Nx.

(** Nodes are tile file names. *)
Definition node := string.

Definition mem (u : node) (l : list node) : bool := existsb (String.eqb u) l.

(** [d[k] = v] on an insertion-ordered dict: an existing key keeps its
    place, a new key goes last. *)
Fixpoint set_item {V : Type} (k : node) (v : V) (d : list (node * V))
  : list (node * V) :=
  match d with
  | [] => [(k, v)]
  | (k', v') :: d' =>
      if String.eqb k k' then (k, v) :: d' else (k', v') :: set_item k v d'
  end.

Fixpoint get_item {V : Type} (k : node) (d : list (node * V)) : option V :=
  match d with
  | [] => None
  | (k', v') :: d' => if String.eqb k k' then Some v' else get_item k d'
  end.

(** [s.update(l)] on a set kept as a list without repetition. *)
Definition set_update (s l : list node) : list node :=
  fold_left (fun s v => if mem v s then s else s ++ [v]) l s.

Section Graph.
(** [D] is the attribute dict of an edge. *)
Variable D : Type.

(** [G.adj]: for every node, in insertion order, its neighbours in
    insertion order, each with the attributes of the edge. *)
Definition Graph := list (node * list (node * D)).

Definition empty : Graph := [].

Definition nodes (G : Graph) : list node := map fst G.

Definition neighbors (G : Graph) (u : node) : list (node * D) :=
  match get_item u G with
  | Some nbrs => nbrs
  | None => []
  end.

Definition add_node (G : Graph) (u : node) : Graph :=
  if mem u (nodes G) then G else G ++ [(u, [])].

Definition add_nodes_from (G : Graph) (us : list node) : Graph :=
  fold_left add_node us G.

(** [G.add_edge(u, v, **d)]: both directions are stored; adding an
    edge again overwrites its attributes. *)
Definition add_edge (G : Graph) (u v : node) (d : D) : Graph :=
  let G := add_node (add_node G u) v in
  let G := set_item u (set_item v d (neighbors G u)) G in
  set_item v (set_item u d (neighbors G v)) G.

Definition add_edges_from (G : Graph) (es : list (node * node * D)) : Graph :=
  fold_left (fun G '(u, v, d) => add_edge G u v d) es G.

Definition get_edge_data (G : Graph) (u v : node) : option D :=
  get_item v (neighbors G u).

(** [G.edges(data=True)]: every edge once, reported from the endpoint
    that comes first in node order. *)
Fixpoint edges_from (adj : Graph) (seen : list node) : list (node * node * D) :=
  match adj with
  | [] => []
  | (n, nbrs) :: rest =>
      map (fun '(nbr, d) => (n, nbr, d))
          (filter (fun '(nbr, _) => negb (mem nbr seen)) nbrs)
      ++ edges_from rest (n :: seen)
  end.

Definition edges (G : Graph) : list (node * node * D) := edges_from G [].

(** [G.degree(n)]: a self-loop counts twice. *)
Definition degree_of (n : node) (nbrs : list (node * D)) : nat :=
  length nbrs + (if mem n (map fst nbrs) then 1 else 0).

(** [G.number_of_edges()]: half the sum of the degrees. *)
Definition number_of_edges (G : Graph) : nat :=
  Nat.div (list_sum (map (fun '(n, nbrs) => degree_of n nbrs) G)) 2.

(** *** Connected components *)

(** One level of [_plain_bfs]: every node of [thislevel] that is not
    seen yet is yielded, and its neighbours go to the next level. *)
Fixpoint bfs_level (G : Graph) (thislevel seen nextlevel : list node)
  : list node * list node :=
  match thislevel with
  | [] => (seen, nextlevel)
  | v :: rest =>
      if mem v seen then bfs_level G rest seen nextlevel
      else bfs_level G rest (seen ++ [v])
             (set_update nextlevel (map fst (neighbors G v)))
  end.

(** The [while nextlevel] loop; [None] when the fuel runs out. *)
Fixpoint bfs_loop (fuel : nat) (G : Graph) (seen nextlevel : list node)
  : option (list node) :=
  match nextlevel with
  | [] => Some seen
  | _ :: _ =>
      match fuel with
      | O => None
      | S fuel' =>
          let '(seen', nextlevel') := bfs_level G nextlevel seen [] in
          bfs_loop fuel' G seen' nextlevel'
      end
  end.

Definition _plain_bfs (G : Graph) (source : node) : option (list node) :=
  bfs_loop (S (length G)) G [] [source].

(** [connected_components(G)]: the component of every node that no
    earlier component contains, in node order. *)
Fixpoint components_from (G : Graph) (vs seen : list node)
  : option (list (list node)) :=
  match vs with
  | [] => Some []
  | v :: vs' =>
      if mem v seen then components_from G vs' seen
      else
        match _plain_bfs G v with
        | None => None
        | Some c =>
            match components_from G vs' (seen ++ c) with
            | None => None
            | Some cs => Some (c :: cs)
            end
        end
  end.

Definition connected_components (G : Graph) : option (list (list node)) :=
  components_from G (nodes G) [].

(** [G.subgraph(c)]: the nodes of [c] and the edges between them. *)
Definition subgraph (G : Graph) (c : list node) : Graph :=
  map (fun '(n, nbrs) => (n, filter (fun '(nbr, _) => mem nbr c) nbrs))
      (filter (fun '(n, _) => mem n c) G).

Definition connected_component_subgraphs (G : Graph) : option (list Graph) :=
  option_map (map (subgraph G)) (connected_components G).

(** *** Minimum spanning tree (Kruskal) *)

(** The state of networkx's [UnionFind] is kept as the partition it
    stands for: the list of its classes. *)
Definition partition := list (list node).

(** [subtrees[u] == subtrees[v]]. *)
Definition same_class (p : partition) (u v : node) : bool :=
  existsb (fun c => mem u c && mem v c) p.

(** [subtrees.union(u, v)]. *)
Definition union (p : partition) (u v : node) : partition :=
  let touched c := mem u c || mem v c in
  concat (filter touched p) :: filter (fun c => negb (touched c)) p.

Definition singletons (vs : list node) : partition := map (fun v => [v]) vs.

(** [sorted(edges, key=weight)]: Python's sort is stable. *)
Fixpoint insert_sorted (weight : D -> Q) (e : node * node * D)
  (l : list (node * node * D)) : list (node * node * D) :=
  match l with
  | [] => [e]
  | x :: l' =>
      if Qle_bool (weight (snd e)) (weight (snd x)) then e :: l
      else x :: insert_sorted weight e l'
  end.

Definition sorted (weight : D -> Q) (es : list (node * node * D))
  : list (node * node * D) :=
  fold_right (insert_sorted weight) [] es.

Fixpoint kruskal (es : list (node * node * D)) (p : partition)
  : list (node * node * D) :=
  match es with
  | [] => []
  | (u, v, d) :: es' =>
      if same_class p u v then kruskal es' p
      else (u, v, d) :: kruskal es' (union p u v)
  end.

Definition minimum_spanning_edges (weight : D -> Q) (G : Graph)
  : list (node * node * D) :=
  kruskal (sorted weight (edges G)) (singletons (nodes G)).

(** [nx.minimum_spanning_tree(G)]: the nodes of [G] and the edges
    Kruskal's algorithm keeps.  A graph that is not connected gets a
    spanning forest; nothing is raised. *)
Definition minimum_spanning_tree (weight : D -> Q) (G : Graph) : Graph :=
  add_edges_from (add_nodes_from empty (nodes G))
                 (minimum_spanning_edges weight G).

(** *** Depth-first search *)

(** [dfs_edges]: the tree edges in the order the search takes them.
    The explicit stack of the library is the recursion here: [visit]
    searches from a child that is not visited yet, and the loop over the
    children of [parent] goes on with the nodes that search has marked.
    Every nested search marks one more node, which bounds the depth by
    the number of nodes.  [None] when the fuel runs out. *)
Fixpoint dfs_children
  (visit : node -> list node -> option (list (node * node) * list node))
  (parent : node) (children visited : list node)
  : option (list (node * node) * list node) :=
  match children with
  | [] => Some ([], visited)
  | child :: children' =>
      if mem child visited then dfs_children visit parent children' visited
      else
        match visit child (child :: visited) with
        | None => None
        | Some (es1, visited1) =>
            match dfs_children visit parent children' visited1 with
            | None => None
            | Some (es2, visited2) =>
                Some ((parent, child) :: es1 ++ es2, visited2)
            end
        end
  end.

Fixpoint dfs_visit (fuel : nat) (G : Graph) (parent : node)
  (visited : list node) : option (list (node * node) * list node) :=
  match fuel with
  | O => None
  | S fuel' =>
      dfs_children (dfs_visit fuel' G) parent
                   (map fst (neighbors G parent)) visited
  end.

(** [nx.dfs_edges(G, source)]; a source that is not a node raises
    KeyError. *)
Definition dfs_edges (G : Graph) (source : node)
  : option (exn + list (node * node)) :=
  if mem source (nodes G) then
    match dfs_visit (S (length G)) G source [source] with
    | None => None
    | Some (es, _) => Some (inr es)
    end
  else Some (inl (KeyError source)).

End Graph.

Arguments empty {D}.
Arguments nodes {D} G.
Arguments neighbors {D} G u.
Arguments add_node {D} G u.
Arguments add_nodes_from {D} G us.
Arguments add_edge {D} G u v d.
Arguments add_edges_from {D} G es.
Arguments get_edge_data {D} G u v.
Arguments edges_from {D} adj seen.
Arguments edges {D} G.
Arguments degree_of {D} n nbrs.
Arguments number_of_edges {D} G.
Arguments bfs_level {D} G thislevel seen nextlevel.
Arguments bfs_loop {D} fuel G seen nextlevel.
Arguments _plain_bfs {D} G source.
Arguments components_from {D} G vs seen.
Arguments connected_components {D} G.
Arguments subgraph {D} G c.
Arguments connected_component_subgraphs {D} G.
Arguments insert_sorted {D} weight e l.
Arguments sorted {D} weight es.
Arguments kruskal {D} es p.
Arguments minimum_spanning_edges {D} weight G.
Arguments minimum_spanning_tree {D} weight G.
Arguments dfs_visit {D} fuel G parent visited.
Arguments dfs_edges {D} G source.

End Nx.

(** ** stitcher/filematrix.py *)

Module FileMatrix.

(** A row of [FileMatrix.data_frame]; [filename] is the index.  The
    columns that the pipeline adds later ([Z_end], the absolute positions
    and their ends) are fields of the row from the start. *)
Record tile : Type := {
  filename : string;
  X : BinNums.Z;
  Y : BinNums.Z;
  Z : BinNums.Z;
  nfrms : BinNums.Z;
  ysize : BinNums.Z;
  xsize : BinNums.Z;
  Z_end : BinNums.Z;
  Xs : BinNums.Z;
  Ys : BinNums.Z;
  Zs : BinNums.Z;
  Xs_end : BinNums.Z;
  Ys_end : BinNums.Z;
  Zs_end : BinNums.Z
}.

Definition int := BinNums.Z.

(** The object state: the table, whether the table has the columns
    [Xs], [Ys] and [Zs], and the two ordering options. *)
Record FileMatrix : Type := {
  data_frame : list tile;
  has_abs_columns : bool;
  ascending_tiles_x : bool;
  ascending_tiles_y : bool
}.

(** [df[key].unique().size] *)
Definition unique_size (key : tile -> int) (df : list tile) : nat :=
  length (nodup Z.eq_dec (map key df)).

(** [df[key].min()] and [df[key].max()]; a table without rows has no
    minimum, and the value is then never used. *)
Definition col_min (key : tile -> int) (df : list tile) : int :=
  match map key df with
  | [] => 0%Z
  | v :: vs => fold_left Z.min vs v
  end.

Definition col_max (key : tile -> int) (df : list tile) : int :=
  match map key df with
  | [] => 0%Z
  | v :: vs => fold_left Z.max vs v
  end.

Definition set_grid (t : tile) (x y z : int) : tile :=
  {| filename := filename t; X := x; Y := y; Z := z;
     nfrms := nfrms t; ysize := ysize t; xsize := xsize t;
     Z_end := Z_end t; Xs := Xs t; Ys := Ys t; Zs := Zs t;
     Xs_end := Xs_end t; Ys_end := Ys_end t; Zs_end := Zs_end t |}.

Definition set_Z_end (t : tile) (v : int) : tile :=
  {| filename := filename t; X := X t; Y := Y t; Z := Z t;
     nfrms := nfrms t; ysize := ysize t; xsize := xsize t;
     Z_end := v; Xs := Xs t; Ys := Ys t; Zs := Zs t;
     Xs_end := Xs_end t; Ys_end := Ys_end t; Zs_end := Zs_end t |}.

Definition set_abs (t : tile) (x y z : int) : tile :=
  {| filename := filename t; X := X t; Y := Y t; Z := Z t;
     nfrms := nfrms t; ysize := ysize t; xsize := xsize t;
     Z_end := Z_end t; Xs := x; Ys := y; Zs := z;
     Xs_end := Xs_end t; Ys_end := Ys_end t; Zs_end := Zs_end t |}.

(** [df['Xs_end'] = df['Xs'] + df['xsize']] and the same for the two
    other axes. *)
Definition set_ends (t : tile) : tile :=
  {| filename := filename t; X := X t; Y := Y t; Z := Z t;
     nfrms := nfrms t; ysize := ysize t; xsize := xsize t;
     Z_end := Z_end t; Xs := Xs t; Ys := Ys t; Zs := Zs t;
     Xs_end := (Xs t + xsize t)%Z; Ys_end := (Ys t + ysize t)%Z;
     Zs_end := (Zs t + nfrms t)%Z |}.

(** The error of the mosaic check, with its formatted message. *)
Definition mosaic_error (xsize ysize n_of_files : nat) : exn :=
  ValueError ("Mosaic is " ++ show_nat xsize ++ "x" ++ show_nat ysize
              ++ " tiles, but there are " ++ show_nat n_of_files
              ++ " files!")%string.

(** [process_data_frame]: the outcome ([None] when the method returns)
    and the object state it leaves. *)
Definition process_data_frame (fm : FileMatrix) : option exn * FileMatrix :=
  let df := data_frame fm in
  let xsize := unique_size X df in
  let ysize := unique_size Y df in
  let n_of_files := length df in
  if negb (xsize * ysize =? n_of_files)%nat then
    (Some (mosaic_error xsize ysize n_of_files), fm)
  else
    let '(mx, my, mz) := (col_min X df, col_min Y df, col_min Z df) in
    let df := map (fun t => set_grid t (X t - mx) (Y t - my) (Z t - mz))%Z df in
    let df := map (fun t => set_Z_end t (Z t + nfrms t)%Z) df in
    let df :=
      if has_abs_columns fm then
        let '(sx, sy, sz) := (col_min Xs df, col_min Ys df, col_min Zs df) in
        let df := map (fun t => set_abs t (Xs t - sx) (Ys t - sy) (Zs t - sz))%Z df in
        map set_ends df
      else df in
    (None, {| data_frame := df;
              has_abs_columns := has_abs_columns fm;
              ascending_tiles_x := ascending_tiles_x fm;
              ascending_tiles_y := ascending_tiles_y fm |}).

(** [load_yaml], once the file is read: [y] holds the two options and the
    rows of the ['filematrix'] entry. *)
Definition load_yaml (y : FileMatrix) : option exn * FileMatrix :=
  process_data_frame y.

(** The rows [(data_frame['Z'] <= row['Z']) & (data_frame['Z_end'] >=
    row['Z_end'])]: the tiles whose frame range holds that of [row]. *)
Definition view (df : list tile) (row : tile) : list tile :=
  filter (fun t => (Z t <=? Z row)%Z && (Z_end t >=? Z_end row)%Z) df.

(** The second loop of [slices]: the rows of every view are chained, and
    the first is tied to the last.  Indexing an empty view raises. *)
Fixpoint link_views (df rows : list tile) (G : Nx.Graph unit)
  : exn + Nx.Graph unit :=
  match rows with
  | [] => inr G
  | row :: rows' =>
      let values := map filename (view df row) in
      let pairs := combine values (tl values) in
      let G := Nx.add_edges_from G (map (fun '(a, b) => (a, b, tt)) pairs) in
      match values with
      | [] => inl (IndexError "index 0 is out of bounds for axis 0 with size 0"%string)
      | first :: _ => link_views df rows' (Nx.add_edge G first (last values first) tt)
      end
  end.

(** The graph of [slices]. *)
Definition slices_graph (df : list tile) : exn + Nx.Graph unit :=
  link_views df df (Nx.add_nodes_from Nx.empty (map filename df)).

(** [slices]: the connected components, as subgraphs. *)
Definition slices (fm : FileMatrix) : option (exn + list (Nx.Graph unit)) :=
  match slices_graph (data_frame fm) with
  | inl e => Some (inl e)
  | inr G => option_map inr (Nx.connected_component_subgraphs G)
  end.

Definition full_thickness (fm : FileMatrix) : int := col_max Zs_end (data_frame fm).

End FileMatrix.

(** ** stitcher/fuse_runner.py *)

Module FuseRunner.
Import Nx.

(** A row of the table of pairwise registrations ([self.df]); the index
    of a row is its position in the table. *)
Record measurement : Type := {
  aname : string;
  bname : string;
  axis : Z;
  dx : Q;
  dy : Q;
  dz : Q;
  score : Q
}.

(** The attributes of an edge of the overlap graph. *)
Record edge_attr : Type := {
  weight : Q;
  label : nat
}.

(** The graph [G] that [minimum_spanning_tree] builds from the table. *)
Definition overlap_graph (df : list measurement) : Graph edge_attr :=
  let G := fold_left (fun G row => add_node (add_node G (aname row)) (bname row))
                     df empty in
  add_edges_from G
    (map (fun '(i, row) =>
            (aname row, bname row, {| weight := (1 - score row)%Q; label := i |}))
         (combine (seq 0 (length df)) df)).

Definition minimum_spanning_tree (df : list measurement) : Graph edge_attr :=
  Nx.minimum_spanning_tree weight (overlap_graph df).

(** The columns [Xs], [Ys] and [Zs] while the positions are propagated:
    one triple per tile, in table order. *)
Definition positions := list (node * (Q * Q * Q)).

Inductive column : Type := col_Xs | col_Ys.

Definition get_col (k : column) (p : Q * Q * Q) : Q :=
  match k, p with
  | col_Xs, (xs, _, _) => xs
  | col_Ys, (_, ys, _) => ys
  end.

Definition set_col (k : column) (v : Q) (p : Q * Q * Q) : Q * Q * Q :=
  match k, p with
  | col_Xs, (_, ys, zs) => (v, ys, zs)
  | col_Ys, (xs, _, zs) => (xs, v, zs)
  end.

Definition set_Zs (v : Q) (p : Q * Q * Q) : Q * Q * Q :=
  let '(xs, ys, _) := p in (xs, ys, v).

(** [fm_df.ix[name]] *)
Definition loc (fm_df : list FileMatrix.tile) (name : node) : option FileMatrix.tile :=
  find (fun t => String.eqb name (FileMatrix.filename t)) fm_df.

(** The body of the loop over the edges of the depth-first search: the
    position of the child tile [edge[1]] from that of its parent
    [edge[0]].  The two ordering options are read from the file matrix. *)
Definition propagate (fm : FileMatrix.FileMatrix) (df : list measurement)
  (T : Graph edge_attr) (pos : positions) (edge : node * node)
  : exn + positions :=
  let fm_df := FileMatrix.data_frame fm in
  let '(e0, e1) := edge in
  match get_edge_data T e0 e1 with
  | None => inl (TypeError "'NoneType' object is not subscriptable"%string)
  | Some edge_data =>
      match nth_error df (label edge_data) with
      | None => inl (KeyError "label"%string)
      | Some m =>
          match loc fm_df e1, get_item e1 pos with
          | Some t1, Some p1 =>
              match loc fm_df e0, get_item e0 pos with
              | Some t0, Some p0 =>
                  let '(stride_y, key_Y, key_Xs, key_Ys, ascending) :=
                    if (axis m =? 2)%Z
                    then (FileMatrix.xsize t1, FileMatrix.X, col_Ys, col_Xs,
                          FileMatrix.ascending_tiles_x fm)
                    else (FileMatrix.ysize t1, FileMatrix.Y, col_Xs, col_Ys,
                          FileMatrix.ascending_tiles_y fm) in
                  let ascending_sign := if ascending then 1%Z else (-1)%Z in
                  let sign_y :=
                    ((if (key_Y t1 >=? key_Y t0)%Z then 1 else -1) * ascending_sign)%Z in
                  let sign_z :=
                    if (FileMatrix.Z t1 >=? FileMatrix.Z t0)%Z then 1%Z else (-1)%Z in
                  let Xs := (get_col key_Xs p0 + dx m)%Q in
                  let Ys := (get_col key_Ys p0
                             + inject_Z sign_y * (inject_Z stride_y - dy m))%Q in
                  let Zs := (snd p0 + inject_Z sign_z * dz m)%Q in
                  inr (set_item e1
                         (set_Zs Zs (set_col key_Ys Ys (set_col key_Xs Xs p1))) pos)
              | _, _ => inl (KeyError e0)
              end
          | _, _ => inl (KeyError e1)
          end
      end
  end.

Fixpoint propagate_all (fm : FileMatrix.FileMatrix) (df : list measurement)
  (T : Graph edge_attr) (es : list (node * node)) (pos : positions)
  : exn + positions :=
  match es with
  | [] => inr pos
  | edge :: es' =>
      match propagate fm df T pos edge with
      | inl e => inl e
      | inr pos' => propagate_all fm df T es' pos'
      end
  end.

Definition Qmin_list (l : list Q) : Q :=
  match l with
  | [] => 0%Q
  | v :: vs => fold_left (fun a b => if Qle_bool a b then a else b) vs v
  end.

(** [np.rint]: the nearest integer, halves to the even neighbour. *)
Definition rint (q : Q) : Z :=
  let f := Qfloor q in
  match Qcompare (2 * (q - inject_Z f)) 1 with
  | Lt => f
  | Gt => (f + 1)%Z
  | Eq => if Z.even f then f else (f + 1)%Z
  end.

(** The last loop: every column minus its minimum, rounded to int64. *)
Definition normalize (fm : FileMatrix.FileMatrix) (pos : positions)
  : FileMatrix.FileMatrix :=
  let mx := Qmin_list (map (fun '(_, (xs, _, _)) => xs) pos) in
  let my := Qmin_list (map (fun '(_, (_, ys, _)) => ys) pos) in
  let mz := Qmin_list (map (fun '(_, (_, _, zs)) => zs) pos) in
  {| FileMatrix.data_frame :=
       map (fun '(t, (_, (xs, ys, zs))) =>
              FileMatrix.set_abs t (rint (xs - mx)) (rint (ys - my)) (rint (zs - mz)))
           (combine (FileMatrix.data_frame fm) pos);
     FileMatrix.has_abs_columns := true;
     FileMatrix.ascending_tiles_x := FileMatrix.ascending_tiles_x fm;
     FileMatrix.ascending_tiles_y := FileMatrix.ascending_tiles_y fm |}.

(** [_compute_absolute_positions]: the file matrix with the columns
    [Xs], [Ys], [Zs] filled in.  [None] only if the search ran out of
    fuel. *)
Definition _compute_absolute_positions (fm : FileMatrix.FileMatrix)
  (df : list measurement) : option (exn + FileMatrix.FileMatrix) :=
  let fm_df := FileMatrix.data_frame fm in
  let T := minimum_spanning_tree df in
  let pos := map (fun t => (FileMatrix.filename t, (0, 0, 0)%Q)) fm_df in
  match fm_df with
  | [] => Some (inl (IndexError "single positional indexer is out-of-bounds"%string))
  | first :: _ =>
      match dfs_edges T (FileMatrix.filename first) with
      | None => None
      | Some (inl e) => Some (inl e)
      | Some (inr es) =>
          match propagate_all fm df T es pos with
          | inl e => Some (inl e)
          | inr pos' => Some (inr (normalize fm pos'))
          end
      end
  end.

(** *** Blending *)

Import Np.

(** The weights of [_fuse] for a region of [output_height] rows and
    [output_width] columns, one row of equal weights per row of the
    region. *)
Definition ramp (output_height : nat) : list R :=
  let rad := linspace 0 PI output_height in
  map (fun r => ((cos r + 1) / 2)%R) rad.

Definition alpha_matrix (output_height output_width : nat)
  : exn + list (list R) :=
  let alpha := ramp output_height in
  let alpha := tile alpha output_width in
  match reshape2 alpha output_width output_height with
  | inl e => inl e
  | inr alpha => inr (transpose output_height alpha)
  end.

(** [_fuse(a_roi, b_roi, dest)]: the outcome ([None] when the method
    returns) and the contents of [dest] afterwards. *)
Definition _fuse (a_roi b_roi dest : ndarray) : option exn * ndarray :=
  if negb (shape_eqb (shape a_roi) (shape b_roi))
     || negb (shape_eqb (shape a_roi) (shape dest))
  then (Some (ValueError "ROI shapes must be equal"%string), dest)
  else
    let output_height := height a_roi in
    let output_width := width a_roi in
    match alpha_matrix output_height output_width with
    | inl e => (Some e, dest)
    | inr alpha =>
        (None,
         {| frames := frames dest;
            height := height dest;
            width := width dest;
            item := fun f h w =>
                      let al := nth w (nth h alpha []) 0%R in
                      (item a_roi f h w * al + item b_roi f h w * (1 - al))%R |})
    end.

End FuseRunner.

(** ** stitcher/fuser/fuse_runner.py *)

Module Fuser.
Local Open Scope Z_scope.

(** The fields of the runner that decide the chunks. *)
Record FuseRunner : Type := {
  fm : FileMatrix.FileMatrix;
  zmin : Z;
  zmax : option Z
}.

Definition set_zmax (fr : FuseRunner) (v : Z) : FuseRunner :=
  {| fm := fm fr; zmin := zmin fr; zmax := Some v |}.

Definition set_zmin (fr : FuseRunner) (v : Z) : FuseRunner :=
  {| fm := fm fr; zmin := v; zmax := zmax fr |}.

(** [output_shape[0]] *)
Definition output_thickness (fr : FuseRunner) : Z :=
  let thickness := FileMatrix.full_thickness (fm fr) in
  let thickness :=
    match zmax fr with
    | Some zm => thickness - (thickness - zm)
    | None => thickness
    end in
  thickness - zmin fr.


(** The list [partial_thickness] that [run] builds; [//] and [%] raise on
    a zero divisor. *)
Definition partial_thickness (total n_frames_in_ram : Z) : exn + list Z :=
  if n_frames_in_ram =? 0 then inl ZeroDivisionError
  else
    let n_loops := total / n_frames_in_ram in
    let partial := repeat n_frames_in_ram (Z.to_nat n_loops) in
    let remainder := total mod n_frames_in_ram in
    inr (if remainder =? 0 then partial else partial ++ [remainder]).

(** The frames [z_from, z_to) of a tile that fall in the current chunk;
    [None] when the tile is skipped. *)
Definition tile_frames (fr : FuseRunner) (row : FileMatrix.tile) : option (Z * Z) :=
  let z_to :=
    match zmax fr with
    | None => FileMatrix.nfrms row
    | Some zm => zm - FileMatrix.Zs row
    end in
  let z_to := if z_to >? FileMatrix.nfrms row then FileMatrix.nfrms row else z_to in
  if z_to <=? 0 then None
  else
    let z_from := zmin fr - FileMatrix.Zs row in
    let z_from := if z_from <? 0 then 0 else z_from in
    if z_from >=? z_to then None else Some (z_from, z_to).

(** The main loop of [run].  The output file is the list of its pages,
    every page named by the frame of the output volume it holds: frame
    [k] of the chunk buffer is frame [zmin + k] of the volume (a tile
    frame is placed at [Zs + z_from - zmin]), and [imsave(append=True)]
    appends the whole buffer. *)
Fixpoint run_chunks (thicknesses : list Z) (fr : FuseRunner) (file : list Z)
  : FuseRunner * list Z :=
  match thicknesses with
  | [] => (fr, file)
  | thickness :: rest =>
      let fr := set_zmax fr (zmin fr + thickness) in
      let frames := Z.to_nat (output_thickness fr) in
      let fused := map (fun k => zmin fr + Z.of_nat k) (seq 0 frames) in
      let file := file ++ fused in
      let fr := set_zmin fr (zmin fr + thickness) in
      run_chunks rest fr file
  end.

(** [run], given the number of frames that fit in memory: the chunk
    thicknesses, the final state of the runner and the pages written. *)
Definition run (fr : FuseRunner) (n_frames_in_ram : Z)
  : exn + (list Z * FuseRunner * list Z) :=
  match partial_thickness (output_thickness fr) n_frames_in_ram with
  | inl e => inl e
  | inr thicknesses =>
      let '(fr', file) := run_chunks thicknesses fr [] in
      inr (thicknesses, fr', file)
  end.

End Fuser.

(** ** pygmo *)

Module Pg.

Definition Qlt_bool (a b : Q) : bool := negb (Qle_bool b a).

Section Population.
(** Decision vectors, and the objective of the problem. *)
Variable X : Type.
Variable fitness : X -> Q.

(** A population of a single-objective problem: its individuals with
    their fitness, and its champion, the best individual that ever
    lived in it. *)
Record population : Type := {
  individuals : list (X * Q);
  champion : option (X * Q)
}.

Definition empty_population : population :=
  {| individuals := []; champion := None |}.

(** The champion changes only for a strictly better individual. *)
Definition update_champion (ch : option (X * Q)) (x : X) (f : Q)
  : option (X * Q) :=
  match ch with
  | None => Some (x, f)
  | Some (_, cf) => if Qlt_bool f cf then Some (x, f) else ch
  end.

Definition push_back (pop : population) (x : X) : population :=
  let f := fitness x in
  {| individuals := individuals pop ++ [(x, f)];
     champion := update_champion (champion pop) x f |}.

Fixpoint replace_nth {A : Type} (i : nat) (a : A) (l : list A) : list A :=
  match l, i with
  | [], _ => []
  | _ :: l', O => a :: l'
  | b :: l', S i' => b :: replace_nth i' a l'
  end.

(** [pop.set_x(i, x)]: the individual is replaced and the champion
    updated. *)
Definition set_x (pop : population) (i : nat) (x : X) : population :=
  let f := fitness x in
  {| individuals := replace_nth i (x, f) (individuals pop);
     champion := update_champion (champion pop) x f |}.

(** What an algorithm does to the population of its island: a run of
    the simulated annealing is random, so it is any list of
    replacements. *)
Definition evolution := list (nat * X).

Definition evolve (pop : population) (run : evolution) : population :=
  fold_left (fun pop '(i, x) => set_x pop i x) run pop.

(** [archi.evolve(n)] on islands that do not exchange individuals:
    in round [j] island [k] goes through the run [runs k j]. *)
Definition archipelago_evolve (archi : list population) (n : nat)
  (runs : nat -> nat -> evolution) : list population :=
  map (fun '(k, pop) => fold_left evolve (map (runs k) (seq 0 n)) pop)
      (combine (seq 0 (length archi)) archi).

(** [archi.get_champions_x()] and [archi.get_champions_f()]; an island
    whose population never had an individual has no champion. *)
Definition get_champions (archi : list population) : exn + list (X * Q) :=
  fold_right (fun pop acc =>
                match champion pop, acc with
                | Some c, inr cs => inr (c :: cs)
                | None, _ => inl (ValueError "no champion"%string)
                | _, inl e => inl e
                end) (inr []) archi.
End Population.

Arguments individuals {X} p.
Arguments champion {X} p.
Arguments empty_population {X}.
Arguments update_champion {X} ch x f.
Arguments push_back {X} fitness pop x.
Arguments set_x {X} fitness pop i x.
Arguments evolve {X} fitness pop run.
Arguments archipelago_evolve {X} fitness archi n runs.
Arguments get_champions {X} archi.

End Pg.

(** ** stitcher/global_optimization.py *)

Module GlobalOptimization.
Import Np.

(** [decision_vector_to_tile_coords(x, shape)].

    [x.reshape(shape)] is a view of [x], so the assignment to [t[0, ...]]
    writes the running sums of the first row into the caller's array; the
    second [np.cumsum] allocates the array that is returned.  The result
    is the pair of the caller's array after the call and the returned
    tile coordinates.  Indexing row 0 of an array without rows raises
    IndexError. *)
Definition decision_vector_to_tile_coords (x : array1) (shape : nat * nat * nat)
  : exn + (array1 * array3) :=
  match reshape3 x shape with
  | inl e => inl e
  | inr t =>
      match t with
      | [] => inl (IndexError "index 0 is out of bounds for axis 0 with size 0"%string)
      | row0 :: rows =>
          let t := cumsum add1 row0 :: rows in
          inr (flatten3 t, cumsum add2 t)
      end
  end.


(** The loop of [absolute_position_global_optimization] that picks the
    champion among those of the islands. *)
Definition select_champion (xs : list array1) (fs : list Q)
  : exn + (array1 * Q) :=
  match xs, fs with
  | x0 :: _, f0 :: _ =>
      inr (fold_left (fun '(champion, current_min) '(x, f) =>
                        if Pg.Qlt_bool f current_min then (x, f)
                        else (champion, current_min))
                     (combine xs fs) (x0, f0))
  | _, _ => inl (IndexError "list index out of range"%string)
  end.

(** The optimisation proper: a population that holds the initial
    decision vector [x0], eight islands that start from it, four
    evolutions of each, and the choice of the champion.  [fitness] is the
    objective of the problem, [runs] what the eight random searches do. *)
Definition global_optimization_champion (fitness : array1 -> Q)
  (x0 : array1) (runs : nat -> nat -> Pg.evolution array1)
  : exn + (array1 * Q) :=
  let pop := Pg.push_back fitness Pg.empty_population x0 in
  let archi := repeat pop 8 in
  let archi := Pg.archipelago_evolve fitness archi 4 runs in
  match Pg.get_champions archi with
  | inl e => inl e
  | inr champions =>
      select_champion (map fst champions) (map snd champions)
  end.

End GlobalOptimization.

(** ** Notions used in the statements *)

(** Two matrices have the same shape when they have as many rows, of the
    same lengths. *)
Definition same_shape2 (m1 m2 : Np.array2) : Prop :=
  Forall2 (fun r1 r2 : Np.array1 => length r1 = length r2) m1 m2.

(** A matrix of [n] rows of [c] items. *)
Definition rect2 (n c : nat) (m : Np.array2) : Prop :=
  length m = n /\ Forall (fun r => length r = c) m.

Definition sum_Z (l : list Z) : Z := fold_right Z.add 0%Z l.

(** The frames [lo], [lo + 1], ... of the output volume, [len] of them. *)
Definition frame_range (lo : Z) (len : nat) : list Z :=
  map (fun k => (lo + Z.of_nat k)%Z) (seq 0 len).

(** A file matrix of one tile of [n] frames at the origin. *)
Definition one_tile_matrix (n : Z) : FileMatrix.FileMatrix :=
  {| FileMatrix.data_frame :=
       [ {| FileMatrix.filename := "0_0_0"%string;
            FileMatrix.X := 0%Z; FileMatrix.Y := 0%Z; FileMatrix.Z := 0%Z;
            FileMatrix.nfrms := n; FileMatrix.ysize := 100%Z;
            FileMatrix.xsize := 100%Z; FileMatrix.Z_end := n;
            FileMatrix.Xs := 0%Z; FileMatrix.Ys := 0%Z; FileMatrix.Zs := 0%Z;
            FileMatrix.Xs_end := 100%Z; FileMatrix.Ys_end := 100%Z;
            FileMatrix.Zs_end := n |} ];
     FileMatrix.has_abs_columns := true;
     FileMatrix.ascending_tiles_x := true;
     FileMatrix.ascending_tiles_y := true |}.

(** A table of three files on a mosaic of two columns and two rows. *)
Definition grid_tile (name : string) (x y z n : Z) : FileMatrix.tile :=
  {| FileMatrix.filename := name;
     FileMatrix.X := x; FileMatrix.Y := y; FileMatrix.Z := z;
     FileMatrix.nfrms := n; FileMatrix.ysize := 100%Z;
     FileMatrix.xsize := 100%Z; FileMatrix.Z_end := 0%Z;
     FileMatrix.Xs := 0%Z; FileMatrix.Ys := 0%Z; FileMatrix.Zs := 0%Z;
     FileMatrix.Xs_end := 0%Z; FileMatrix.Ys_end := 0%Z;
     FileMatrix.Zs_end := 0%Z |}.

Definition matrix_of (df : list FileMatrix.tile) : FileMatrix.FileMatrix :=
  {| FileMatrix.data_frame := df;
     FileMatrix.has_abs_columns := false;
     FileMatrix.ascending_tiles_x := true;
     FileMatrix.ascending_tiles_y := true |}.

Definition incomplete_mosaic : FileMatrix.FileMatrix :=
  matrix_of [ grid_tile "x_0_y_0_z_0" 0 0 0 5;
              grid_tile "x_1_y_0_z_0" 1 0 0 5;
              grid_tile "x_0_y_1_z_0" 0 1 0 5 ].

(** The blending weight of row [i] of an overlap of [n] rows. *)
Definition alpha (n i : nat) : R := nth i (FuseRunner.ramp n) 0%R.

(** An individual with its recorded fitness is sound when the record is
    its fitness and it is not worse than the initial decision vector. *)
Definition not_worse (fitness : Np.array1 -> Q) (x0 : Np.array1)
  (c : Np.array1 * Q) : Prop :=
  snd c = fitness (fst c) /\ (snd c <= fitness x0)%Q.

Definition champion_not_worse (fitness : Np.array1 -> Q) (x0 : Np.array1)
  (pop : Pg.population Np.array1) : Prop :=
  exists c, Pg.champion pop = Some c /\ not_worse fitness x0 c.


(** The mosaic of the end-to-end scenario: two columns and two rows of
    tiles of 100 x 100 pixels and 5 frames, all at [Z = 0]; the table is in
    the order of [sort_values(['Z', 'Y', 'X'])]. *)
Definition mosaic_2x2 : FileMatrix.FileMatrix :=
  matrix_of [ grid_tile "x_0_y_0" 0 0 0 5;
              grid_tile "x_1_y_0" 1 0 0 5;
              grid_tile "x_0_y_1" 0 1 0 5;
              grid_tile "x_1_y_1" 1 1 0 5 ].

Definition measured (a b : string) (ax : Z) (x y z : Z) : FuseRunner.measurement :=
  {| FuseRunner.aname := a; FuseRunner.bname := b; FuseRunner.axis := ax;
     FuseRunner.dx := inject_Z x; FuseRunner.dy := inject_Z y;
     FuseRunner.dz := inject_Z z; FuseRunner.score := 1%Q |}.








(** [b] is a neighbour of [a] in [G]. *)
Definition adjacent {D : Type} (G : Nx.Graph D) (a b : Nx.node) : Prop :=
  In b (map fst (Nx.neighbors G a)).

(** The invariant of an undirected graph: every node once, and every edge
    stored in both directions. *)
Definition wf_graph {D : Type} (G : Nx.Graph D) : Prop :=
  NoDup (Nx.nodes G) /\ forall a b, adjacent G a b -> adjacent G b a.

(** A set of nodes that no edge leaves. *)
Definition closed {D : Type} (G : Nx.Graph D) (s : list Nx.node) : Prop :=
  forall a b, In a s -> adjacent G a b -> In b s.

(** [c] is the component of [u]: the least set that holds [u] and that no
    edge leaves, every node once. *)
Definition component_of {D : Type} (G : Nx.Graph D) (u : Nx.node)
  (c : list Nx.node) : Prop :=
  In u c /\ NoDup c /\ closed G c
  /\ forall P : Nx.node -> Prop,
      (forall a b, P a -> adjacent G a b -> P b) -> P u ->
      forall x, In x c -> P x.

(** The frame range [Z, Z_end) of [t] holds that of [r]. *)
Definition holds_range (t r : FileMatrix.tile) : Prop :=
  (FileMatrix.Z t <= FileMatrix.Z r)%Z
  /\ (FileMatrix.Z_end r <= FileMatrix.Z_end t)%Z.

(** Two tiles are partners along Z when the frame range of one holds that
    of the other. *)
Definition z_partner (v w : FileMatrix.tile) : Prop :=
  holds_range v w \/ holds_range w v.

(** Two tiles share a frame. *)
Definition share_frame (v w : FileMatrix.tile) : Prop :=
  exists z : Z,
    (FileMatrix.Z v <= z < FileMatrix.Z_end v)%Z
    /\ (FileMatrix.Z w <= z < FileMatrix.Z_end w)%Z.

(** Three tiles: two stacked on the same frames, one further along Z. *)
Definition slice_tile (name : string) (z z_end : Z) : FileMatrix.tile :=
  {| FileMatrix.filename := name;
     FileMatrix.X := 0%Z; FileMatrix.Y := 0%Z; FileMatrix.Z := z;
     FileMatrix.nfrms := (z_end - z)%Z; FileMatrix.ysize := 100%Z;
     FileMatrix.xsize := 100%Z; FileMatrix.Z_end := z_end;
     FileMatrix.Xs := 0%Z; FileMatrix.Ys := 0%Z; FileMatrix.Zs := 0%Z;
     FileMatrix.Xs_end := 0%Z; FileMatrix.Ys_end := 0%Z;
     FileMatrix.Zs_end := 0%Z |}.

Definition three_tiles : FileMatrix.FileMatrix :=
  matrix_of [ slice_tile "a" 0 5; slice_tile "b" 0 5; slice_tile "c" 7 12 ].

(** The classes that Kruskal's algorithm ends with. *)
Fixpoint kruskal_classes {D : Type} (es : list (Nx.node * Nx.node * D))
  (p : Nx.partition) : Nx.partition :=
  match es with
  | [] => p
  | (u, v, d) :: es' =>
      if Nx.same_class p u v then kruskal_classes es' p
      else kruskal_classes es' (Nx.union p u v)
  end.

(** [p] is a partition of the nodes [vs]: classes without a common node,
    none empty, that cover [vs]. *)
Definition partition_of (vs : list Nx.node) (p : Nx.partition) : Prop :=
  NoDup (concat p)
  /\ (forall x, In x (concat p) <-> In x vs)
  /\ Forall (fun c => c <> []) p.

(** A list of edges without a self-loop and without two edges between the
    same two nodes. *)
Fixpoint simple_edges {D : Type} (es : list (Nx.node * Nx.node * D)) : Prop :=
  match es with
  | [] => True
  | (u, v, _) :: es' =>
      u <> v
      /\ (forall a b d, In (a, b, d) es' -> ~ ((a = u /\ b = v) \/ (a = v /\ b = u)))
      /\ simple_edges es'
  end.

(** The sum of the degrees of a graph. *)
Definition degree_sum {D : Type} (G : Nx.Graph D) : nat :=
  list_sum (map (fun '(n, nbrs) => Nx.degree_of n nbrs) G).










(** ** Notions used in the further properties *)

(** The raw position of a tile in a table of positions. *)
Definition raw_position (pos : FuseRunner.positions) (name : Nx.node)
  : option (Q * Q * Q) := Nx.get_item name pos.


(** Two registrations are of the same pair of tiles, in either order. *)
Definition same_pair (m m' : FuseRunner.measurement) : Prop :=
  (FuseRunner.aname m' = FuseRunner.aname m /\ FuseRunner.bname m' = FuseRunner.bname m)
  \/ (FuseRunner.aname m' = FuseRunner.bname m /\ FuseRunner.bname m' = FuseRunner.aname m).

(** A table of two registrations of the same pair, the better one first. *)
Definition registered_twice : list FuseRunner.measurement :=
  [ {| FuseRunner.aname := "x_0_y_0"; FuseRunner.bname := "x_1_y_0";
       FuseRunner.axis := 2; FuseRunner.dx := 0; FuseRunner.dy := 20;
       FuseRunner.dz := 0; FuseRunner.score := 9 # 10 |};
    {| FuseRunner.aname := "x_1_y_0"; FuseRunner.bname := "x_0_y_0";
       FuseRunner.axis := 2; FuseRunner.dx := 0; FuseRunner.dy := 35;
       FuseRunner.dz := 0; FuseRunner.score := 1 # 10 |} ]%string%Q.

(** What [process_data_frame] does to a row [t] of a table [df], [t'] being
    the row afterwards: the file and its sizes are kept, the grid
    coordinates are counted from the least of their column, and [Z_end] is
    the frame after the last one. *)
Definition grid_row_processed (df : list FileMatrix.tile) (t t' : FileMatrix.tile)
  : Prop :=
  FileMatrix.filename t' = FileMatrix.filename t
  /\ FileMatrix.nfrms t' = FileMatrix.nfrms t
  /\ FileMatrix.ysize t' = FileMatrix.ysize t
  /\ FileMatrix.xsize t' = FileMatrix.xsize t
  /\ FileMatrix.X t' = (FileMatrix.X t - FileMatrix.col_min FileMatrix.X df)%Z
  /\ FileMatrix.Y t' = (FileMatrix.Y t - FileMatrix.col_min FileMatrix.Y df)%Z
  /\ FileMatrix.Z t' = (FileMatrix.Z t - FileMatrix.col_min FileMatrix.Z df)%Z
  /\ FileMatrix.Z_end t' = (FileMatrix.Z t' + FileMatrix.nfrms t')%Z.

(** The same for the absolute positions, when the table has them. *)
Definition abs_row_processed (df : list FileMatrix.tile) (t t' : FileMatrix.tile)
  : Prop :=
  FileMatrix.Xs t' = (FileMatrix.Xs t - FileMatrix.col_min FileMatrix.Xs df)%Z
  /\ FileMatrix.Ys t' = (FileMatrix.Ys t - FileMatrix.col_min FileMatrix.Ys df)%Z
  /\ FileMatrix.Zs t' = (FileMatrix.Zs t - FileMatrix.col_min FileMatrix.Zs df)%Z
  /\ FileMatrix.Xs_end t' = (FileMatrix.Xs t' + FileMatrix.xsize t')%Z
  /\ FileMatrix.Ys_end t' = (FileMatrix.Ys t' + FileMatrix.ysize t')%Z
  /\ FileMatrix.Zs_end t' = (FileMatrix.Zs t' + FileMatrix.nfrms t')%Z.

(** The mosaic check passes. *)
Definition complete_mosaic (fm : FileMatrix.FileMatrix) : Prop :=
  (FileMatrix.unique_size FileMatrix.X (FileMatrix.data_frame fm)
   * FileMatrix.unique_size FileMatrix.Y (FileMatrix.data_frame fm))%nat
  = length (FileMatrix.data_frame fm).


(** ** stitcher/fuser/fuse_runner.py: the loop over the tiles *)

Module FuserTiles.
Import Fuser.
Local Open Scope Z_scope.

(** What the loop over the tiles puts on the queue for a tile: the file
    [index], the frames [z_from, z_to) that are read from it, and
    [top_left], the place of the slice in the buffer of the chunk.  The
    third component of the item in the source, the overlaps of the tile,
    comes from a class outside these sources and is not part of the
    record. *)
Record put : Type := {
  index : string;
  z_from : Z;
  z_to : Z;
  top_left : Z * Z * Z
}.

(** The loop over [self.fm.data_frame.iterrows()] of one chunk. *)
Definition puts (fr : FuseRunner) : list put :=
  flat_map
    (fun row =>
       match tile_frames fr row with
       | None => []
       | Some (z_from, z_to) =>
           [ {| index := FileMatrix.filename row;
                z_from := z_from;
                z_to := z_to;
                top_left := (FileMatrix.Zs row + z_from - zmin fr,
                             FileMatrix.Ys row, FileMatrix.Xs row) |} ]
       end)
    (FileMatrix.data_frame (fm fr)).

(** The main loop of [run], seen from the queue: the items of every
    chunk. *)
Fixpoint run_puts (thicknesses : list Z) (fr : FuseRunner) : list (list put) :=
  match thicknesses with
  | [] => []
  | thickness :: rest =>
      let fr := set_zmax fr (zmin fr + thickness) in
      let items := puts fr in
      let fr := set_zmin fr (zmin fr + thickness) in
      items :: run_puts rest fr
  end.

Definition run (fr : FuseRunner) (n_frames_in_ram : Z) : exn + list (list put) :=
  match partial_thickness (output_thickness fr) n_frames_in_ram with
  | inl e => inl e
  | inr thicknesses => inr (run_puts thicknesses fr)
  end.

End FuserTiles.

(** The frames of the file [name] that a run reads, chunk after chunk. *)
Definition frames_read (name : string) (chunks : list (list FuserTiles.put))
  : list Z :=
  flat_map
    (flat_map
       (fun p =>
          if String.eqb (FuserTiles.index p) name
          then frame_range (FuserTiles.z_from p)
                           (Z.to_nat (FuserTiles.z_to p - FuserTiles.z_from p))
          else []))
    chunks.

(** The frames of a tile that fall in the frames [lo, hi) of the volume. *)
Definition frames_in (row : FileMatrix.tile) (lo hi : Z) : list Z :=
  let first := Z.max 0 (lo - FileMatrix.Zs row) in
  let stop := Z.min (FileMatrix.nfrms row) (hi - FileMatrix.Zs row) in
  frame_range first (Z.to_nat (stop - first)).

(** Two tiles, the second starting three frames into the first. *)
Definition staggered_matrix : FileMatrix.FileMatrix :=
  {| FileMatrix.data_frame :=
       [ {| FileMatrix.filename := "a"%string;
            FileMatrix.X := 0%Z; FileMatrix.Y := 0%Z; FileMatrix.Z := 0%Z;
            FileMatrix.nfrms := 5%Z; FileMatrix.ysize := 100%Z;
            FileMatrix.xsize := 100%Z; FileMatrix.Z_end := 5%Z;
            FileMatrix.Xs := 0%Z; FileMatrix.Ys := 0%Z; FileMatrix.Zs := 0%Z;
            FileMatrix.Xs_end := 100%Z; FileMatrix.Ys_end := 100%Z;
            FileMatrix.Zs_end := 5%Z |};
         {| FileMatrix.filename := "b"%string;
            FileMatrix.X := 1%Z; FileMatrix.Y := 0%Z; FileMatrix.Z := 0%Z;
            FileMatrix.nfrms := 5%Z; FileMatrix.ysize := 100%Z;
            FileMatrix.xsize := 100%Z; FileMatrix.Z_end := 5%Z;
            FileMatrix.Xs := 80%Z; FileMatrix.Ys := 0%Z; FileMatrix.Zs := 3%Z;
            FileMatrix.Xs_end := 180%Z; FileMatrix.Ys_end := 100%Z;
            FileMatrix.Zs_end := 8%Z |} ];
     FileMatrix.has_abs_columns := true;
     FileMatrix.ascending_tiles_x := true;
     FileMatrix.ascending_tiles_y := true |}.

(** A runner on the two staggered tiles, set on the frames [2, 6) of the
    volume, and one set on the whole volume. *)
Definition staggered_chunk : Fuser.FuseRunner :=
  {| Fuser.fm := staggered_matrix; Fuser.zmin := 2%Z; Fuser.zmax := Some 6%Z |}.

Definition staggered_whole : Fuser.FuseRunner :=
  {| Fuser.fm := staggered_matrix; Fuser.zmin := 0%Z; Fuser.zmax := None |}.

Definition staggered_b : FileMatrix.tile :=
  nth 1 (FileMatrix.data_frame staggered_matrix) (grid_tile "" 0 0 0 0).

(** ** stitcher/global_optimization.py: the bounds of the problem *)

Module TileDisplacementLeastSquares.

(** [l * n] on a Python list. *)
Definition list_mul {A : Type} (l : list A) (n : nat) : list A :=
  concat (repeat l n).

(** [l[i:j] = t] on a Python list: the items from [i] up to [j] are
    replaced by those of [t]; both ends are cut at the length of the list,
    and a slice that ends before it starts is empty. *)
Definition set_slice {A : Type} (i j : nat) (t l : list A) : list A :=
  firstn i l ++ t ++ skipn (Nat.max i j) l.

(** [get_bounds] for a problem of shape [[ysize, xsize, 3]]: the lower
    and the upper bounds of the decision vector. *)
Definition get_bounds (shape : nat * nat * nat) : list Z * list Z :=
  let '(ysize, xsize, _) := shape in
  let n_of_tiles := (ysize * xsize)%nat in
  let mins := list_mul [-10; 400; -30]%Z n_of_tiles in
  let mins := set_slice 0 3 [0; 0; 0]%Z mins in
  let mins := set_slice 3 (3 * xsize) (list_mul [-10; -30; 400]%Z (xsize - 1)) mins in
  let maxs := list_mul [10; 512; 30]%Z n_of_tiles in
  let maxs := set_slice 0 3 [0; 0; 0]%Z maxs in
  let maxs := set_slice 3 (3 * xsize) (list_mul [10; 30; 512]%Z (xsize - 1)) maxs in
  (mins, maxs).

End TileDisplacementLeastSquares.

(** The bounds of the displacement of tile number [k] of the mosaic, row
    after row: the three items of the lower and of the upper bounds. *)
Definition tile_bounds (bounds : list Z * list Z) (k : nat) : list Z * list Z :=
  (firstn 3 (skipn (3 * k) (fst bounds)), firstn 3 (skipn (3 * k) (snd bounds))).

(** Component [c] of the item of row [i] and column [j] of an array of
    three dimensions, and of the flat array it is a view of when it has
    [xsize] columns of [n] components. *)
Definition at3 (t : Np.array3) (i j c : nat) : Z :=
  nth c (nth j (nth i t []) []) 0%Z.

Definition at_flat (x : Np.array1) (xsize n : nat) (i j c : nat) : Z :=
  nth ((i * xsize + j) * n + c) x 0%Z.

(** ** pandas *)

Module Pd.

(** A column of the tile table. *)
Definition column := FileMatrix.tile -> Z.

(** The order of [df.sort_values(by)]: the columns of [by] compared one
    after the other. *)
Fixpoint lex_le (by' : list column) (a b : FileMatrix.tile) : bool :=
  match by' with
  | [] => true
  | k :: rest =>
      if (k a <? k b)%Z then true
      else if (k a =? k b)%Z then lex_le rest a b
           else false
  end.

Fixpoint insert (by' : list column) (a : FileMatrix.tile)
  (l : list FileMatrix.tile) : list FileMatrix.tile :=
  match l with
  | [] => [a]
  | b :: l' => if lex_le by' a b then a :: l else b :: insert by' a l'
  end.

(** [df.sort_values(by)] on several columns, ascending: pandas orders
    the rows with a stable sort, rows with the same values keep their
    order. *)
Definition sort_values (by' : list column) (df : list FileMatrix.tile)
  : list FileMatrix.tile :=
  fold_right (insert by') [] df.

Fixpoint insert_Z (v : Z) (l : list Z) : list Z :=
  match l with
  | [] => [v]
  | w :: l' => if (v <=? w)%Z then v :: l else w :: insert_Z v l'
  end.

(** The keys of [df.groupby(key)]: the values of the column, each once,
    in ascending order. *)
Definition group_keys (key : column) (df : list FileMatrix.tile) : list Z :=
  fold_right insert_Z [] (nodup Z.eq_dec (map key df)).

(** Iterating [df.groupby(key)]: for every key in ascending order, the
    rows with that key in the order of the table. *)
Definition groupby (key : column) (df : list FileMatrix.tile)
  : list (Z * list FileMatrix.tile) :=
  map (fun v => (v, filter (fun t => (key t =? v)%Z) df)) (group_keys key df).

(** [df.loc[labels]] on a table indexed by file name: the rows of every
    label, label after label. *)
Definition loc (df : list FileMatrix.tile) (labels : list string)
  : list FileMatrix.tile :=
  flat_map (fun n => filter (fun t => String.eqb (FileMatrix.filename t) n) df)
           labels.

End Pd.

(** ** stitcher/filematrix.py: the groups of tiles to be stitched *)

Module TileGroups.

(** What a generator does when it is resumed: it yields a value and
    suspends, it returns, or it raises. *)
Inductive step (S Y E : Type) : Type :=
| Yield (y : Y) (s : S)
| Return
| Raise (e : E).

Arguments Yield {S Y E} y s.
Arguments Return {S Y E}.
Arguments Raise {S Y E} e.

(** What escapes a generator: an exception of the code, or the
    RuntimeError that Python raises (from version 3.7 on) when a
    StopIteration reaches the frame of a generator. *)
Inductive raised : Type :=
| Exn (e : exn)
| RuntimeError (msg : string).

(** [for y in gen] with a body that collects: the values yielded, and the
    exception that ended the loop, if any.  [None] when the fuel runs
    out. *)
Fixpoint iterate {S Y : Type} (next : S -> step S Y raised) (fuel : nat) (s : S)
  : option (list Y * option raised) :=
  match fuel with
  | O => None
  | Datatypes.S fuel' =>
      match next s with
      | Yield y s' =>
          match iterate next fuel' s' with
          | None => None
          | Some (ys, r) => Some (y :: ys, r)
          end
      | Return => Some ([], None)
      | Raise e => Some ([], Some e)
      end
  end.

(** What is sent to [tiles_along_dir]: the columns to sort by, and the
    column to group by. *)
Definition got := (list Pd.column * Pd.column)%type.

(** A group of tiles, or the [None] of a bare [yield]. *)
Definition yielded := option (list FileMatrix.tile).

(** The places where [tiles_along_dir] is suspended: before its first
    statement, at [got = yield] for the slice [s], and at [yield group]
    with the groups still to come; [rest] are the slices still to come. *)
Inductive dir_state : Type :=
| dir_start
| dir_got (s : Nx.Graph unit) (rest : list (Nx.Graph unit))
| dir_groups (groups : list (list FileMatrix.tile)) (rest : list (Nx.Graph unit))
| dir_fuel.

(** The head of the loop [for s in self.slices]. *)
Definition dir_loop (rest : list (Nx.Graph unit))
  : step dir_state yielded raised :=
  match rest with
  | [] => Return
  | s :: rest' => Yield None (dir_got s rest')
  end.

(** [g.send(sent)] on the generator [tiles_along_dir]; [next(g)] sends
    [None]. *)
Definition dir_send (fm : FileMatrix.FileMatrix) (state : dir_state)
  (sent : option got) : step dir_state yielded raised :=
  match state with
  | dir_start =>
      match FileMatrix.slices fm with
      | None => Yield None dir_fuel
      | Some (inl e) => Raise (Exn e)
      | Some (inr slices) => dir_loop slices
      end
  | dir_got s rest =>
      match sent with
      | None => Raise (Exn (TypeError "'NoneType' object is not subscriptable"))
      | Some (by', key) =>
          let view :=
            Pd.groupby key
              (Pd.sort_values by' (Pd.loc (FileMatrix.data_frame fm) (Nx.nodes s))) in
          match map snd view with
          | [] => dir_loop rest
          | group :: groups => Yield (Some group) (dir_groups groups rest)
          end
      end
  | dir_groups groups rest =>
      match groups with
      | [] => dir_loop rest
      | group :: groups' => Yield (Some group) (dir_groups groups' rest)
      end
  | dir_fuel => Yield None dir_fuel
  end.

(** The places where [tiles_along_X] and [tiles_along_Y] are suspended:
    before the first statement, and in [yield from g] (where the first
    [yield] leads as well), [g] being the state of the inner generator. *)
Inductive along_state : Type :=
| along_start
| along_from (g : dir_state).

(** [next] on the generator [tiles_along_X] ([sent] is what it sends to
    [tiles_along_dir]). *)
Definition along_next (fm : FileMatrix.FileMatrix) (sent : got)
  (state : along_state) : step along_state yielded raised :=
  match state with
  | along_start =>
      match dir_send fm dir_start None with
      | Return => Raise (RuntimeError "generator raised StopIteration")
      | Raise e => Raise e
      | Yield _ g =>
          match dir_send fm g (Some sent) with
          | Return => Raise (RuntimeError "generator raised StopIteration")
          | Raise e => Raise e
          | Yield y g' => Yield y (along_from g')
          end
      end
  | along_from g =>
      match dir_send fm g None with
      | Return => Return
      | Raise e => Raise e
      | Yield y g' => Yield y (along_from g')
      end
  end.

Definition tiles_along_X (fm : FileMatrix.FileMatrix)
  : along_state -> step along_state yielded raised :=
  along_next fm ([FileMatrix.Z; FileMatrix.X; FileMatrix.Y], FileMatrix.Y).

Definition tiles_along_Y (fm : FileMatrix.FileMatrix)
  : along_state -> step along_state yielded raised :=
  along_next fm ([FileMatrix.Z; FileMatrix.Y; FileMatrix.X], FileMatrix.X).

End TileGroups.

(** How a loop over [tiles_along_X] or [tiles_along_Y] ends once the groups
    of the first slice are served: it stops when there is no other slice;
    otherwise it is handed the [None] of the bare [yield] and the next step
    raises TypeError. *)
Definition after_first_slice (rest : list (Nx.Graph unit))
  : list TileGroups.yielded * option TileGroups.raised :=
  match rest with
  | [] => ([], None)
  | _ :: _ =>
      ([None],
       Some (TileGroups.Exn (TypeError "'NoneType' object is not subscriptable")))
  end.

(** The groups of the slice [s]: its rows sorted by the columns [by'] and
    grouped by the column [key]. *)
Definition groups_of (fm : FileMatrix.FileMatrix) (s : Nx.Graph unit)
  (sent : TileGroups.got) : list (list FileMatrix.tile) :=
  map snd (Pd.groupby (snd sent)
             (Pd.sort_values (fst sent)
                (Pd.loc (FileMatrix.data_frame fm) (Nx.nodes s)))).

(** A list of rows in the order of the columns [by']. *)
Definition ordered_by (by' : list Pd.column) (rows : list FileMatrix.tile) : Prop :=
  StronglySorted (fun a b => Pd.lex_le by' a b = true) rows.

(** The rows of a group have the same value in the column [key]. *)
Definition same_key (key : Pd.column) (rows : list FileMatrix.tile) : Prop :=
  exists v, Forall (fun t => key t = v) rows.

(** The values of the column [key] of a list of rows that are not empty in
    which the column is constant. *)
Definition keys_of (key : Pd.column) (groups : list (list FileMatrix.tile))
  : list Z :=
  map (fun g => match g with [] => 0%Z | t :: _ => key t end) groups.

(** The slices of the three tiles, and of the mosaic of two columns and two
    rows. *)
Definition slices_of (fm : FileMatrix.FileMatrix) : list (Nx.Graph unit) :=
  match FileMatrix.slices fm with
  | Some (inr l) => l
  | _ => []
  end.

(** ** Regular expressions *)

Module Re.

(** What matches a single character: a literal, [.] (any character but a
    newline) and [\d] (on a file name of ASCII characters, a digit). *)
Inductive cls : Type :=
| Chr (c : ascii)
| Dot
| Digit.

Definition is_digit (c : ascii) : bool :=
  ((48 <=? nat_of_ascii c) && (nat_of_ascii c <=? 57))%nat.

Definition test (k : cls) (c : ascii) : bool :=
  match k with
  | Chr a => Ascii.eqb c a
  | Dot => negb (Ascii.eqb c "010"%char)
  | Digit => is_digit c
  end.

(** The patterns: a character, the greedy [?], [*] and [+] of a
    character, a sequence, a numbered group and [^]. *)
Inductive re : Type :=
| Lit (k : cls)
| Opt (k : cls)
| Star (k : cls)
| Plus (k : cls)
| Seq (r1 r2 : re)
| Group (n : nat) (r : re)
| Bol.

(** The text of the groups matched so far. *)
Definition captures := list (nat * list ascii).

Fixpoint set_group (n : nat) (text : list ascii) (caps : captures) : captures :=
  match caps with
  | [] => [(n, text)]
  | (n', t') :: caps' =>
      if (n =? n')%nat then (n, text) :: caps' else (n', t') :: set_group n text caps'
  end.

Fixpoint group (n : nat) (caps : captures) : option (list ascii) :=
  match caps with
  | [] => None
  | (n', t') :: caps' => if (n =? n')%nat then Some t' else group n caps'
  end.

Section Matching.
Variable R : Type.

(** What is left of the pattern, applied to what is left of the
    string, the position reached and the groups. *)
Definition cont := list ascii -> nat -> captures -> option R.

(** A greedy [*]: as many characters as possible first, then fewer,
    until what is left of the pattern matches. *)
Fixpoint star (k : cls) (s : list ascii) (pos : nat) (caps : captures)
  (kont : cont) : option R :=
  match s with
  | c :: s' =>
      if test k c then
        match star k s' (S pos) caps kont with
        | Some r => Some r
        | None => kont s pos caps
        end
      else kont s pos caps
  | [] => kont s pos caps
  end.

(** The backtracking matcher: the first match in the order of the
    library, a greedy item taking as much as it can. *)
Fixpoint matches (r : re) (s : list ascii) (pos : nat) (caps : captures)
  (kont : cont) : option R :=
  match r with
  | Lit k =>
      match s with
      | c :: s' => if test k c then kont s' (S pos) caps else None
      | [] => None
      end
  | Opt k =>
      match s with
      | c :: s' =>
          if test k c then
            match kont s' (S pos) caps with
            | Some r => Some r
            | None => kont s pos caps
            end
          else kont s pos caps
      | [] => kont s pos caps
      end
  | Star k => star k s pos caps kont
  | Plus k =>
      match s with
      | c :: s' => if test k c then star k s' (S pos) caps kont else None
      | [] => None
      end
  | Seq r1 r2 =>
      matches r1 s pos caps (fun s' pos' caps' => matches r2 s' pos' caps' kont)
  | Group n r =>
      matches r s pos caps
        (fun s' pos' caps' => kont s' pos' (set_group n (firstn (pos' - pos) s) caps'))
  | Bol => if (pos =? 0)%nat then kont s pos caps else None
  end.
End Matching.

Arguments star {R} k s pos caps kont.
Arguments matches {R} r s pos caps kont.

(** [re.search(r, s)]: the match that starts first. *)
Fixpoint search_from (r : re) (s : list ascii) (pos : nat) : option captures :=
  match matches r s pos [] (fun _ _ caps => Some caps) with
  | Some caps => Some caps
  | None =>
      match s with
      | [] => None
      | _ :: s' => search_from r s' (S pos)
      end
  end.

Definition search (r : re) (s : list ascii) : option captures :=
  search_from r s 0.

(** A sequence of patterns. *)
Fixpoint cat (r : re) (rs : list re) : re :=
  match rs with
  | [] => r
  | r' :: rs' => Seq r (cat r' rs')
  end.

End Re.

(** ** stitcher/filematrix.py: loading a directory *)

Module Loader.
Import Re.

(** [os.path.basename]: what follows the last slash. *)
Fixpoint basename (p : list ascii) : list ascii :=
  match p with
  | [] => []
  | c :: p' => if existsb (Ascii.eqb "/"%char) p then basename p' else p
  end.

(** [str(n)] and [int(s)] of a Python integer. *)
Definition show_Z (z : Z) : string := NilZero.string_of_int (Z.to_int z).

Definition int (s : list ascii) : option Z :=
  option_map Z.of_int (NilZero.int_of_string (string_of_list_ascii s)).

(** [([-]?\d+)], as group [n]. *)
Definition number (n : nat) : re :=
  Group n (Seq (Opt (Chr "-"%char)) (Plus Digit)).

(** ['^.*x_([-]?\d+).*y_([-]?\d+).*z_([-]?\d+).*'] *)
Definition fields_by_name : re :=
  cat Bol [ Star Dot; Lit (Chr "x"%char); Lit (Chr "_"%char); number 1;
            Star Dot; Lit (Chr "y"%char); Lit (Chr "_"%char); number 2;
            Star Dot; Lit (Chr "z"%char); Lit (Chr "_"%char); number 3;
            Star Dot ].

(** ['^([-]?\d+)_([-]?\d+)_([-]?\d+)'] *)
Definition fields_in_order : re :=
  cat Bol [ number 1; Lit (Chr "_"%char); number 2; Lit (Chr "_"%char); number 3 ].

(** [parse_file_name(file_name)]: the fields, and the line that is
    printed. *)
Definition parse_file_name (file_name : string) : exn + (list Z * string) :=
  let file_name := basename (list_ascii_of_string file_name) in
  let m := Re.search fields_by_name file_name in
  let m := match m with
           | None => Re.search fields_in_order file_name
           | Some _ => m
           end in
  match m with
  | None =>
      inl (ValueError ("Invalid name " ++ string_of_list_ascii file_name))
  | Some caps =>
      let field i :=
        match group i caps with
        | None => None
        | Some text => int text
        end in
      match field 1%nat, field 2%nat, field 3%nat with
      | Some x, Some y, Some z =>
          inr ([x; y; z],
               (string_of_list_ascii file_name ++ String " "%char (String "009"%char "X=")
                ++ show_Z x ++ " Y=" ++ show_Z y ++ " Z=" ++ show_Z z)%string)
      | _, _, _ => inl (ValueError "invalid literal for int() with base 10")
      end
  end.


End Loader.




(** The characters of a string, and the strings that hold a character or
    do not. *)
Definition chars (s : string) : list ascii := list_ascii_of_string s.

Definition without (c : ascii) (s : string) : Prop := ~ In c (chars s).

(** What may come before the fields in a file name: no slash and no
    newline. *)
Definition plain_prefix (s : string) : Prop :=
  without "/"%char s /\ without "010"%char s.

(** What may follow the fields: it does not start with a digit and has no
    slash and none of the letters that announce a field. *)
Definition plain_suffix (s : string) : Prop :=
  match chars s with
  | [] => True
  | c :: _ => Re.is_digit c = false
  end
  /\ without "/"%char s /\ without "x"%char s /\ without "y"%char s
  /\ without "z"%char s.

(** A directory part: nothing, or a path that ends with a slash. *)
Definition directory_part (s : string) : Prop :=
  s = EmptyString \/ exists d, s = (d ++ "/")%string.

(** The line that [parse_file_name] prints. *)
Definition printed_line (name : string) (x y z : Z) : string :=
  (name ++ String " "%char (String "009"%char "X=") ++ Loader.show_Z x
   ++ " Y=" ++ Loader.show_Z y ++ " Z=" ++ Loader.show_Z z)%string.

(** The names of the two forms that [parse_file_name] reads. *)
Definition named_fields (prefix : string) (x y z : Z) (ext : string) : string :=
  (prefix ++ "x_" ++ Loader.show_Z x ++ "_y_" ++ Loader.show_Z y
   ++ "_z_" ++ Loader.show_Z z ++ ext)%string.

Definition ordered_fields (x y z : Z) (ext : string) : string :=
  (Loader.show_Z x ++ "_" ++ Loader.show_Z y ++ "_" ++ Loader.show_Z z ++ ext)%string.

(** A string that does not start with a digit, and one that holds none. *)
Definition no_leading_digit (s : string) : Prop :=
  match chars s with
  | [] => True
  | c :: _ => Re.is_digit c = false
  end.

Definition no_digit (s : string) : Prop :=
  forall c, In c (chars s) -> Re.is_digit c = false.

(** * Proofs *)

(** ** The decision vector *)

Section CumsumDiff.
Import Np.
Variable A : Type.
Variables (add sub : A -> A -> A).
Variable same_shape : A -> A -> Prop.
Hypothesis same_shape_add : forall s a, same_shape s a -> same_shape (add s a) a.
Hypothesis sub_add : forall s a, same_shape s a -> sub (add s a) s = a.
Hypothesis same_shape_trans :
  forall a b c, same_shape a b -> same_shape b c -> same_shape a c.


End CumsumDiff.

Section DecisionVector.
Import Np GlobalOptimization.

Lemma length_zip_with (A B C : Type) (f : A -> B -> C) :
  forall l1 l2, length l1 = length l2 -> length (zip_with f l1 l2) = length l2.
Proof.
  induction l1 as [|a l1 IH]; intros [|b l2] H; simpl in *; try congruence.
  f_equal. apply IH. congruence.
Qed.


Lemma same_shape2_add2 :
  forall s a, same_shape2 s a -> same_shape2 (add2 s a) a.
Proof.
  unfold same_shape2, add2. induction 1; simpl; constructor; auto.
  apply length_zip_with; assumption.
Qed.



Lemma rect2_same_shape2 :
  forall n c m1 m2, rect2 n c m1 -> rect2 n c m2 -> same_shape2 m1 m2.
Proof.
  unfold rect2, same_shape2. intros n c m1. revert n.
  induction m1 as [|r1 m1 IH]; intros n [|r2 m2] [L1 F1] [L2 F2];
    simpl in *; subst; try discriminate; constructor.
  - inversion F1; inversion F2; subst. congruence.
  - inversion F1; inversion F2; subst.
    apply IH with (n := length m1); split; auto.
Qed.

Lemma length_cumsum_from (A : Type) (add : A -> A -> A) :
  forall l acc, length (cumsum_from add acc l) = length l.
Proof. induction l; intros; simpl; auto. Qed.

Lemma length_cumsum (A : Type) (add : A -> A -> A) :
  forall l, length (cumsum add l) = length l.
Proof. intros [|a l]; simpl; auto using length_cumsum_from. Qed.

Lemma Forall_length_cumsum_from1 :
  forall c l acc,
    length acc = c -> Forall (fun r : array1 => length r = c) l ->
    Forall (fun r : array1 => length r = c) (cumsum_from add1 acc l).
Proof.
  induction l as [|a l IH]; intros acc Hacc Hl; simpl; constructor;
    inversion Hl; subst.
  - unfold add1. rewrite length_zip_with; congruence.
  - apply IH; auto. unfold add1. rewrite length_zip_with; congruence.
Qed.

Lemma rect2_cumsum1 : forall n c m, rect2 n c m -> rect2 n c (cumsum add1 m).
Proof.
  unfold rect2. intros n c m [L F]. split.
  - rewrite length_cumsum. assumption.
  - destruct m as [|a m]; simpl; [constructor|].
    inversion F; subst. constructor; auto.
    apply Forall_length_cumsum_from1; auto.
Qed.

Lemma chunks_spec (A : Type) :
  forall k n (l : list A),
    length l = (n * k)%nat ->
    concat (chunks k n l) = l
    /\ length (chunks k n l) = n
    /\ Forall (fun r => length r = k) (chunks k n l).
Proof.
  induction n as [|n IH]; intros l H; simpl in *.
  - destruct l; [auto | discriminate].
  - destruct (IH (skipn k l)) as (Hc & Hl & Hf).
    + rewrite length_skipn. lia.
    + rewrite Hc, firstn_skipn. repeat split; auto.
      constructor; auto. rewrite length_firstn. lia.
Qed.

Lemma reshape3_spec :
  forall x ysize xsize c,
    length x = (ysize * xsize * c)%nat ->
    exists t,
      reshape3 x (ysize, xsize, c) = inr t
      /\ flatten3 t = x
      /\ length t = ysize
      /\ Forall (rect2 xsize c) t.
Proof.
  intros x ysize xsize c H. unfold reshape3.
  rewrite H, Nat.eqb_refl. eexists; split; [reflexivity|].
  destruct (@chunks_spec Z (xsize * c) ysize x) as (Hc & Hl & Hf); [lia|].
  unfold flatten3. rewrite length_map. split; [|split; [assumption|]].
  - rewrite map_map. rewrite <- Hc at 2. f_equal.
    rewrite <- (map_id (chunks (xsize * c) ysize x)) at 2.
    apply map_ext_in. intros r Hr. rewrite Forall_forall in Hf.
    apply chunks_spec. rewrite (Hf r Hr). reflexivity.
  - rewrite Forall_forall in *. intros m Hm.
    apply in_map_iff in Hm as (r & <- & Hr).
    destruct (@chunks_spec Z c xsize r) as (_ & Hl' & Hf');
      [rewrite (Hf r Hr); reflexivity|].
    split; assumption.
Qed.



(** Without a row the first assignment raises. *)
Example decision_vector_no_row :
  decision_vector_to_tile_coords [] (0, 2, 3)%nat
  = inl (IndexError "index 0 is out of bounds for axis 0 with size 0"%string).
Proof. reflexivity. Qed.
End DecisionVector.

(** ** The chunks of the fusion *)

Section Chunks.
Import Fuser.
Local Open Scope Z_scope.

Lemma sum_Z_app : forall l1 l2, sum_Z (l1 ++ l2) = sum_Z l1 + sum_Z l2.
Proof. induction l1; intros; simpl; [|rewrite IHl1]; lia. Qed.

Lemma sum_Z_repeat : forall n k, sum_Z (repeat n k) = n * Z.of_nat k.
Proof. induction k; simpl; [|rewrite IHk]; lia. Qed.

Lemma frame_range_S :
  forall lo n, frame_range lo (S n) = lo :: frame_range (lo + 1) n.
Proof.
  intros lo n. unfold frame_range. simpl.
  rewrite <- seq_shift, map_map. f_equal; [lia|].
  apply map_ext. intros k. lia.
Qed.

Lemma frame_range_app :
  forall a lo b,
    frame_range lo (a + b) = frame_range lo a ++ frame_range (lo + Z.of_nat a) b.
Proof.
  induction a as [|a IH]; intros lo b.
  - simpl. f_equal. lia.
  - change (S a + b)%nat with (S (a + b)).
    rewrite !frame_range_S, IH. simpl. do 3 f_equal. lia.
Qed.

Lemma output_thickness_set_zmax :
  forall fr v, output_thickness (set_zmax fr v) = v - zmin fr.
Proof. intros. unfold output_thickness, set_zmax. simpl. lia. Qed.

(** The loop appends, chunk after chunk, the frames that follow the ones
    already written. *)
Lemma run_chunks_file :
  forall ths fr file,
    Forall (fun t => 0 <= t) ths ->
    snd (run_chunks ths fr file)
    = file ++ frame_range (zmin fr) (Z.to_nat (sum_Z ths)).
Proof.
  induction ths as [|t ths IH]; intros fr file Hpos; simpl.
  - rewrite app_nil_r. reflexivity.
  - inversion Hpos as [|? ? Ht Hths]; subst.
    rewrite IH by assumption.
    rewrite output_thickness_set_zmax. simpl.
    replace (zmin fr + t - zmin fr) with t by lia.
    assert (Hs : 0 <= sum_Z ths).
    { clear -Hths. induction Hths; simpl; lia. }
    rewrite Z2Nat.inj_add by assumption.
    rewrite frame_range_app, Z2Nat.id by assumption.
    rewrite <- app_assoc. reflexivity.
Qed.

Lemma partial_thickness_spec :
  forall total n,
    1 <= total -> 1 <= n ->
    exists ths,
      partial_thickness total n = inr ths
      /\ ths = repeat n (Z.to_nat (total / n))
               ++ (if total mod n =? 0 then [] else [total mod n])
      /\ sum_Z ths = total
      /\ Forall (fun t => 1 <= t <= n) ths.
Proof.
  intros total n Ht Hn. unfold partial_thickness.
  destruct (Z.eqb_spec n 0) as [?|_]; [lia|].
  pose proof (Z.div_pos total n ltac:(lia) ltac:(lia)) as Hq.
  pose proof (Z.mod_pos_bound total n ltac:(lia)) as Hr.
  pose proof (Z.div_mod total n ltac:(lia)) as Hdm.
  eexists. split; [reflexivity|].
  destruct (Z.eqb_spec (total mod n) 0) as [E|E].
  - rewrite app_nil_r. split; [reflexivity|]. split.
    + rewrite sum_Z_repeat, Z2Nat.id by assumption. lia.
    + apply Forall_forall. intros t Hin. apply repeat_spec in Hin. lia.
  - split; [reflexivity|]. split.
    + rewrite sum_Z_app, sum_Z_repeat, Z2Nat.id by assumption. simpl. lia.
    + apply Forall_app. split.
      * apply Forall_forall. intros t Hin. apply repeat_spec in Hin. lia.
      * constructor; [lia | constructor].
Qed.

(** C6. Chunk partitioning: when the output is [total >= 1] frames thick
    and [n >= 1] frames fit in memory, [run] cuts the output into
    [total // n] chunks of [n] frames followed by one chunk of
    [total % n] frames when that is not zero; the thicknesses add up to
    [total]; and the pages appended to the file are, in this order, the
    consecutive frames of the output from [zmin] on, [total] of them,
    none twice and none left out.  With [n = 3] and [total = 7] the
    chunks are [3, 3, 1]. *)
Theorem run_chunk_partition :
  forall (fr : FuseRunner) (n : Z),
    1 <= output_thickness fr -> 1 <= n ->
    let total := output_thickness fr in
    exists ths fr' file,
      run fr n = inr (ths, fr', file)
      /\ ths = repeat n (Z.to_nat (total / n))
               ++ (if total mod n =? 0 then [] else [total mod n])
      /\ sum_Z ths = total
      /\ file = frame_range (zmin fr) (Z.to_nat total)
      /\ NoDup file
      /\ (total = 7 -> n = 3 -> ths = [3; 3; 1]).
Proof.
  intros fr n Ht Hn total.
  destruct (partial_thickness_spec total n Ht Hn) as (ths & Hp & Hths & Hsum & Hall).
  unfold run. fold total. rewrite Hp.
  destruct (run_chunks ths fr []) as [fr' file] eqn:Hrun.
  exists ths, fr', file. split; [reflexivity|]. split; [assumption|].
  split; [assumption|].
  assert (Hfile : file = frame_range (zmin fr) (Z.to_nat total)).
  { pose proof (run_chunks_file ths fr []) as H. rewrite Hrun in H.
    simpl in H. rewrite H, Hsum; [reflexivity|].
    eapply Forall_impl; [|exact Hall]. simpl. intros; lia. }
  split; [assumption|]. split.
  - rewrite Hfile. unfold frame_range.
    apply NoDup_map_NoDup_ForallPairs; [|apply seq_NoDup].
    intros a b _ _ Hab. lia.
  - intros E7 E3. rewrite Hths, E7, E3. reflexivity.
Qed.

Lemma run_chunk_partition_witness :
  exists ths fr' file,
    run {| fm := one_tile_matrix 7; zmin := 0; zmax := None |} 3
    = inr (ths, fr', file)
    /\ ths = [3; 3; 1]
    /\ sum_Z ths = 7
    /\ file = [0; 1; 2; 3; 4; 5; 6]
    /\ NoDup file
    /\ (7 = 7 -> 3 = 3 -> ths = [3; 3; 1]).
Proof.
  apply (run_chunk_partition
           {| fm := one_tile_matrix 7; zmin := 0; zmax := None |} 3);
    vm_compute; discriminate.
Defined.
End Chunks.

(** ** The mosaic check *)

Section MosaicCheck.
Import FileMatrix.

(** C3. The mosaic check of [process_data_frame], which [load_yaml] runs
    on the table it has read: when the number of files differs from the
    number of distinct [X] times the number of distinct [Y], the method
    raises the mosaic error and leaves the table as it was, no coordinate
    having been touched; when the two numbers agree the method returns
    without raising. *)
Theorem process_data_frame_mosaic_check :
  forall fm : FileMatrix,
    let df := data_frame fm in
    let xsize := unique_size X df in
    let ysize := unique_size Y df in
    ((xsize * ysize)%nat <> length df ->
     process_data_frame fm = (Some (mosaic_error xsize ysize (length df)), fm)
     /\ load_yaml fm = (Some (mosaic_error xsize ysize (length df)), fm))
    /\ ((xsize * ysize)%nat = length df ->
        exists fm', process_data_frame fm = (None, fm')
                    /\ load_yaml fm = (None, fm')).
Proof.
  intros fm df xsize ysize. unfold load_yaml, process_data_frame.
  fold df. fold xsize. fold ysize. split; intros H.
  - apply Nat.eqb_neq in H. rewrite H. simpl. split; reflexivity.
  - apply Nat.eqb_eq in H. rewrite H. simpl.
    eexists. split; reflexivity.
Qed.

Lemma process_data_frame_mosaic_check_witness :
  process_data_frame incomplete_mosaic
  = (Some (ValueError "Mosaic is 2x2 tiles, but there are 3 files!"),
     incomplete_mosaic)
  /\ load_yaml incomplete_mosaic
     = (Some (ValueError "Mosaic is 2x2 tiles, but there are 3 files!"),
        incomplete_mosaic).
Proof.
  apply (proj1 (process_data_frame_mosaic_check incomplete_mosaic)).
  vm_compute. discriminate.
Defined.
End MosaicCheck.

(** ** Blending of two overlapping regions *)

Section Blending.
Import Np FuseRunner.
Local Open Scope R_scope.

Lemma nth_map_seq (A : Type) (f : nat -> A) :
  forall n i d, (i < n)%nat -> nth i (map f (seq 0 n)) d = f i.
Proof.
  intros n i d Hi.
  rewrite (nth_indep _ d (f 0%nat)) by (rewrite length_map, length_seq; exact Hi).
  rewrite map_nth, seq_nth by exact Hi. reflexivity.
Qed.

Lemma length_ramp : forall n, length (ramp n) = n.
Proof.
  intros n. unfold ramp, linspace. rewrite !length_map, length_seq. reflexivity.
Qed.



Lemma alpha_single : alpha 1 0 = 1.
Proof.
  unfold alpha, ramp, linspace. simpl.
  rewrite Rmult_0_l, Rplus_0_l, cos_0. lra.
Qed.


(** Every weight lies between 0 and 1. *)
Lemma alpha_bounds : forall n i, 0 <= alpha n i <= 1.
Proof.
  intros n i. unfold alpha.
  destruct (Nat.lt_ge_cases i (length (ramp n))) as [Hi|Hi].
  - unfold ramp in *.
    rewrite (nth_indep _ 0 ((cos 0 + 1) / 2)) by exact Hi.
    rewrite (map_nth (fun r => (cos r + 1) / 2)).
    match goal with |- context [cos ?x] => pose proof (COS_bound x) end.
    lra.
  - rewrite nth_overflow by exact Hi. lra.
Qed.




Lemma length_tile (A : Type) :
  forall (a : list A) reps, length (tile a reps) = (reps * length a)%nat.
Proof.
  intros a reps. unfold tile. induction reps as [|reps IH]; simpl; [reflexivity|].
  rewrite length_app, IH. reflexivity.
Qed.

Lemma chunks_tile (A : Type) :
  forall (a : list A) reps, chunks (length a) reps (tile a reps) = repeat a reps.
Proof.
  intros a reps. unfold tile. induction reps as [|reps IH]; simpl; [reflexivity|].
  rewrite firstn_app, Nat.sub_diag, firstn_all, firstn_O, app_nil_r.
  rewrite skipn_app, Nat.sub_diag, skipn_all, skipn_O. simpl.
  rewrite IH. reflexivity.
Qed.

Lemma nth_repeat_lt (A : Type) :
  forall (x d : A) n i, (i < n)%nat -> nth i (repeat x n) d = x.
Proof.
  induction n as [|n IH]; intros i Hi; [lia|].
  destruct i; simpl; [reflexivity | apply IH; lia].
Qed.

(** [tile], [reshape] and [transpose] give every row of the region its
    own weight, the same in all columns. *)
Lemma alpha_matrix_spec :
  forall output_height output_width,
  exists m,
    alpha_matrix output_height output_width = inr m
    /\ forall h w,
        (h < output_height)%nat -> (w < output_width)%nat ->
        nth w (nth h m []) 0 = alpha output_height h.
Proof.
  intros H W. unfold alpha_matrix, reshape2.
  rewrite length_tile, length_ramp, Nat.eqb_refl.
  pose proof (chunks_tile R (ramp H) W) as Hc. rewrite length_ramp in Hc.
  rewrite Hc.
  eexists. split; [reflexivity|].
  intros h w Hh Hw.
  unfold transpose. rewrite nth_map_seq by exact Hh.
  rewrite map_repeat, nth_repeat_lt by exact Hw. reflexivity.
Qed.

Lemma shape_eqb_eq : forall s1 s2, shape_eqb s1 s2 = true <-> s1 = s2.
Proof.
  intros s1 s2. unfold shape_eqb.
  destruct (list_eq_dec Nat.eq_dec s1 s2); split; congruence.
Qed.

(** What [_fuse] does on regions of equal shapes. *)
Lemma fuse_equal_shapes :
  forall a_roi b_roi dest,
    shape a_roi = shape b_roi -> shape a_roi = shape dest ->
    exists dest',
      _fuse a_roi b_roi dest = (None, dest')
      /\ shape dest' = shape dest
      /\ forall f h w,
          (h < height dest)%nat -> (w < width dest)%nat ->
          item dest' f h w
          = item a_roi f h w * alpha (height dest) h
            + item b_roi f h w * (1 - alpha (height dest) h).
Proof.
  intros a b d Hab Had. unfold _fuse.
  rewrite (proj2 (shape_eqb_eq _ _) Hab), (proj2 (shape_eqb_eq _ _) Had). simpl.
  destruct (alpha_matrix_spec (height a) (width a)) as (m & Hm & Hnth).
  rewrite Hm. eexists. split; [reflexivity|]. split; [reflexivity|].
  intros f h w Hh Hw. simpl.
  unfold shape in Had. injection Had as _ Hh' Hw'.
  rewrite Hnth by lia. rewrite Hh'. reflexivity.
Qed.

Lemma fuse_unequal_shapes :
  forall a_roi b_roi dest,
    ~ (shape a_roi = shape b_roi /\ shape a_roi = shape dest) ->
    _fuse a_roi b_roi dest = (Some (ValueError "ROI shapes must be equal"), dest).
Proof.
  intros a b d H. unfold _fuse.
  destruct (shape_eqb (shape a) (shape b)) eqn:E1;
    destruct (shape_eqb (shape a) (shape d)) eqn:E2; simpl; try reflexivity.
  apply shape_eqb_eq in E1, E2. tauto.
Qed.



(** C9. [_fuse] raises its shape error exactly when the shapes of the
    two regions and of the destination are not all equal, it raises
    nothing else, and when it raises the destination is left as it was. *)
Theorem fuse_shape_mismatch :
  forall a_roi b_roi dest : ndarray,
    (fst (_fuse a_roi b_roi dest) = Some (ValueError "ROI shapes must be equal")
     <-> ~ (shape a_roi = shape b_roi /\ shape a_roi = shape dest))
    /\ (fst (_fuse a_roi b_roi dest) = None
        <-> shape a_roi = shape b_roi /\ shape a_roi = shape dest)
    /\ (fst (_fuse a_roi b_roi dest) <> None -> snd (_fuse a_roi b_roi dest) = dest).
Proof.
  intros a b d.
  destruct (list_eq_dec Nat.eq_dec (shape a) (shape b)) as [Hab|Hab];
    [destruct (list_eq_dec Nat.eq_dec (shape a) (shape d)) as [Had|Had]|].
  - destruct (fuse_equal_shapes a b d Hab Had) as (d' & Hf & _).
    rewrite Hf. simpl. repeat split; try tauto; try discriminate.
  - rewrite fuse_unequal_shapes by tauto. simpl.
    repeat split; try tauto; try discriminate.
  - rewrite fuse_unequal_shapes by tauto. simpl.
    repeat split; try tauto; try discriminate.
Qed.


End Blending.

(** ** The champion of the optimiser ensemble *)

Section Champion.
Import Np Pg GlobalOptimization.

Variable fitness : array1 -> Q.
Variable x0 : array1.

Local Abbreviation not_worse := (not_worse fitness x0).
Local Abbreviation champion_not_worse := (champion_not_worse fitness x0).

Lemma Qlt_bool_true : forall a b, Qlt_bool a b = true -> (a < b)%Q.
Proof.
  intros a b H. unfold Qlt_bool in H. apply negb_true_iff in H.
  apply Qnot_le_lt. intros Hle. apply Qle_bool_iff in Hle. congruence.
Qed.

Lemma Qlt_bool_false : forall a b, Qlt_bool a b = false -> (b <= a)%Q.
Proof.
  intros a b H. unfold Qlt_bool in H. apply negb_false_iff in H.
  apply Qle_bool_iff. exact H.
Qed.

Lemma push_back_x0 :
  champion_not_worse (push_back fitness empty_population x0).
Proof.
  exists (x0, fitness x0). split; [reflexivity|].
  split; simpl; [reflexivity | apply Qle_refl].
Qed.

Lemma set_x_not_worse :
  forall pop i x, champion_not_worse pop -> champion_not_worse (set_x fitness pop i x).
Proof.
  intros pop i x ([c cf] & Hc & Hf & Hle). unfold champion_not_worse, set_x.
  simpl. rewrite Hc. simpl.
  destruct (Qlt_bool (fitness x) cf) eqn:E.
  - exists (x, fitness x). split; [reflexivity|]. split; [reflexivity|].
    simpl in *. apply Qlt_bool_true in E.
    apply Qle_trans with cf; [apply Qlt_le_weak; exact E | exact Hle].
  - exists (c, cf). split; [reflexivity|]. split; assumption.
Qed.

Lemma evolve_not_worse :
  forall run pop, champion_not_worse pop -> champion_not_worse (evolve fitness pop run).
Proof.
  unfold evolve. induction run as [|[i x] run IH]; intros pop H; simpl.
  - exact H.
  - apply IH, set_x_not_worse, H.
Qed.

Lemma evolutions_not_worse :
  forall runs pop,
    champion_not_worse pop ->
    champion_not_worse (fold_left (evolve fitness) runs pop).
Proof.
  induction runs as [|run runs IH]; intros pop H; simpl.
  - exact H.
  - apply IH, evolve_not_worse, H.
Qed.

Lemma archipelago_evolve_not_worse :
  forall archi n runs,
    Forall champion_not_worse archi ->
    Forall champion_not_worse (archipelago_evolve fitness archi n runs)
    /\ length (archipelago_evolve fitness archi n runs) = length archi.
Proof.
  intros archi n runs H. unfold archipelago_evolve. split.
  - apply Forall_forall. intros pop Hin.
    apply in_map_iff in Hin as ([k pop'] & <- & Hin).
    apply in_combine_r in Hin. rewrite Forall_forall in H.
    apply evolutions_not_worse, H, Hin.
  - rewrite length_map, length_combine, length_seq. apply Nat.min_id.
Qed.

Lemma get_champions_not_worse :
  forall archi,
    Forall champion_not_worse archi ->
    exists cs,
      get_champions archi = inr cs
      /\ Forall not_worse cs /\ length cs = length archi.
Proof.
  induction 1 as [|pop archi (c & Hc & Hn) _ (cs & Hcs & Hall & Hlen)]; simpl.
  - exists []. repeat split. constructor.
  - rewrite Hc, Hcs. exists (c :: cs). repeat split.
    + constructor; assumption.
    + simpl. congruence.
Qed.

(** The loop keeps a sound pair, and one that no pair it has seen
    beats. *)
Lemma select_loop :
  forall (cs : list (array1 * Q)) (best : array1 * Q),
    not_worse best -> Forall not_worse cs ->
    let r := fold_left (fun '(champion, current_min) '(x, f) =>
                          if Qlt_bool f current_min then (x, f)
                          else (champion, current_min)) cs best in
    not_worse r /\ (snd r <= snd best)%Q
    /\ Forall (fun c => (snd r <= snd c)%Q) cs.
Proof.
  induction cs as [|[x f] cs IH]; intros [b bf] Hb Hcs; simpl.
  - split; [exact Hb|]. split; [apply Qle_refl | constructor].
  - inversion Hcs as [|? ? Hx Hcs']; subst.
    destruct (Qlt_bool f bf) eqn:E.
    + destruct (IH (x, f) Hx Hcs') as (Hr & Hle & Hall).
      split; [exact Hr|]. simpl in *. split.
      * apply Qle_trans with f; [exact Hle|].
        apply Qlt_le_weak, Qlt_bool_true, E.
      * constructor; assumption.
    + destruct (IH (b, bf) Hb Hcs') as (Hr & Hle & Hall).
      split; [exact Hr|]. simpl in *. split; [exact Hle|].
      constructor; [|exact Hall].
      simpl. apply Qle_trans with bf; [exact Hle|].
      apply Qlt_bool_false, E.
Qed.
Lemma combine_fst_snd (A B : Type) :
  forall l : list (A * B), combine (map fst l) (map snd l) = l.
Proof. induction l as [|[a b] l IH]; simpl; [reflexivity | f_equal; exact IH]. Qed.

Lemma select_champion_spec :
  forall cs,
    cs <> [] -> Forall not_worse cs ->
    exists ch cm,
      select_champion (map fst cs) (map snd cs) = inr (ch, cm)
      /\ not_worse (ch, cm)
      /\ Forall (fun c => (cm <= snd c)%Q) cs.
Proof.
  intros [|[c cf] cs] Hne Hnw; [congruence|].
  inversion Hnw as [|? ? Hc Hcs]; subst.
  pose proof (select_loop ((c, cf) :: cs) (c, cf) Hc Hnw) as H.
  cbv zeta in H.
  unfold select_champion. cbn [map fst snd].
  change (combine (c :: map fst cs) (cf :: map snd cs))
    with (combine (map fst ((c, cf) :: cs)) (map snd ((c, cf) :: cs))).
  rewrite combine_fst_snd.
  destruct (fold_left _ ((c, cf) :: cs) (c, cf)) as [ch cm].
  destruct H as (Hr & _ & Hmin).
  exists ch, cm. split; [reflexivity|]. split; assumption.
Qed.
End Champion.

(** C7. The champion of the optimiser ensemble is never worse than the
    initial decision vector: whatever the objective [fitness], the initial
    vector [x0] derived from the spanning tree, and whatever the eight
    random searches do in their four evolutions, the optimisation selects a
    champion together with its fitness, this fitness is at most the fitness
    of [x0], and no island holds a better champion. *)
Theorem champion_fitness_not_worse :
  forall (fitness : Np.array1 -> Q) (x0 : Np.array1)
         (runs : nat -> nat -> Pg.evolution Np.array1),
  exists champion current_min,
    GlobalOptimization.global_optimization_champion fitness x0 runs
    = inr (champion, current_min)
    /\ current_min = fitness champion
    /\ (fitness champion <= fitness x0)%Q
    /\ exists champions,
        Pg.get_champions
          (Pg.archipelago_evolve fitness
             (repeat (Pg.push_back fitness Pg.empty_population x0) 8) 4 runs)
        = inr champions
        /\ length champions = 8%nat
        /\ Forall (fun c => (fitness champion <= snd c)%Q) champions.
Proof.
  intros fitness x0 runs.
  unfold GlobalOptimization.global_optimization_champion.
  set (pop := Pg.push_back fitness Pg.empty_population x0).
  assert (Hpop : Forall (champion_not_worse fitness x0) (repeat pop 8)).
  { apply Forall_forall. intros p Hp. apply repeat_spec in Hp. subst p.
    apply push_back_x0. }
  destruct (archipelago_evolve_not_worse fitness x0 (repeat pop 8) 4 runs Hpop)
    as (Hall & Hlen).
  destruct (get_champions_not_worse fitness x0 _ Hall) as (cs & Hcs & Hnw & Hlen').
  rewrite Hcs. rewrite Hlen, repeat_length in Hlen'.
  destruct (select_champion_spec fitness x0 cs) as (ch & cm & Hsel & (Hf & Hle) & Hmin).
  { intros ->. discriminate. }
  { exact Hnw. }
  rewrite Hsel. simpl in Hf, Hle. subst cm.
  exists ch, (fitness ch).
  split; [reflexivity|]. split; [reflexivity|]. split; [exact Hle|].
  exists cs. split; [reflexivity|]. split; [exact Hlen'|]. exact Hmin.
Qed.

(** ** Graphs *)

Section GraphFacts.
Import Nx.
Variable D : Type.
Implicit Types G : Graph D.

Lemma mem_In : forall u l, mem u l = true <-> In u l.
Proof.
  intros u l. unfold mem. rewrite existsb_exists. split.
  - intros (x & Hx & E). apply String.eqb_eq in E. subst. exact Hx.
  - intros H. exists u. split; [exact H | apply String.eqb_refl].
Qed.

Lemma mem_false : forall u l, mem u l = false <-> ~ In u l.
Proof.
  intros u l. rewrite <- mem_In. destruct (mem u l); split; congruence.
Qed.

Lemma get_item_set_item_eq (V : Type) :
  forall k (v : V) d, get_item k (set_item k v d) = Some v.
Proof.
  induction d as [|[k' v'] d IH]; simpl.
  - rewrite String.eqb_refl. reflexivity.
  - destruct (String.eqb k k') eqn:E; simpl.
    + rewrite String.eqb_refl. reflexivity.
    + rewrite E. exact IH.
Qed.

Lemma get_item_set_item_neq (V : Type) :
  forall k k' (v : V) d, k' <> k -> get_item k' (set_item k v d) = get_item k' d.
Proof.
  intros k k' v d Hne. induction d as [|[k2 v2] d IH]; simpl.
  - apply String.eqb_neq in Hne. rewrite Hne. reflexivity.
  - destruct (String.eqb_spec k k2) as [->|Hk]; simpl.
    + apply String.eqb_neq in Hne. rewrite Hne. reflexivity.
    + rewrite IH. reflexivity.
Qed.

Lemma keys_set_item (V : Type) :
  forall k (v : V) d x,
    In x (map fst (set_item k v d)) <-> x = k \/ In x (map fst d).
Proof.
  induction d as [|[k' v'] d IH]; intros x; simpl.
  - intuition congruence.
  - destruct (String.eqb_spec k k') as [->|Hk]; simpl.
    + intuition congruence.
    + rewrite IH. intuition congruence.
Qed.

Lemma keys_set_item_present (V : Type) :
  forall k (v : V) d, In k (map fst d) -> map fst (set_item k v d) = map fst d.
Proof.
  induction d as [|[k' v'] d IH]; intros Hin; simpl in *; [contradiction|].
  destruct (String.eqb_spec k k') as [->|Hk]; simpl; [reflexivity|].
  f_equal. apply IH. destruct Hin; congruence.
Qed.

Lemma get_item_Some_In (V : Type) :
  forall k (d : list (node * V)) v, get_item k d = Some v -> In (k, v) d.
Proof.
  induction d as [|[k' v'] d IH]; intros v H; simpl in *; [discriminate|].
  destruct (String.eqb_spec k k') as [->|Hk].
  - injection H as ->. left. reflexivity.
  - right. apply IH. exact H.
Qed.


Lemma get_item_app (V : Type) :
  forall k (d1 d2 : list (node * V)),
    get_item k (d1 ++ d2)
    = match get_item k d1 with Some v => Some v | None => get_item k d2 end.
Proof.
  induction d1 as [|[k' v'] d1 IH]; intros d2; simpl; [reflexivity|].
  destruct (String.eqb k k'); [reflexivity | apply IH].
Qed.

Lemma neighbors_set_item :
  forall G k nbrs w,
    neighbors (set_item k nbrs G) w
    = if String.eqb w k then nbrs else neighbors G w.
Proof.
  intros G k nbrs w. unfold neighbors.
  destruct (String.eqb_spec w k) as [->|Hne].
  - rewrite get_item_set_item_eq. reflexivity.
  - rewrite get_item_set_item_neq by exact Hne. reflexivity.
Qed.

Lemma neighbors_add_node :
  forall G u w, neighbors (add_node G u) w = neighbors G w.
Proof.
  intros G u w. unfold add_node. destruct (mem u (nodes G)); [reflexivity|].
  unfold neighbors. rewrite get_item_app.
  destruct (get_item w G); [reflexivity|]. simpl.
  destruct (String.eqb w u); reflexivity.
Qed.

Lemma nodes_add_node :
  forall G u x, In x (nodes (add_node G u)) <-> x = u \/ In x (nodes G).
Proof.
  intros G u x. unfold add_node, nodes.
  destruct (mem u (map fst G)) eqn:E.
  - apply mem_In in E. intuition congruence.
  - rewrite map_app, in_app_iff. simpl. intuition congruence.
Qed.

Lemma NoDup_add_node :
  forall G u, NoDup (nodes G) -> NoDup (nodes (add_node G u)).
Proof.
  intros G u H. unfold add_node, nodes in *.
  destruct (mem u (map fst G)) eqn:E; [exact H|].
  apply mem_false in E. rewrite map_app. simpl.
  apply NoDup_app; [exact H | constructor; [simpl; tauto | constructor] |].
  intros a Ha [<-|[]]. contradiction.
Qed.

Lemma nodes_add_edge :
  forall G u v d, nodes (add_edge G u v d) = nodes (add_node (add_node G u) v).
Proof.
  intros G u v d. unfold add_edge, nodes.
  rewrite !keys_set_item_present; [reflexivity | |].
  - apply nodes_add_node. right. apply nodes_add_node. left. reflexivity.
  - rewrite keys_set_item_present.
    + apply nodes_add_node. left. reflexivity.
    + apply nodes_add_node. right. apply nodes_add_node. left. reflexivity.
Qed.

Lemma in_nodes_add_edge :
  forall G u v d x,
    In x (nodes (add_edge G u v d)) <-> x = u \/ x = v \/ In x (nodes G).
Proof.
  intros. rewrite nodes_add_edge, !nodes_add_node. tauto.
Qed.

Lemma neighbors_add_edge :
  forall G u v d w,
    neighbors (add_edge G u v d) w
    = if String.eqb w v
      then set_item u d (if String.eqb v u then set_item v d (neighbors G u)
                         else neighbors G v)
      else if String.eqb w u then set_item v d (neighbors G u)
           else neighbors G w.
Proof.
  intros G u v d w. unfold add_edge.
  rewrite !neighbors_set_item, !neighbors_add_node. reflexivity.
Qed.

Lemma adjacent_add_edge :
  forall G u v d a b,
    adjacent (add_edge G u v d) a b
    <-> adjacent G a b \/ (a = u /\ b = v) \/ (a = v /\ b = u).
Proof.
  intros G u v d a b. unfold adjacent. rewrite neighbors_add_edge.
  destruct (String.eqb_spec a v) as [->|Hav].
  - rewrite keys_set_item.
    destruct (String.eqb_spec v u) as [->|Hvu].
    + rewrite keys_set_item. intuition congruence.
    + intuition congruence.
  - destruct (String.eqb_spec a u) as [->|Hau].
    + rewrite keys_set_item. intuition congruence.
    + intuition congruence.
Qed.

Lemma adjacent_add_node :
  forall G u a b, adjacent (add_node G u) a b <-> adjacent G a b.
Proof. intros. unfold adjacent. rewrite neighbors_add_node. tauto. Qed.

Lemma adjacent_in_nodes : forall G a b, adjacent G a b -> In a (nodes G).
Proof.
  intros G a b H. unfold adjacent, neighbors in H.
  destruct (get_item a G) as [nbrs|] eqn:E; [|contradiction].
  apply get_item_Some_In in E. unfold nodes.
  apply in_map_iff. exists (a, nbrs). split; [reflexivity | exact E].
Qed.

Lemma wf_add_node : forall G u, wf_graph G -> wf_graph (add_node G u).
Proof.
  intros G u [Hn Hs]. split; [apply NoDup_add_node; exact Hn|].
  intros a b. rewrite !adjacent_add_node. apply Hs.
Qed.

Lemma wf_add_edge : forall G u v d, wf_graph G -> wf_graph (add_edge G u v d).
Proof.
  intros G u v d [Hn Hs]. split.
  - rewrite nodes_add_edge. apply NoDup_add_node, NoDup_add_node, Hn.
  - intros a b. rewrite !adjacent_add_edge.
    intros [H|[H|H]]; [left; apply Hs, H | tauto | tauto].
Qed.

Lemma wf_empty : wf_graph (@empty D).
Proof. split; [constructor | intros a b []]. Qed.

Lemma wf_add_nodes_from :
  forall us G, wf_graph G -> wf_graph (add_nodes_from G us).
Proof.
  unfold add_nodes_from. induction us as [|u us IH]; intros G H; simpl.
  - exact H.
  - apply IH, wf_add_node, H.
Qed.

Lemma nodes_add_nodes_from :
  forall us G x, In x (nodes (add_nodes_from G us)) <-> In x us \/ In x (nodes G).
Proof.
  unfold add_nodes_from. induction us as [|u us IH]; intros G x; simpl.
  - tauto.
  - rewrite IH, nodes_add_node. intuition congruence.
Qed.

Lemma adjacent_add_nodes_from :
  forall us G a b, adjacent (add_nodes_from G us) a b <-> adjacent G a b.
Proof.
  unfold add_nodes_from. induction us as [|u us IH]; intros G a b; simpl.
  - tauto.
  - rewrite IH. apply adjacent_add_node.
Qed.

Lemma wf_add_edges_from :
  forall es G, wf_graph G -> wf_graph (add_edges_from G es).
Proof.
  unfold add_edges_from. induction es as [|[[u v] d] es IH]; intros G H; simpl.
  - exact H.
  - apply IH, wf_add_edge, H.
Qed.

Lemma adjacent_add_edges_from :
  forall es G a b,
    adjacent (add_edges_from G es) a b
    <-> adjacent G a b
        \/ exists d, In (a, b, d) es \/ In (b, a, d) es.
Proof.
  unfold add_edges_from. induction es as [|[[u v] d] es IH]; intros G a b; simpl.
  - split; [tauto | intros [H|(d & [[]|[]])]; exact H].
  - rewrite IH, adjacent_add_edge. split.
    + intros [[H|[[-> ->]|[-> ->]]]|(d' & [H|H])]; eauto 6.
    + intros [H|(d' & [[H|H]|[H|H]])]; eauto 6.
      * injection H as -> -> ->. tauto.
      * injection H as -> -> ->. tauto.
Qed.

Lemma nodes_add_edges_from :
  forall es G x,
    In x (nodes (add_edges_from G es))
    <-> In x (nodes G) \/ exists u v d, In (u, v, d) es /\ (x = u \/ x = v).
Proof.
  unfold add_edges_from. induction es as [|[[u v] d] es IH]; intros G x; simpl.
  - split; [tauto | intros [H|(u & v & d & [] & _)]; exact H].
  - rewrite IH, in_nodes_add_edge. split.
    + intros [[->|[->|H]]|(u' & v' & d' & H & Hx)]; eauto 10.
    + intros [H|(u' & v' & d' & [H|H] & Hx)]; eauto 10.
      injection H as -> -> ->. tauto.
Qed.
End GraphFacts.

Section Components.
Import Nx.
Variable D : Type.
Variable G : Graph D.
Hypothesis Hwf : wf_graph G.

Lemma in_set_update :
  forall l s x, In x (set_update s l) <-> In x s \/ In x l.
Proof.
  unfold set_update. induction l as [|v l IH]; intros s x; simpl; [tauto|].
  rewrite IH. destruct (mem v s) eqn:E.
  - apply mem_In in E. intuition congruence.
  - rewrite in_app_iff. simpl. intuition congruence.
Qed.

Lemma adjacent_target_in_nodes :
  forall a b, adjacent G a b -> In b (nodes G).
Proof.
  intros a b H. destruct Hwf as [_ Hs].
  apply adjacent_in_nodes with (b := a), Hs, H.
Qed.

Lemma bfs_level_spec :
  forall this seen next seen' next',
    bfs_level G this seen next = (seen', next') ->
    (forall x, In x seen' <-> In x seen \/ In x this)
    /\ (forall x, In x next -> In x next')
    /\ (forall x, In x next' -> In x next \/ exists a, In a this /\ adjacent G a x)
    /\ (forall a b, In a seen' -> ~ In a seen -> adjacent G a b -> In b next')
    /\ (NoDup seen -> NoDup seen')
    /\ length seen <= length seen'
    /\ (length seen' = length seen -> next' = next).
Proof.
  induction this as [|v rest IH]; intros seen next seen' next' H; simpl in H.
  - injection H as <- <-.
    split; [intros x; simpl; tauto|]. split; [auto|]. split; [auto|].
    split; [intros a b Ha Hn; contradiction|]. split; [auto|].
    split; [lia | reflexivity].
  - destruct (mem v seen) eqn:E.
    + apply mem_In in E.
      destruct (IH _ _ _ _ H) as (Ha & Hb & Hc & Hd & He & Hf & Hg).
      split; [|split; [|split; [|split; [|split; [|split]]]]]; auto.
      * intros x. rewrite Ha. simpl. intuition congruence.
      * intros x Hx. destruct (Hc x Hx) as [?|(a & Hin & Hadj)]; [tauto|].
        right. exists a. simpl. tauto.
    + apply mem_false in E.
      destruct (IH _ _ _ _ H) as (Ha & Hb & Hc & Hd & He & Hf & Hg).
      rewrite length_app in Hf. simpl in Hf.
      split; [|split; [|split; [|split; [|split; [|split]]]]].
      * intros x. rewrite Ha, in_app_iff. simpl. intuition congruence.
      * intros x Hx. apply Hb, in_set_update. left. exact Hx.
      * intros x Hx. destruct (Hc x Hx) as [Hin|(a & Hin & Hadj)].
        -- apply in_set_update in Hin as [Hin|Hin]; [tauto|].
           right. exists v. simpl. split; [tauto | exact Hin].
        -- right. exists a. simpl. tauto.
      * intros a b Hin Hn Hadj.
        destruct (string_dec a v) as [->|Hav].
        -- apply Hb, in_set_update. right. exact Hadj.
        -- apply (Hd a b Hin); [|exact Hadj].
           rewrite in_app_iff. simpl. intuition congruence.
      * intros Hnd. apply He. apply NoDup_app; [exact Hnd | |].
        -- constructor; [simpl; tauto | constructor].
        -- intros a Ha' [<-|[]]. contradiction.
      * lia.
      * intros Hl. lia.
Qed.

(** The search from a level: with enough fuel it returns, and what it
    returns is closed and holds nothing that a property of the nodes it
    starts from, carried along the edges, excludes. *)
Lemma bfs_loop_spec :
  forall fuel seen next,
    NoDup seen -> incl seen (nodes G) -> incl next (nodes G) ->
    (forall a b, In a seen -> adjacent G a b -> In b seen \/ In b next) ->
    next = [] \/ length (nodes G) - length seen < fuel ->
    exists c,
      bfs_loop fuel G seen next = Some c
      /\ NoDup c
      /\ closed G c
      /\ (forall x, In x seen \/ In x next -> In x c)
      /\ forall P : node -> Prop,
          (forall a b, P a -> adjacent G a b -> P b) ->
          (forall x, In x seen \/ In x next -> P x) ->
          forall x, In x c -> P x.
Proof.
  induction fuel as [|fuel IH]; intros seen next Hnd Hseen Hnext Hinv Hfuel.
  - destruct next as [|v next].
    + exists seen. simpl. split; [reflexivity|]. split; [exact Hnd|].
      split; [|split].
      * intros a b Ha Hab. destruct (Hinv a b Ha Hab) as [?|[]]. assumption.
      * intros x [?|[]]. assumption.
      * intros P _ HP x Hx. apply HP. left. exact Hx.
    + destruct Hfuel as [?|?]; [discriminate | lia].
  - destruct next as [|v next].
    + exists seen. simpl. split; [reflexivity|]. split; [exact Hnd|].
      split; [|split].
      * intros a b Ha Hab. destruct (Hinv a b Ha Hab) as [?|[]]. assumption.
      * intros x [?|[]]. assumption.
      * intros P _ HP x Hx. apply HP. left. exact Hx.
    + cbn [bfs_loop].
      destruct (bfs_level G (v :: next) seen []) as [seen' next'] eqn:E.
      destruct (bfs_level_spec _ _ _ _ _ E) as (Ha & Hb & Hc & Hd & He & Hf & Hg).
      assert (Hseen' : incl seen' (nodes G)).
      { intros x Hx. apply Ha in Hx as [Hx|Hx]; auto. }
      assert (Hnd' : NoDup seen') by auto.
      destruct (IH seen' next') as (c & Hrun & Hc1 & Hc2 & Hc3 & Hc4).
      * exact Hnd'.
      * exact Hseen'.
      * intros x Hx. apply Hc in Hx as [[]|(a & _ & Hadj)].
        eapply adjacent_target_in_nodes. exact Hadj.
      * intros a b Hin Hadj.
        destruct (in_dec string_dec a seen) as [Hold|Hnew].
        -- left. apply Ha. destruct (Hinv a b Hold Hadj); tauto.
        -- right. apply (Hd a b Hin Hnew Hadj).
      * destruct (Nat.eq_dec (length seen') (length seen)) as [Heq|Hne].
        -- left. apply Hg. exact Heq.
        -- right. pose proof (NoDup_incl_length Hnd' Hseen'). destruct Hfuel; [discriminate | lia].
      * exists c. split; [exact Hrun|]. split; [exact Hc1|]. split; [exact Hc2|].
        split.
        -- intros x Hx. apply Hc3. left. apply Ha. exact Hx.
        -- intros P Hstep HP x Hx. apply (Hc4 P Hstep); [|exact Hx].
           intros y [Hy|Hy].
           ++ apply HP. apply Ha. exact Hy.
           ++ apply Hc in Hy as [[]|(a & Hin & Hadj)].
              apply (Hstep a y); [|exact Hadj]. apply HP. right. exact Hin.
Qed.

Lemma plain_bfs_spec :
  forall u,
    In u (nodes G) ->
    exists c, _plain_bfs G u = Some c /\ component_of G u c.
Proof.
  intros u Hu. unfold _plain_bfs.
  destruct (bfs_loop_spec (S (length G)) [] [u]) as (c & Hrun & H1 & H2 & H3 & H4).
  - constructor.
  - intros x [].
  - intros x [<-|[]]. exact Hu.
  - intros a b [].
  - right. unfold nodes. rewrite length_map. simpl. lia.
  - exists c. split; [exact Hrun|]. split; [|split; [|split]]; auto.
    + apply H3. right. left. reflexivity.
    + intros P Hstep HP. apply (H4 P Hstep). intros x [[]|[<-|[]]]. exact HP.
Qed.

Lemma component_in_nodes :
  forall u c, In u (nodes G) -> component_of G u c -> incl c (nodes G).
Proof.
  intros u c Hu (_ & _ & _ & Hmin) x Hx.
  apply (Hmin (fun y => In y (nodes G))); auto.
  intros a b _ Hab. eapply adjacent_target_in_nodes. exact Hab.
Qed.

Lemma component_avoids_closed :
  forall u c s,
    component_of G u c -> closed G s -> ~ In u s ->
    forall x, In x c -> ~ In x s.
Proof.
  intros u c s (_ & _ & _ & Hmin) Hs Hu.
  apply (Hmin (fun y => ~ In y s)); [|exact Hu].
  intros a b Ha Hab Hb. apply Ha. destruct Hwf as [_ Hsym].
  apply (Hs b a Hb). apply Hsym. exact Hab.
Qed.

Lemma closed_app :
  forall s1 s2, closed G s1 -> closed G s2 -> closed G (s1 ++ s2).
Proof.
  intros s1 s2 H1 H2 a b Ha Hab. apply in_app_iff.
  apply in_app_iff in Ha as [Ha|Ha]; [left; eapply H1 | right; eapply H2]; eauto.
Qed.

Lemma components_from_spec :
  forall vs seen,
    incl vs (nodes G) -> closed G seen ->
    exists comps,
      components_from G vs seen = Some comps
      /\ NoDup (concat comps)
      /\ (forall x, In x (concat comps) -> ~ In x seen /\ In x (nodes G))
      /\ (forall x, In x vs -> In x seen \/ In x (concat comps))
      /\ Forall (fun c => exists u, In u (nodes G) /\ component_of G u c) comps.
Proof.
  induction vs as [|v vs IH]; intros seen Hvs Hseen; simpl.
  - exists []. split; [reflexivity|]. split; [constructor|].
    split; [intros x []|]. split; [intros x []|constructor].
  - assert (Hv : In v (nodes G)) by (apply Hvs; left; reflexivity).
    assert (Hvs' : incl vs (nodes G)) by (intros x Hx; apply Hvs; right; exact Hx).
    destruct (mem v seen) eqn:E.
    + apply mem_In in E.
      destruct (IH seen Hvs' Hseen) as (comps & Hrun & H1 & H2 & H3 & H4).
      exists comps. split; [exact Hrun|]. split; [exact H1|].
      split; [exact H2|]. split; [|exact H4].
      intros x [<-|Hx]; [left; exact E | apply H3; exact Hx].
    + apply mem_false in E.
      destruct (plain_bfs_spec v Hv) as (c & Hbfs & Hcomp).
      rewrite Hbfs.
      pose proof Hcomp as (Hin & Hnd & Hcl & _).
      destruct (IH (seen ++ c) Hvs' (closed_app _ _ Hseen Hcl))
        as (comps & Hrun & H1 & H2 & H3 & H4).
      rewrite Hrun. exists (c :: comps). split; [reflexivity|]. simpl.
      split; [|split; [|split]].
      * apply NoDup_app; [exact Hnd | exact H1 |].
        intros x Hx Hx'. apply H2 in Hx' as [Hx' _].
        apply Hx', in_app_iff. right. exact Hx.
      * intros x Hx. apply in_app_iff in Hx as [Hx|Hx].
        -- split.
           ++ apply (component_avoids_closed _ _ _ Hcomp Hseen E). exact Hx.
           ++ apply (component_in_nodes _ _ Hv Hcomp). exact Hx.
        -- apply H2 in Hx as [Hx Hn]. split; [|exact Hn].
           intros Hs. apply Hx, in_app_iff. left. exact Hs.
      * intros x [<-|Hx].
        -- right. apply in_app_iff. left. exact Hin.
        -- destruct (H3 x Hx) as [Hs|Hs].
           ++ apply in_app_iff in Hs as [Hs|Hs]; [left; exact Hs|].
              right. apply in_app_iff. left. exact Hs.
           ++ right. apply in_app_iff. right. exact Hs.
      * constructor; [|exact H4]. exists v. split; assumption.
Qed.

(** The connected components partition the nodes. *)
Lemma connected_components_spec :
  exists comps,
    connected_components G = Some comps
    /\ NoDup (concat comps)
    /\ (forall x, In x (concat comps) <-> In x (nodes G))
    /\ Forall (fun c => exists u, In u (nodes G) /\ component_of G u c) comps.
Proof.
  destruct (components_from_spec (nodes G) [])
    as (comps & Hrun & H1 & H2 & H3 & H4).
  - apply incl_refl.
  - intros a b [].
  - exists comps. split; [exact Hrun|]. split; [exact H1|]. split; [|exact H4].
    intros x. split.
    + intros Hx. apply H2. exact Hx.
    + intros Hx. destruct (H3 x Hx) as [[]|H]. exact H.
Qed.

End Components.

(** ** The slices *)

Section Slices.
Import Nx.

Lemma view_spec :
  forall df row t,
    In t (FileMatrix.view df row) <-> In t df /\ holds_range t row.
Proof.
  intros df row t. unfold FileMatrix.view, holds_range.
  rewrite filter_In, andb_true_iff, Z.leb_le, Z.geb_le. tauto.
Qed.

Lemma row_in_view : forall df row, In row df -> In row (FileMatrix.view df row).
Proof.
  intros df row H. apply view_spec. split; [exact H|]. unfold holds_range. lia.
Qed.

Lemma last_in (A : Type) : forall (l : list A) d, l <> [] -> In (last l d) l.
Proof.
  induction l as [|a l IH]; intros d Hne; [congruence|].
  destruct l as [|b l]; [left; reflexivity|].
  right. apply IH. discriminate.
Qed.

(** Every edge that [link_views] adds joins two tiles of the view of one
    row; no node is added. *)
Lemma link_views_spec :
  forall df rows G0,
    incl rows df ->
    wf_graph G0 ->
    (forall t, In t df -> In (FileMatrix.filename t) (nodes G0)) ->
    exists G,
      FileMatrix.link_views df rows G0 = inr G
      /\ wf_graph G
      /\ (forall x, In x (nodes G) <-> In x (nodes G0))
      /\ (forall a b,
             adjacent G a b ->
             adjacent G0 a b
             \/ exists row ta tb,
                 In row rows
                 /\ In ta (FileMatrix.view df row)
                 /\ In tb (FileMatrix.view df row)
                 /\ FileMatrix.filename ta = a /\ FileMatrix.filename tb = b).
Proof.
  intros df. induction rows as [|row rows IH]; intros G0 Hrows Hwf Hnames; simpl.
  - exists G0. split; [reflexivity|]. split; [exact Hwf|]. split; [tauto|]. tauto.
  - assert (Hrow : In row df) by (apply Hrows; left; reflexivity).
    set (values := map FileMatrix.filename (FileMatrix.view df row)).
    assert (Hval : forall a, In a values ->
              exists ta, In ta (FileMatrix.view df row) /\ FileMatrix.filename ta = a).
    { intros a Ha. apply in_map_iff in Ha as (ta & E & Hta). eauto. }
    assert (Hvn : forall a, In a values -> In a (nodes G0)).
    { intros a Ha. destruct (Hval a Ha) as (ta & Hta & <-).
      apply Hnames. apply view_spec in Hta. tauto. }
    destruct values as [|first rest] eqn:Ev.
    { exfalso. apply row_in_view in Hrow.
      apply (in_map FileMatrix.filename) in Hrow. fold values in Hrow.
      rewrite Ev in Hrow. exact Hrow. }
    set (pairs := map (fun '(a, b) => (a, b, tt)) (combine (first :: rest) (tl (first :: rest)))).
    assert (Hpairs : forall a b d, In (a, b, d) pairs ->
                                   In a (first :: rest) /\ In b (first :: rest)).
    { intros a b d H. unfold pairs in H.
      apply in_map_iff in H as ([a' b'] & E & H). injection E as -> -> _.
      split; [eapply in_combine_l; exact H|].
      apply in_combine_r in H. right. exact H. }
    assert (Hlast : In (last (first :: rest) first) (first :: rest))
      by (apply last_in; discriminate).
    set (G2 := add_edge (add_edges_from G0 pairs) first (last (first :: rest) first) tt).
    destruct (IH G2) as (G & Hrun & HwfG & HnG & HaG).
    + intros x Hx. apply Hrows. right. exact Hx.
    + apply wf_add_edge, wf_add_edges_from, Hwf.
    + intros t Ht. unfold G2. apply in_nodes_add_edge. right. right.
      apply nodes_add_edges_from. left. apply Hnames, Ht.
    + exists G. split; [exact Hrun|]. split; [exact HwfG|]. split.
      * intros x. rewrite HnG. unfold G2.
        rewrite in_nodes_add_edge, nodes_add_edges_from. split.
        -- intros [->|[->|[H|(u & v & d & H & [-> | ->])]]]; auto.
           ++ apply Hvn. left. reflexivity.
           ++ apply Hvn, (Hpairs _ _ _ H).
           ++ apply Hvn, (Hpairs _ _ _ H).
        -- tauto.
      * intros a b Hab. destruct (HaG a b Hab) as [H|(r & ta & tb & Hr & H)].
        -- unfold G2 in H. apply adjacent_add_edge in H.
           assert (Hboth : adjacent G0 a b
                           \/ (In a (first :: rest) /\ In b (first :: rest))).
           { destruct H as [H|[[-> ->]|[-> ->]]].
             - apply adjacent_add_edges_from in H as [H|(d & [H|H])].
               + left. exact H.
               + right. apply (Hpairs _ _ _ H).
               + right. apply and_comm, (Hpairs _ _ _ H).
             - right. split; [left; reflexivity | exact Hlast].
             - right. split; [exact Hlast | left; reflexivity]. }
           destruct Hboth as [?|[Ha Hb]]; [left; assumption|].
           right. destruct (Hval a Ha) as (ta & Hta & Ea).
           destruct (Hval b Hb) as (tb & Htb & Eb).
           exists row, ta, tb. simpl. tauto.
        -- right. exists r, ta, tb. simpl. tauto.
Qed.

Lemma slices_graph_spec :
  forall df,
    exists G,
      FileMatrix.slices_graph df = inr G
      /\ wf_graph G
      /\ (forall x, In x (nodes G) <-> In x (map FileMatrix.filename df))
      /\ (forall a b,
             adjacent G a b ->
             exists row ta tb,
               In row df
               /\ In ta df /\ holds_range ta row
               /\ In tb df /\ holds_range tb row
               /\ FileMatrix.filename ta = a /\ FileMatrix.filename tb = b).
Proof.
  intros df. unfold FileMatrix.slices_graph.
  set (G0 := add_nodes_from (@empty unit) (map FileMatrix.filename df)).
  assert (Hn0 : forall x, In x (nodes G0) <-> In x (map FileMatrix.filename df)).
  { intros x. unfold G0. rewrite nodes_add_nodes_from. simpl. tauto. }
  destruct (link_views_spec df df G0) as (G & Hrun & Hwf & Hn & Ha).
  - apply incl_refl.
  - apply wf_add_nodes_from, wf_empty.
  - intros t Ht. apply Hn0, in_map, Ht.
  - exists G. split; [exact Hrun|]. split; [exact Hwf|]. split.
    + intros x. rewrite Hn. apply Hn0.
    + intros a b Hab. destruct (Ha a b Hab) as [H|(row & ta & tb & Hr & Hta & Htb & E)].
      * unfold G0 in H. apply adjacent_add_nodes_from in H. destruct H.
      * apply view_spec in Hta, Htb. exists row, ta, tb. tauto.
Qed.

Lemma nodes_subgraph (D : Type) :
  forall (G : Graph D) c,
    nodes (subgraph G c) = filter (fun n => mem n c) (nodes G).
Proof.
  intros G c. unfold nodes, subgraph. rewrite map_map.
  induction G as [|[n nbrs] G IH]; simpl; [reflexivity|].
  destruct (mem n c); simpl; [f_equal|]; exact IH.
Qed.


Lemma NoDup_app_disjoint (A : Type) :
  forall l1 l2 : list A, NoDup (l1 ++ l2) -> forall a, In a l1 -> ~ In a l2.
Proof.
  induction l1 as [|b l1 IH]; intros l2 Hnd a Ha Ha2; [contradiction|].
  simpl in Hnd. inversion Hnd as [|? ? Hn Hnd']; subst.
  destruct Ha as [->|Ha].
  - apply Hn, in_app_iff. right. exact Ha2.
  - exact (IH l2 Hnd' a Ha Ha2).
Qed.


(** Partners that both have a frame share one. *)
Lemma z_partner_share_frame :
  forall v w,
    (FileMatrix.Z v < FileMatrix.Z_end v)%Z ->
    (FileMatrix.Z w < FileMatrix.Z_end w)%Z ->
    z_partner v w -> share_frame v w.
Proof.
  intros v w Hv Hw [[H1 H2]|[H1 H2]].
  - exists (FileMatrix.Z w). lia.
  - exists (FileMatrix.Z v). lia.
Qed.


End Slices.

(** ** Kruskal's algorithm *)

Section Partition.
Import Nx.

Lemma same_class_spec :
  forall p u v,
    same_class p u v = true <-> exists c, In c p /\ In u c /\ In v c.
Proof.
  intros p u v. unfold same_class. rewrite existsb_exists. split.
  - intros (c & Hc & H). apply andb_true_iff in H as [Hu Hv].
    exists c. rewrite <- !mem_In. tauto.
  - intros (c & Hc & Hu & Hv). exists c. split; [exact Hc|].
    apply andb_true_iff. rewrite !mem_In. tauto.
Qed.

Lemma same_class_sym : forall p u v, same_class p u v = same_class p v u.
Proof.
  intros p u v. unfold same_class.
  induction p as [|c p IH]; simpl; [reflexivity|].
  rewrite IH, (andb_comm (mem u c)). reflexivity.
Qed.

Lemma concat_filter_split (A : Type) (f : list A -> bool) :
  forall p,
    Permutation (concat (filter f p) ++ concat (filter (fun c => negb (f c)) p))
                (concat p).
Proof.
  induction p as [|c p IH]; simpl; [constructor|].
  destruct (f c); simpl.
  - rewrite <- app_assoc. apply Permutation_app_head, IH.
  - rewrite Permutation_app_swap_app. apply Permutation_app_head, IH.
Qed.

Lemma concat_union :
  forall p u v, Permutation (concat (union p u v)) (concat p).
Proof. intros p u v. unfold union. simpl. apply concat_filter_split. Qed.

Lemma in_concat_filter (A : Type) (f : list A -> bool) :
  forall p c x, In c p -> f c = true -> In x c -> In x (concat (filter f p)).
Proof.
  intros p c x Hc Hf Hx. apply in_concat. exists c.
  split; [apply filter_In; tauto | exact Hx].
Qed.

Lemma partition_of_union :
  forall vs p u v,
    partition_of vs p -> In u vs -> partition_of vs (union p u v).
Proof.
  intros vs p u v (Hnd & Hcov & Hne) Hu. split; [|split].
  - eapply Permutation_NoDup; [symmetry; apply concat_union | exact Hnd].
  - intros x. rewrite <- Hcov. split; apply Permutation_in;
      [apply concat_union | symmetry; apply concat_union].
  - unfold union. constructor.
    + apply Hcov, in_concat in Hu as (c & Hc & Huc).
      intros E.
      assert (H : In u (concat (filter (fun c => mem u c || mem v c) p))).
      { apply in_concat_filter with c; auto.
        apply orb_true_iff. left. apply mem_In, Huc. }
      rewrite E in H. exact H.
    + apply Forall_forall. intros c Hc. apply filter_In in Hc as [Hc _].
      rewrite Forall_forall in Hne. apply Hne, Hc.
Qed.

Lemma filter_none (A : Type) (f : A -> bool) :
  forall l, (forall x, In x l -> f x = false) -> filter f l = [].
Proof.
  induction l as [|a l IH]; intros H; simpl; [reflexivity|].
  rewrite (H a) by (left; reflexivity). apply IH.
  intros x Hx. apply H. right. exact Hx.
Qed.

(** A node of a partition lies in exactly one class. *)
Lemma unique_class :
  forall p u,
    NoDup (concat p) -> In u (concat p) ->
    length (filter (fun c => mem u c) p) = 1.
Proof.
  induction p as [|c p IH]; intros u Hnd Hu; simpl in *; [contradiction|].
  destruct (mem u c) eqn:E; simpl.
  - f_equal. rewrite filter_none; [reflexivity|].
    intros c' Hc'. apply mem_false. intros Huc'.
    apply mem_In in E.
    apply (NoDup_app_disjoint _ _ _ Hnd u E).
    apply in_concat. exists c'. tauto.
  - apply mem_false in E. apply IH.
    + apply NoDup_app_remove_l in Hnd. exact Hnd.
    + apply in_app_iff in Hu. tauto.
Qed.


Lemma length_filter_or_and (A : Type) (f g : A -> bool) :
  forall l,
    length (filter (fun x => f x || g x) l) + length (filter (fun x => f x && g x) l)
    = length (filter f l) + length (filter g l).
Proof.
  induction l as [|a l IH]; simpl; [reflexivity|].
  destruct (f a), (g a); simpl; lia.
Qed.

Lemma length_filter_negb (A : Type) (f : A -> bool) :
  forall l,
    length (filter f l) + length (filter (fun x => negb (f x)) l) = length l.
Proof.
  induction l as [|a l IH]; simpl; [reflexivity|].
  destruct (f a); simpl; lia.
Qed.

(** Joining two classes leaves one class less. *)
Lemma length_union :
  forall vs p u v,
    partition_of vs p -> In u vs -> In v vs -> same_class p u v = false ->
    S (length (union p u v)) = length p.
Proof.
  intros vs p u v (Hnd & Hcov & _) Hu Hv Hdiff. unfold union. simpl.
  pose proof (length_filter_negb _ (fun c => mem u c || mem v c) p) as Hsplit.
  pose proof (length_filter_or_and _ (fun c => mem u c) (fun c => mem v c) p) as Hoa.
  rewrite (unique_class p u Hnd) in Hoa by (apply Hcov, Hu).
  rewrite (unique_class p v Hnd) in Hoa by (apply Hcov, Hv).
  rewrite (filter_none _ (fun c => mem u c && mem v c)) in Hoa.
  - simpl in Hoa. lia.
  - intros c Hc. unfold same_class in Hdiff.
    destruct (mem u c && mem v c) eqn:E; [|reflexivity].
    assert (existsb (fun c => mem u c && mem v c) p = true)
      by (apply existsb_exists; eauto).
    congruence.
Qed.

Lemma same_class_union_mono :
  forall p u v a b,
    same_class p a b = true -> same_class (union p u v) a b = true.
Proof.
  intros p u v a b H. apply same_class_spec in H as (c & Hc & Ha & Hb).
  apply same_class_spec. unfold union.
  destruct (mem u c || mem v c) eqn:E.
  - exists (concat (filter (fun c => mem u c || mem v c) p)).
    split; [left; reflexivity|].
    split; apply in_concat_filter with c; auto.
  - exists c. split; [|tauto]. right. apply filter_In. rewrite E. tauto.
Qed.

Lemma same_class_union_joined :
  forall vs p u v,
    partition_of vs p -> In u vs -> In v vs ->
    same_class (union p u v) u v = true.
Proof.
  intros vs p u v (_ & Hcov & _) Hu Hv.
  apply Hcov, in_concat in Hu as (cu & Hcu & Hu).
  apply Hcov, in_concat in Hv as (cv & Hcv & Hv).
  apply same_class_spec. unfold union.
  exists (concat (filter (fun c => mem u c || mem v c) p)).
  split; [left; reflexivity|]. split.
  - apply in_concat_filter with cu; auto.
    apply orb_true_iff. left. apply mem_In, Hu.
  - apply in_concat_filter with cv; auto.
    apply orb_true_iff. right. apply mem_In, Hv.
Qed.


Lemma same_class_refl :
  forall vs p u, partition_of vs p -> In u vs -> same_class p u u = true.
Proof.
  intros vs p u (_ & Hcov & _) Hu.
  apply Hcov, in_concat in Hu as (c & Hc & Hu). apply same_class_spec. eauto.
Qed.


Lemma partition_of_singletons :
  forall vs, NoDup vs -> partition_of vs (singletons vs).
Proof.
  intros vs Hnd.
  assert (E : concat (singletons vs) = vs).
  { unfold singletons. induction vs as [|v vs IH]; simpl; [reflexivity|].
    f_equal. apply IH. inversion Hnd. assumption. }
  split; [|split].
  - rewrite E. exact Hnd.
  - intros x. rewrite E. tauto.
  - unfold singletons. apply Forall_forall. intros c Hc.
    apply in_map_iff in Hc as (v & <- & _). discriminate.
Qed.


End Partition.

Section KruskalFacts.
Import Nx.
Variable D : Type.
Implicit Types es : list (node * node * D).

Lemma kruskal_spec :
  forall vs es p,
    partition_of vs p ->
    (forall u v d, In (u, v, d) es -> In u vs /\ In v vs) ->
    partition_of vs (kruskal_classes es p)
    /\ length (kruskal es p) + length (kruskal_classes es p) = length p
    /\ (forall a b, same_class p a b = true ->
                    same_class (kruskal_classes es p) a b = true)
    /\ (forall u v d, In (u, v, d) es ->
                      same_class (kruskal_classes es p) u v = true)
    /\ simple_edges (kruskal es p)
    /\ (forall a b d, In (a, b, d) (kruskal es p) ->
                      same_class p a b = false /\ In (a, b, d) es).
Proof.
  intros vs. induction es as [|[[u v] d] es IH]; intros p Hp Hends; simpl.
  - split; [exact Hp|]. split; [reflexivity|]. split; [auto|].
    split; [intros ? ? ? []|]. split; [exact I | intros ? ? ? []].
  - destruct (Hends u v d (or_introl eq_refl)) as [Hu Hv].
    assert (Hends' : forall a b d', In (a, b, d') es -> In a vs /\ In b vs).
    { intros a b d' H. apply (Hends a b d'). right. exact H. }
    destruct (same_class p u v) eqn:E.
    + destruct (IH p Hp Hends') as (H1 & H2 & H3 & H4 & H5 & H6).
      split; [exact H1|]. split; [exact H2|]. split; [exact H3|].
      split; [|split; [exact H5|]].
      * intros a b d' [H|H]; [|eapply H4; exact H].
        injection H as <- <- <-. apply H3, E.
      * intros a b d' H. destruct (H6 a b d' H). split; [|right]; assumption.
    + assert (Hp' : partition_of vs (union p u v))
        by (apply partition_of_union; assumption).
      destruct (IH (union p u v) Hp' Hends') as (H1 & H2 & H3 & H4 & H5 & H6).
      pose proof (length_union vs p u v Hp Hu Hv E) as Hlen.
      pose proof (same_class_union_joined vs p u v Hp Hu Hv) as Hjoin.
      split; [exact H1|]. split; [simpl; lia|].
      split; [intros a b H; apply H3, same_class_union_mono, H|].
      split; [|split].
      * intros a b d' [H|H]; [|eapply H4; exact H].
        injection H as <- <- <-. apply H3, Hjoin.
      * simpl. split; [|split; [|exact H5]].
        -- intros ->. rewrite (same_class_refl vs p v Hp Hv) in E. discriminate.
        -- intros a b d' H [[-> ->]|[-> ->]]; destruct (H6 _ _ _ H) as [Hf _].
           ++ congruence.
           ++ rewrite same_class_sym in Hf. congruence.
      * intros a b d' [H|H].
        -- injection H as <- <- <-. split; [exact E | left; reflexivity].
        -- destruct (H6 a b d' H) as [Hf Hin]. split; [|right; exact Hin].
           destruct (same_class p a b) eqn:Eab; [|reflexivity].
           rewrite (same_class_union_mono p u v a b Eab) in Hf. discriminate.
Qed.


Lemma in_insert_sorted :
  forall weight (e x : node * node * D) l,
    In x (insert_sorted weight e l) <-> x = e \/ In x l.
Proof.
  intros weight e x. induction l as [|y l IH]; simpl; [intuition congruence|].
  destruct (Qle_bool (weight (snd e)) (weight (snd y))); simpl.
  - intuition congruence.
  - rewrite IH. intuition congruence.
Qed.

Lemma in_sorted :
  forall weight es (x : node * node * D), In x (sorted weight es) <-> In x es.
Proof.
  intros weight es x. unfold sorted. induction es as [|e es IH]; simpl; [tauto|].
  rewrite in_insert_sorted, IH. intuition congruence.
Qed.

(** The entries of the adjacency structure. *)
Lemma adjacent_entries :
  forall (G : Graph D) u v,
    adjacent G u v <-> exists d, In (v, d) (neighbors G u).
Proof.
  intros G u v. unfold adjacent. rewrite in_map_iff. split.
  - intros ([v' d] & E & H). simpl in E. subst. eauto.
  - intros (d & H). exists (v, d). tauto.
Qed.

Lemma neighbors_entry :
  forall (G : Graph D) u nbrs,
    NoDup (nodes G) -> In (u, nbrs) G -> neighbors G u = nbrs.
Proof.
  unfold neighbors, nodes.
  induction G as [|[k nb] G IH]; intros u nbrs Hnd Hin; [contradiction|].
  simpl in *. inversion Hnd as [|? ? Hn Hnd']; subst.
  destruct Hin as [E|Hin].
  - injection E as -> ->. rewrite String.eqb_refl. reflexivity.
  - destruct (String.eqb_spec u k) as [->|_].
    + exfalso. apply Hn. apply in_map_iff. exists (k, nbrs). tauto.
    + apply IH; assumption.
Qed.

Lemma edges_from_sound :
  forall (adj : Graph D) seen u v d,
    In (u, v, d) (edges_from adj seen) ->
    exists nbrs, In (u, nbrs) adj /\ In (v, d) nbrs.
Proof.
  induction adj as [|[n nbrs] adj IH]; intros seen u v d H; simpl in H;
    [contradiction|].
  apply in_app_iff in H as [H|H].
  - apply in_map_iff in H as ([v' d'] & E & H). injection E as <- <- <-.
    apply filter_In in H as [H _]. exists nbrs. simpl. tauto.
  - destruct (IH _ _ _ _ H) as (nbrs' & H1 & H2). exists nbrs'. simpl. tauto.
Qed.

(** [G.edges] reports every stored edge from one of its two ends. *)
Lemma edges_from_complete :
  forall (adj : Graph D) seen u v,
    NoDup (nodes adj) ->
    (forall k, In k (nodes adj) -> ~ In k seen) ->
    (exists nbrs d, In (u, nbrs) adj /\ In (v, d) nbrs) ->
    ~ In v seen ->
    (exists nbrs d, In (v, nbrs) adj /\ In (u, d) nbrs) ->
    exists d, In (u, v, d) (edges_from adj seen) \/ In (v, u, d) (edges_from adj seen).
Proof.
  unfold nodes.
  induction adj as [|[n nb] adj IH]; intros seen u v Hnd Hfresh Huv Hv Hvu.
  - destruct Huv as (? & ? & [] & _).
  - simpl in Hnd. inversion Hnd as [|? ? Hn Hnd']; subst.
    assert (Hkey : forall k nbrs, In (k, nbrs) adj -> In k (map fst adj)).
    { intros k nbrs H. apply in_map_iff. exists (k, nbrs). tauto. }
    destruct Huv as (nbrs & d & [E|Hin] & Hd).
    + injection E as -> ->. exists d. left. simpl. apply in_app_iff. left.
      apply in_map_iff. exists (v, d). split; [reflexivity|].
      apply filter_In. split; [exact Hd|].
      apply negb_true_iff, mem_false, Hv.
    + assert (Hun : u <> n) by (intros ->; apply Hn; eapply Hkey; exact Hin).
      destruct Hvu as (nbrs' & d' & [E|Hin'] & Hd').
      * injection E as -> ->. exists d'. right. simpl. apply in_app_iff. left.
        apply in_map_iff. exists (u, d'). split; [reflexivity|].
        apply filter_In. split; [exact Hd'|].
        apply negb_true_iff, mem_false, Hfresh. simpl. right.
        eapply Hkey. exact Hin.
      * assert (Hvn : v <> n) by (intros ->; apply Hn; eapply Hkey; exact Hin').
        destruct (IH (n :: seen) u v) as (d0 & H); auto.
        -- intros k Hk [<-|Hs]; [contradiction|].
           apply (Hfresh k); [simpl; tauto | exact Hs].
        -- eauto.
        -- simpl. intuition congruence.
        -- eauto.
        -- exists d0. simpl. rewrite !in_app_iff. tauto.
Qed.

Lemma edges_spec :
  forall (G : Graph D),
    wf_graph G ->
    (forall u v d, In (u, v, d) (edges G) ->
                   adjacent G u v /\ In u (nodes G) /\ In v (nodes G))
    /\ (forall u v, adjacent G u v ->
                    exists d, In (u, v, d) (edges G) \/ In (v, u, d) (edges G)).
Proof.
  intros G Hwf. pose proof Hwf as [Hnd Hsym]. split.
  - intros u v d H. apply edges_from_sound in H as (nbrs & H1 & H2).
    assert (Ha : adjacent G u v).
    { apply adjacent_entries. exists d.
      rewrite (neighbors_entry G u nbrs Hnd H1). exact H2. }
    split; [exact Ha|]. split.
    + eapply adjacent_in_nodes. exact Ha.
    + eapply adjacent_target_in_nodes; [exact Hwf | exact Ha].
  - intros u v Huv.
    assert (Hent : forall a b, adjacent G a b ->
                               exists nbrs d, In (a, nbrs) G /\ In (b, d) nbrs).
    { intros a b Hab. pose proof Hab as Hab'.
      apply adjacent_entries in Hab' as (d & Hd).
      unfold neighbors in Hd. destruct (get_item a G) as [nbrs|] eqn:E; [|contradiction].
      apply get_item_Some_In in E. eauto. }
    apply edges_from_complete; auto.
Qed.
End KruskalFacts.

Section TreeSize.
Import Nx.
Variable D : Type.
Implicit Types G : Graph D.

Lemma degree_sum_app :
  forall G1 G2, degree_sum (G1 ++ G2) = degree_sum G1 + degree_sum G2.
Proof.
  intros G1 G2. unfold degree_sum. rewrite map_app, list_sum_app. reflexivity.
Qed.

Lemma degree_sum_add_node : forall G u, degree_sum (add_node G u) = degree_sum G.
Proof.
  intros G u. unfold add_node. destruct (mem u (nodes G)); [reflexivity|].
  rewrite degree_sum_app. unfold degree_sum. simpl. lia.
Qed.

Lemma degree_sum_add_nodes_from :
  forall us G, degree_sum (add_nodes_from G us) = degree_sum G.
Proof.
  unfold add_nodes_from. induction us as [|u us IH]; intros G; simpl; [reflexivity|].
  rewrite IH. apply degree_sum_add_node.
Qed.

Lemma degree_sum_set_item :
  forall G k nbrs,
    In k (nodes G) ->
    degree_sum (set_item k nbrs G) + degree_of k (neighbors G k)
    = degree_sum G + degree_of k nbrs.
Proof.
  unfold nodes, neighbors, degree_sum.
  induction G as [|[k' nb] G IH]; intros k nbrs Hin; [contradiction|].
  simpl in *. destruct (String.eqb_spec k k') as [->|Hne]; simpl.
  - lia.
  - destruct Hin as [E|Hin]; [congruence|].
    specialize (IH k nbrs Hin). lia.
Qed.

Lemma length_set_item_new (V : Type) :
  forall k (v : V) d,
    ~ In k (map fst d) -> length (set_item k v d) = S (length d).
Proof.
  induction d as [|[k' v'] d IH]; intros Hn; simpl in *; [reflexivity|].
  destruct (String.eqb_spec k k') as [->|_]; [tauto|].
  simpl. f_equal. apply IH. tauto.
Qed.

Lemma degree_of_set_item_new :
  forall u v (d : D) nbrs,
    v <> u -> ~ In v (map fst nbrs) ->
    degree_of u (set_item v d nbrs) = S (degree_of u nbrs).
Proof.
  intros u v d nbrs Hne Hn. unfold degree_of.
  rewrite length_set_item_new by exact Hn.
  replace (mem u (map fst (set_item v d nbrs))) with (mem u (map fst nbrs));
    [reflexivity|].
  destruct (mem u (map fst nbrs)) eqn:E; symmetry.
  - apply mem_In. apply keys_set_item. right. apply mem_In, E.
  - apply mem_false. rewrite keys_set_item. apply mem_false in E.
    intuition congruence.
Qed.

Lemma add_node_present : forall G u, In u (nodes G) -> add_node G u = G.
Proof.
  intros G u H. unfold add_node. apply mem_In in H. rewrite H. reflexivity.
Qed.

(** A new edge between two nodes of the graph adds two to the sum of the
    degrees. *)
Lemma degree_sum_add_edge :
  forall G u v d,
    u <> v -> In u (nodes G) -> In v (nodes G) ->
    ~ adjacent G u v -> ~ adjacent G v u ->
    degree_sum (add_edge G u v d) = degree_sum G + 2.
Proof.
  intros G u v d Hne Hu Hv Huv Hvu. unfold add_edge.
  rewrite (add_node_present G u Hu), (add_node_present G v Hv).
  set (G2 := set_item u (set_item v d (neighbors G u)) G).
  assert (Hn2 : neighbors G2 v = neighbors G v).
  { unfold G2. rewrite neighbors_set_item.
    destruct (String.eqb_spec v u); [congruence | reflexivity]. }
  assert (Hv2 : In v (nodes G2)).
  { unfold G2, nodes. rewrite keys_set_item_present; assumption. }
  pose proof (degree_sum_set_item G u (set_item v d (neighbors G u)) Hu) as H1.
  rewrite degree_of_set_item_new in H1 by (auto; congruence).
  pose proof (degree_sum_set_item G2 v (set_item u d (neighbors G2 v)) Hv2) as H2.
  rewrite Hn2 in H2. rewrite degree_of_set_item_new in H2 by auto.
  fold G2 in H1. rewrite Hn2. lia.
Qed.

Lemma degree_sum_add_edges_from :
  forall es G,
    simple_edges es ->
    (forall u v d, In (u, v, d) es ->
                   In u (nodes G) /\ In v (nodes G)
                   /\ ~ adjacent G u v /\ ~ adjacent G v u) ->
    degree_sum (add_edges_from G es) = degree_sum G + 2 * length es.
Proof.
  unfold add_edges_from.
  induction es as [|[[u v] d] es IH]; intros G Hsimple Hes; simpl; [lia|].
  destruct Hsimple as (Hne & Hother & Hsimple).
  destruct (Hes u v d (or_introl eq_refl)) as (Hu & Hv & Huv & Hvu).
  rewrite IH; [rewrite degree_sum_add_edge by assumption; lia | exact Hsimple |].
  intros a b d' H. destruct (Hes a b d' (or_intror H)) as (Ha & Hb & Hab & Hba).
  pose proof (Hother a b d' H) as Hdiff.
  rewrite !in_nodes_add_edge, !adjacent_add_edge.
  split; [tauto|]. split; [tauto|]. split; intuition congruence.
Qed.

Lemma empty_degree_sum : degree_sum (@empty D) = 0.
Proof. reflexivity. Qed.

(** The spanning forest has as many edges as Kruskal's algorithm keeps,
    and the nodes of the graph. *)
Lemma minimum_spanning_tree_size :
  forall weight G,
    wf_graph G ->
    number_of_edges (minimum_spanning_tree weight G)
    = length (minimum_spanning_edges weight G)
    /\ (forall x, In x (nodes (minimum_spanning_tree weight G)) <-> In x (nodes G))
    /\ wf_graph (minimum_spanning_tree weight G)
    /\ (forall a b,
           adjacent (minimum_spanning_tree weight G) a b ->
           exists d, In (a, b, d) (minimum_spanning_edges weight G)
                     \/ In (b, a, d) (minimum_spanning_edges weight G)).
Proof.
  intros weight G Hwf. pose proof Hwf as [Hnd Hsym].
  unfold minimum_spanning_tree.
  set (ks := minimum_spanning_edges weight G).
  set (T0 := add_nodes_from empty (nodes G)).
  destruct (edges_spec D G Hwf) as [Hedges _].
  assert (Hends : forall u v d, In (u, v, d) (sorted weight (edges G)) ->
                                In u (nodes G) /\ In v (nodes G)).
  { intros u v d H. apply in_sorted in H. destruct (Hedges u v d H). tauto. }
  destruct (kruskal_spec D (nodes G) (sorted weight (edges G))
              (singletons (nodes G)) (partition_of_singletons _ Hnd) Hends)
    as (_ & _ & _ & _ & Hsimple & Hks).
  fold (minimum_spanning_edges weight G) in Hsimple, Hks. fold ks in Hsimple, Hks.
  assert (Hn0 : forall x, In x (nodes T0) <-> In x (nodes G)).
  { intros x. unfold T0. rewrite nodes_add_nodes_from. simpl. tauto. }
  assert (Ha0 : forall a b, ~ adjacent T0 a b).
  { intros a b H. unfold T0 in H. apply adjacent_add_nodes_from in H. destruct H. }
  split; [|split; [|split]].
  - unfold number_of_edges. fold (degree_sum (add_edges_from T0 ks)).
    rewrite degree_sum_add_edges_from; [| exact Hsimple |].
    + unfold T0. rewrite degree_sum_add_nodes_from, empty_degree_sum.
      replace (0 + 2 * length ks) with (length ks * 2) by lia.
      apply Nat.div_mul. discriminate.
    + intros u v d H. destruct (Hks u v d H) as [_ Hin].
      destruct (Hends u v d Hin) as [Hu Hv]. rewrite !Hn0.
      split; [exact Hu|]. split; [exact Hv|]. split; apply Ha0.
  - intros x. rewrite nodes_add_edges_from, Hn0. split; [|tauto].
    intros [H|(u & v & d & H & Hx)]; [exact H|].
    destruct (Hks u v d H) as [_ Hin]. destruct (Hends u v d Hin).
    destruct Hx; subst; assumption.
  - apply wf_add_edges_from. unfold T0. apply wf_add_nodes_from, wf_empty.
  - intros a b H. apply adjacent_add_edges_from in H as [H|H]; [|exact H].
    destruct (Ha0 a b H).
Qed.
End TreeSize.

(** ** The overlap graph and its spanning tree *)

Section OverlapGraph.
Import Nx FuseRunner.

Variable df : list measurement.

Let rows_edges : list (node * node * edge_attr) :=
  map (fun '(i, row) =>
         (aname row, bname row, {| weight := (1 - score row)%Q; label := i |}))
      (combine (seq 0 (length df)) df).

Lemma in_combine_seq (A : Type) :
  forall (l : list A) start i a,
    In (i, a) (combine (seq start (length l)) l)
    <-> start <= i /\ nth_error l (i - start) = Some a.
Proof.
  induction l as [|x l IH]; intros start i a; simpl.
  - split; [tauto|]. intros [_ H]. destruct (i - start); discriminate.
  - rewrite IH. split.
    + intros [E|[Hle Hn]].
      * injection E as <- <-. rewrite Nat.sub_diag. split; [lia | reflexivity].
      * split; [lia|]. replace (i - start) with (S (i - S start)) by lia.
        exact Hn.
    + intros [Hle Hn]. destruct (Nat.eq_dec i start) as [->|Hne].
      * rewrite Nat.sub_diag in Hn. simpl in Hn. injection Hn as <-. tauto.
      * right. split; [lia|].
        replace (i - start) with (S (i - S start)) in Hn by lia. exact Hn.
Qed.

Lemma in_rows_edges :
  forall u v d,
    In (u, v, d) rows_edges
    <-> exists m,
        nth_error df (label d) = Some m
        /\ aname m = u /\ bname m = v /\ weight d = (1 - score m)%Q.
Proof.
  intros u v d. unfold rows_edges. rewrite in_map_iff. split.
  - intros ([i m] & E & H). injection E as <- <- <-.
    apply in_combine_seq in H as [_ H]. rewrite Nat.sub_0_r in H.
    exists m. simpl. tauto.
  - intros (m & Hn & <- & <- & Hw). exists (label d, m). split.
    + destruct d as [w l]. simpl in *. subst w. reflexivity.
    + apply in_combine_seq. rewrite Nat.sub_0_r. split; [lia | exact Hn].
Qed.

Lemma wf_add_rows_nodes :
  forall (rows : list measurement) (G : Graph edge_attr),
    wf_graph G ->
    wf_graph (fold_left (fun G row => add_node (add_node G (aname row)) (bname row))
                        rows G).
Proof.
  induction rows as [|m rows IH]; intros G H; simpl; [exact H|].
  apply IH. apply wf_add_node, wf_add_node, H.
Qed.


Lemma nodes_add_rows_nodes :
  forall (rows : list measurement) (G : Graph edge_attr) x,
    In x (nodes (fold_left (fun G row => add_node (add_node G (aname row)) (bname row))
                           rows G))
    <-> In x (nodes G) \/ exists m, In m rows /\ (aname m = x \/ bname m = x).
Proof.
  induction rows as [|m rows IH]; intros G x; simpl.
  - split; [tauto | intros [H|(m & [] & _)]; exact H].
  - rewrite IH, !nodes_add_node. split.
    + intros [[->|[->|H]]|(m' & H & Hx)]; eauto 6.
    + intros [H|(m' & [->|H] & Hx)]; eauto 6. destruct Hx; subst; tauto.
Qed.

Lemma wf_overlap_graph : wf_graph (overlap_graph df).
Proof.
  unfold overlap_graph. apply wf_add_edges_from, wf_add_rows_nodes, wf_empty.
Qed.


Lemma nodes_overlap_graph :
  forall x,
    In x (nodes (overlap_graph df))
    <-> exists m, In m df /\ (aname m = x \/ bname m = x).
Proof.
  intros x. unfold overlap_graph. fold rows_edges.
  rewrite nodes_add_edges_from, nodes_add_rows_nodes. simpl. split.
  - intros [[[]|H]|(u & v & d & H & Hx)]; [exact H|].
    apply in_rows_edges in H as (m & Hn & Ha & Hb & _).
    apply nth_error_In in Hn. exists m. destruct Hx; subst; tauto.
  - intros H. left. right. exact H.
Qed.



Let G := overlap_graph df.
Let es := sorted weight (edges G).


End OverlapGraph.

(** ** The depth-first search returns *)

Section DepthFirst.
Import Nx.
Variable D : Type.
Variable T : Graph D.
Hypothesis Hwf : wf_graph T.








End DepthFirst.

(** ** The propagation of the positions returns *)

Section EdgeData.
Import Nx.
Variable D : Type.
Implicit Types G : Graph D.





End EdgeData.

Section Propagation.
Import Nx FuseRunner.

Variable fm : FileMatrix.FileMatrix.
Variable df : list measurement.

Let fm_df := FileMatrix.data_frame fm.
Let G := overlap_graph df.
Let T := minimum_spanning_tree df.





End Propagation.

(** ** The spanning tree and the graphs that are not connected *)

Section SpanningTree.
Import Nx FuseRunner.






End SpanningTree.

(** ** The end-to-end positioning scenario *)



(** ** Further properties *)



(** X3. Every blending weight of [_fuse] lies between 0 and 1, whatever the
    number of rows of the overlap, and an overlap of a single row takes
    the weight 1: the first region alone. *)
Theorem blending_weights_in_unit_interval :
  (forall n i, (0 <= alpha n i <= 1)%R) /\ alpha 1 0 = 1%R.
Proof. split; [apply alpha_bounds | apply alpha_single]. Qed.


(** ** Rounding and the minimum of a column *)

Section Rounding.
Import FuseRunner.
Local Open Scope Q_scope.







End Rounding.

(** ** The tiles that the depth-first search reaches *)

Section DepthFirstReach.
Import Nx.
Variable D : Type.
Variable T : Graph D.
Variable P : node -> Prop.
Hypothesis Hclosed : forall a b, P a -> adjacent T a b -> P b.



End DepthFirstReach.

(** ** The table of positions that position estimation returns *)

Section Positions.
Import Nx FuseRunner.

Variable fm : FileMatrix.FileMatrix.
Variable df : list measurement.



End Positions.

Section Normalize.
Import Nx FuseRunner.




Variable fm : FileMatrix.FileMatrix.
Variable pos : positions.
Hypothesis Hkeys : map fst pos = map FileMatrix.filename (FileMatrix.data_frame fm).

Let Hlen : length pos = length (FileMatrix.data_frame fm).
Proof. rewrite <- (length_map fst), Hkeys, length_map. reflexivity. Qed.




End Normalize.

Section PositionTable.
Import Nx FuseRunner.

Variable fm : FileMatrix.FileMatrix.
Variable df : list measurement.
Variable first : FileMatrix.tile.
Variable rest : list FileMatrix.tile.
Hypothesis Hfirst : FileMatrix.data_frame fm = first :: rest.

Lemma compute_absolute_positions_eq :
  _compute_absolute_positions fm df
  = match dfs_edges (minimum_spanning_tree df) (FileMatrix.filename first) with
    | None => None
    | Some (inl e) => Some (inl e)
    | Some (inr es) =>
        match propagate_all fm df (minimum_spanning_tree df) es
                (map (fun t => (FileMatrix.filename t, (0, 0, 0)%Q)) (first :: rest)) with
        | inl e => Some (inl e)
        | inr pos' => Some (inr (normalize fm pos'))
        end
    end.
Proof. unfold _compute_absolute_positions. rewrite Hfirst. reflexivity. Qed.

End PositionTable.





Lemma NoDup_mosaic_2x2 :
  NoDup (map FileMatrix.filename (FileMatrix.data_frame mosaic_2x2)).
Proof. simpl. repeat constructor; simpl; intuition discriminate. Defined.


(** X7. When the first tile of the table is in no registration, position
    estimation raises KeyError with the name of that tile: the search
    starts from a tile that is not a node of the spanning tree. *)
Theorem first_tile_without_registration :
  forall (fm : FileMatrix.FileMatrix) (df : list FuseRunner.measurement)
         (first : FileMatrix.tile) (rest : list FileMatrix.tile),
    FileMatrix.data_frame fm = first :: rest ->
    (forall m, In m df ->
               FuseRunner.aname m <> FileMatrix.filename first
               /\ FuseRunner.bname m <> FileMatrix.filename first) ->
    FuseRunner._compute_absolute_positions fm df
    = Some (inl (KeyError (FileMatrix.filename first))).
Proof.
  intros fm df first rest E Hno.
  rewrite (compute_absolute_positions_eq fm df first rest E).
  unfold Nx.dfs_edges.
  destruct (Nx.mem (FileMatrix.filename first) (Nx.nodes (FuseRunner.minimum_spanning_tree df)))
    eqn:Em; [|reflexivity].
  exfalso. apply mem_In in Em.
  pose proof (wf_overlap_graph df) as HwfG.
  destruct (minimum_spanning_tree_size _ FuseRunner.weight (FuseRunner.overlap_graph df) HwfG)
    as (_ & HnT & _ & _).
  apply HnT, nodes_overlap_graph in Em as (m & Hm & H).
  destruct (Hno m Hm) as [Ha Hb]. destruct H; contradiction.
Qed.

Lemma first_tile_without_registration_witness :
  FuseRunner._compute_absolute_positions mosaic_2x2
    [measured "x_1_y_0" "x_1_y_1" 1 0 20 0]
  = Some (inl (KeyError (FileMatrix.filename (grid_tile "x_0_y_0" 0 0 0 5)))).
Proof.
  apply (first_tile_without_registration mosaic_2x2
           [measured "x_1_y_0" "x_1_y_1" 1 0 20 0]
           (grid_tile "x_0_y_0" 0 0 0 5)
           [grid_tile "x_1_y_0" 1 0 0 5; grid_tile "x_0_y_1" 0 1 0 5;
            grid_tile "x_1_y_1" 1 1 0 5]).
  - reflexivity.
  - intros m [<-|[]]. simpl. split; discriminate.
Defined.

(** ** Registrations of the same pair of tiles *)

Section EdgeOverwrite.
Import Nx.
Variable D : Type.
Implicit Types G : Graph D.

Lemma get_edge_data_add_edge_same :
  forall G u v d,
    get_edge_data (add_edge G u v d) u v = Some d
    /\ get_edge_data (add_edge G u v d) v u = Some d.
Proof.
  intros G u v d. unfold get_edge_data. rewrite !neighbors_add_edge.
  rewrite String.eqb_refl.
  destruct (String.eqb_spec u v) as [->|Hne].
  - rewrite String.eqb_refl, get_item_set_item_eq. tauto.
  - rewrite String.eqb_refl.
    destruct (String.eqb_spec v u) as [E|_]; [congruence|].
    rewrite !get_item_set_item_eq. tauto.
Qed.

Lemma get_edge_data_add_edge_other :
  forall G u v d a b,
    ~ ((a = u /\ b = v) \/ (a = v /\ b = u)) ->
    get_edge_data (add_edge G u v d) a b = get_edge_data G a b.
Proof.
  intros G u v d a b H. unfold get_edge_data. rewrite neighbors_add_edge.
  destruct (String.eqb_spec a v) as [->|Hav].
  - assert (Hbu : b <> u) by (intros ->; apply H; tauto).
    rewrite get_item_set_item_neq by exact Hbu.
    destruct (String.eqb_spec v u) as [->|_]; [|reflexivity].
    apply get_item_set_item_neq. exact Hbu.
  - destruct (String.eqb_spec a u) as [->|_]; [|reflexivity].
    apply get_item_set_item_neq. intros ->. apply H. tauto.
Qed.

Lemma get_edge_data_add_edges_from_other :
  forall es G a b,
    (forall u v d, In (u, v, d) es -> ~ ((a = u /\ b = v) \/ (a = v /\ b = u))) ->
    get_edge_data (add_edges_from G es) a b = get_edge_data G a b.
Proof.
  unfold add_edges_from.
  induction es as [|[[u v] d] es IH]; intros G a b H; simpl; [reflexivity|].
  rewrite IH.
  - apply get_edge_data_add_edge_other. apply (H u v d). left. reflexivity.
  - intros u' v' d' Hin. apply (H u' v' d'). right. exact Hin.
Qed.

(** The attributes of an edge are those it was last added with. *)
Lemma get_edge_data_last :
  forall es1 es2 G u v d,
    (forall u' v' d', In (u', v', d') es2 ->
                      ~ ((u = u' /\ v = v') \/ (u = v' /\ v = u'))) ->
    get_edge_data (add_edges_from G (es1 ++ (u, v, d) :: es2)) u v = Some d
    /\ get_edge_data (add_edges_from G (es1 ++ (u, v, d) :: es2)) v u = Some d.
Proof.
  intros es1 es2 G u v d H. unfold add_edges_from.
  rewrite fold_left_app. simpl. fold (add_edges_from G es1).
  set (G1 := add_edges_from G es1).
  change (fold_left _ es2 (add_edge G1 u v d))
    with (add_edges_from (add_edge G1 u v d) es2).
  rewrite !get_edge_data_add_edges_from_other.
  - apply get_edge_data_add_edge_same.
  - intros u' v' d' Hin [H'|H']; apply (H u' v' d' Hin); tauto.
  - exact H.
Qed.
End EdgeOverwrite.

Section RegisteredTwice.
Import Nx FuseRunner.

Lemma rows_edges_split :
  forall (l1 l2 : list measurement) m k,
    map (fun '(i, row) =>
           (aname row, bname row, {| weight := (1 - score row)%Q; label := i |}))
        (combine (seq k (length (l1 ++ m :: l2))) (l1 ++ m :: l2))
    = map (fun '(i, row) =>
             (aname row, bname row, {| weight := (1 - score row)%Q; label := i |}))
          (combine (seq k (length l1)) l1)
      ++ (aname m, bname m,
          {| weight := (1 - score m)%Q; label := k + length l1 |})
      :: map (fun '(i, row) =>
                (aname row, bname row, {| weight := (1 - score row)%Q; label := i |}))
             (combine (seq (S (k + length l1)) (length l2)) l2).
Proof.
  induction l1 as [|a l1 IH]; intros l2 m k; simpl.
  - rewrite Nat.add_0_r. reflexivity.
  - rewrite IH. simpl. rewrite <- !Nat.add_succ_comm. reflexivity.
Qed.

Lemma in_rows_edges_from :
  forall (l : list measurement) k u v d,
    In (u, v, d)
       (map (fun '(i, row) =>
               (aname row, bname row, {| weight := (1 - score row)%Q; label := i |}))
            (combine (seq k (length l)) l)) ->
    exists m, nth_error l (label d - k) = Some m /\ k <= label d
              /\ aname m = u /\ bname m = v.
Proof.
  induction l as [|a l IH]; intros k u v d H; simpl in H; [destruct H|].
  destruct H as [H|H].
  - injection H as <- <- <-. exists a. simpl. rewrite Nat.sub_diag. auto.
  - destruct (IH _ _ _ _ H) as (m & Hm & Hk & Ha & Hb). exists m.
    replace (label d - k) with (S (label d - S k)) by lia. simpl.
    repeat split; auto; lia.
Qed.
End RegisteredTwice.

(** X8. When a pair of tiles is registered more than once, the overlap
    graph keeps the registration listed last, whatever the scores: the edge
    of the pair carries the weight and the label of the last row of the
    table that registers the pair, in either order of the two tiles. *)
Theorem last_registration_of_a_pair_wins :
  forall (df : list FuseRunner.measurement) (i : nat) (m : FuseRunner.measurement),
    nth_error df i = Some m ->
    (forall j m', i < j -> nth_error df j = Some m' -> ~ same_pair m m') ->
    let d := {| FuseRunner.weight := (1 - FuseRunner.score m)%Q; FuseRunner.label := i |} in
    Nx.get_edge_data (FuseRunner.overlap_graph df)
      (FuseRunner.aname m) (FuseRunner.bname m) = Some d
    /\ Nx.get_edge_data (FuseRunner.overlap_graph df)
         (FuseRunner.bname m) (FuseRunner.aname m) = Some d.
Proof.
  intros df i m Hi Hlast d.
  apply nth_error_split in Hi as (l1 & l2 & -> & <-).
  unfold FuseRunner.overlap_graph. rewrite rows_edges_split. simpl "+".
  apply get_edge_data_last.
  intros u' v' d' Hin Hpair.
  apply in_rows_edges_from in Hin as (m' & Hm' & Hk & Ha & Hb).
  apply (Hlast (FuseRunner.label d') m').
  - lia.
  - rewrite nth_error_app2 by lia.
    replace (FuseRunner.label d' - length l1)
      with (S (FuseRunner.label d' - S (length l1))) by lia.
    exact Hm'.
  - unfold same_pair. rewrite Ha, Hb. destruct Hpair as [[-> ->]|[-> ->]]; tauto.
Qed.

Lemma last_registration_of_a_pair_wins_witness :
  let d := {| FuseRunner.weight := (1 - (1 # 10))%Q; FuseRunner.label := 1 |} in
  Nx.get_edge_data (FuseRunner.overlap_graph registered_twice)
    "x_1_y_0"%string "x_0_y_0"%string = Some d
  /\ Nx.get_edge_data (FuseRunner.overlap_graph registered_twice)
       "x_0_y_0"%string "x_1_y_0"%string = Some d.
Proof.
  apply (last_registration_of_a_pair_wins registered_twice 1
           {| FuseRunner.aname := "x_1_y_0"; FuseRunner.bname := "x_0_y_0";
              FuseRunner.axis := 2; FuseRunner.dx := 0; FuseRunner.dy := 35;
              FuseRunner.dz := 0; FuseRunner.score := 1 # 10 |}%string%Q).
  - reflexivity.
  - intros [|[|[|j]]] m' Hj H; simpl in H; try discriminate; lia.
Defined.

(** ** The table after [process_data_frame] *)

Section Columns.
Import FileMatrix.
Local Open Scope Z_scope.





Variable key : tile -> int.





(** A column that another table holds as well has the same minimum. *)
Lemma col_min_ext :
  forall (key' : tile -> int) df df',
    map key' df' = map key df -> col_min key' df' = col_min key df.
Proof. intros key' df df' H. unfold col_min. rewrite H. reflexivity. Qed.
End Columns.

Section ProcessDataFrame.
Local Open Scope Z_scope.

Lemma Forall2_map_same (A B : Type) (f : A -> B) (R : A -> B -> Prop) :
  forall l, (forall a, In a l -> R a (f a)) -> Forall2 R l (map f l).
Proof.
  induction l as [|a l IH]; intros H; simpl; constructor.
  - apply H. left. reflexivity.
  - apply IH. intros b Hb. apply H. right. exact Hb.
Qed.


Lemma Forall2_In_l (A B : Type) (R : A -> B -> Prop) :
  forall l l', Forall2 R l l' -> forall a, In a l -> exists b, In b l' /\ R a b.
Proof.
  induction 1 as [|a0 b l l' HR _ IH]; intros a Ha; [destruct Ha|].
  destruct Ha as [<-|Ha]; [exists b; split; [left; reflexivity | exact HR]|].
  destruct (IH a Ha) as (b' & Hb' & HR'). exists b'. split; [right|]; assumption.
Qed.



Variable fm : FileMatrix.FileMatrix.
Hypothesis Hcheck : complete_mosaic fm.

Let df := FileMatrix.data_frame fm.
Let fm' := snd (FileMatrix.process_data_frame fm).
Let df' := FileMatrix.data_frame fm'.


Lemma process_data_frame_rows :
  Forall2 (fun t t' =>
             grid_row_processed df t t'
             /\ if FileMatrix.has_abs_columns fm
                then abs_row_processed df t t'
                else FileMatrix.Xs t' = FileMatrix.Xs t
                     /\ FileMatrix.Ys t' = FileMatrix.Ys t
                     /\ FileMatrix.Zs t' = FileMatrix.Zs t
                     /\ FileMatrix.Xs_end t' = FileMatrix.Xs_end t
                     /\ FileMatrix.Ys_end t' = FileMatrix.Ys_end t
                     /\ FileMatrix.Zs_end t' = FileMatrix.Zs_end t)
          df df'.
Proof.
  unfold df', fm', FileMatrix.process_data_frame.
  unfold complete_mosaic in Hcheck. apply Nat.eqb_eq in Hcheck. rewrite Hcheck.
  simpl negb. cbv iota. simpl. fold df.
  set (df2 := map _ (map _ df)).
  assert (Hcols : forall key : FileMatrix.tile -> Z,
             (forall t x y z v,
                 key (FileMatrix.set_Z_end (FileMatrix.set_grid t x y z) v) = key t) ->
             FileMatrix.col_min key df2 = FileMatrix.col_min key df).
  { intros key Hkey. apply col_min_ext. unfold df2. rewrite !map_map.
    apply map_ext. intros t. apply Hkey. }
  rewrite !Hcols by reflexivity.
  unfold df2. destruct (FileMatrix.has_abs_columns fm); rewrite !map_map;
    apply Forall2_map_same; intros t _;
    unfold grid_row_processed, abs_row_processed; simpl; repeat split.
Qed.



Lemma processed_row_for :
  forall t, In t df ->
            exists t', In t' df' /\ grid_row_processed df t t'
                       /\ (FileMatrix.has_abs_columns fm = true ->
                           abs_row_processed df t t').
Proof.
  intros t Hin.
  destruct (Forall2_In_l _ _ _ _ _ process_data_frame_rows t Hin) as (t' & Ht & Hg & Ha).
  exists t'. split; [exact Ht|]. split; [exact Hg|].
  intros E. rewrite E in Ha. exact Ha.
Qed.

End ProcessDataFrame.






Section Idempotence.
Local Open Scope Z_scope.






Variable fm : FileMatrix.FileMatrix.
Hypothesis Hcheck : complete_mosaic fm.

End Idempotence.



(** ** The frames that the fusion reads from the tiles *)

Section TileFrames.
Import Fuser.
Local Open Scope Z_scope.

Ltac compare_all :=
  repeat match goal with
         | |- context [?a >? ?b] => destruct (Z.gtb_spec a b)
         | |- context [?a <=? ?b] => destruct (Z.leb_spec a b)
         | |- context [?a <? ?b] => destruct (Z.ltb_spec a b)
         | |- context [?a >=? ?b] => destruct (Z.geb_spec a b)
         end.

Lemma frame_range_empty :
  forall x y, y <= x -> frame_range x (Z.to_nat (y - x)) = [].
Proof.
  intros x y H. replace (Z.to_nat (y - x)) with 0%nat by lia. reflexivity.
Qed.

Lemma frame_range_split :
  forall x y z,
    x <= y <= z ->
    frame_range x (Z.to_nat (y - x)) ++ frame_range y (Z.to_nat (z - y))
    = frame_range x (Z.to_nat (z - x)).
Proof.
  intros x y z H.
  replace (Z.to_nat (z - x)) with (Z.to_nat (y - x) + Z.to_nat (z - y))%nat by lia.
  rewrite frame_range_app. do 2 f_equal. lia.
Qed.

Lemma in_frame_range :
  forall lo n f, In f (frame_range lo n) <-> lo <= f < lo + Z.of_nat n.
Proof.
  intros lo n f. unfold frame_range. rewrite in_map_iff. split.
  - intros (k & <- & Hk). apply in_seq in Hk. lia.
  - intros H. exists (Z.to_nat (f - lo)). split; [lia|]. apply in_seq. lia.
Qed.

Lemma NoDup_frame_range : forall lo n, NoDup (frame_range lo n).
Proof.
  intros lo n. unfold frame_range.
  apply NoDup_map_NoDup_ForallPairs; [|apply seq_NoDup].
  intros a b _ _ Hab. lia.
Qed.

Lemma in_frames_in :
  forall row lo hi f,
    In f (frames_in row lo hi)
    <-> 0 <= f < FileMatrix.nfrms row
        /\ lo <= FileMatrix.Zs row + f < hi.
Proof.
  intros row lo hi f. unfold frames_in. rewrite in_frame_range. lia.
Qed.

Lemma frames_in_app :
  forall row a b c,
    a <= b <= c ->
    frames_in row a b ++ frames_in row b c = frames_in row a c.
Proof.
  intros row a b c H. unfold frames_in.
  set (zs := FileMatrix.Zs row). set (n := FileMatrix.nfrms row).
  destruct (Z_le_gt_dec (Z.min n (b - zs)) (Z.max 0 (a - zs))) as [H1|H1].
  - rewrite (frame_range_empty _ _ H1). simpl.
    destruct (Z_le_gt_dec (Z.min n (c - zs)) (Z.max 0 (b - zs))) as [H2|H2].
    + rewrite (frame_range_empty _ _ H2).
      symmetry. apply frame_range_empty. lia.
    + replace (Z.max 0 (b - zs)) with (Z.max 0 (a - zs)) by lia. reflexivity.
  - destruct (Z_le_gt_dec (Z.min n (c - zs)) (Z.max 0 (b - zs))) as [H2|H2].
    + rewrite (frame_range_empty _ _ H2), app_nil_r.
      replace (Z.min n (c - zs)) with (Z.min n (b - zs)) by lia. reflexivity.
    + replace (Z.max 0 (b - zs)) with (Z.min n (b - zs)) by lia.
      apply frame_range_split. lia.
Qed.

Lemma frames_in_nil : forall row a, frames_in row a a = [].
Proof. intros row a. unfold frames_in. apply frame_range_empty. lia. Qed.

(** The frames read from a tile in a chunk are its frames in the chunk. *)
Lemma tile_frames_chunk :
  forall fr row b,
    zmax fr = Some b ->
    match tile_frames fr row with
    | None => []
    | Some (zf, zt) => frame_range zf (Z.to_nat (zt - zf))
    end = frames_in row (zmin fr) b.
Proof.
  intros fr row b E. unfold tile_frames, frames_in. rewrite E.
  compare_all;
    try (symmetry; apply frame_range_empty; lia);
    f_equal; lia.
Qed.
End TileFrames.

Section TileLoop.
Import Fuser FuserTiles.
Local Open Scope Z_scope.

Lemma frames_of_puts :
  forall fr name,
    flat_map (fun p => if String.eqb (index p) name
                       then frame_range (z_from p) (Z.to_nat (z_to p - z_from p))
                       else [])
             (puts fr)
    = flat_map (fun row =>
                  if String.eqb (FileMatrix.filename row) name
                  then match tile_frames fr row with
                       | None => []
                       | Some (zf, zt) => frame_range zf (Z.to_nat (zt - zf))
                       end
                  else [])
               (FileMatrix.data_frame (fm fr)).
Proof.
  intros fr name. unfold puts.
  induction (FileMatrix.data_frame (fm fr)) as [|row df IH]; [reflexivity|].
  simpl. rewrite flat_map_app, IH. f_equal.
  destruct (tile_frames fr row) as [[zf zt]|]; simpl.
  - rewrite app_nil_r. reflexivity.
  - destruct (String.eqb _ _); reflexivity.
Qed.

Lemma flat_map_one_name (F : FileMatrix.tile -> list Z) :
  forall (df : list FileMatrix.tile) row,
    NoDup (map FileMatrix.filename df) ->
    In row df ->
    flat_map (fun row' =>
                if String.eqb (FileMatrix.filename row') (FileMatrix.filename row)
                then F row' else [])
             df = F row.
Proof.
  intros df row. induction df as [|r df IH]; intros Hnd Hin; [destruct Hin|].
  simpl in Hnd. inversion Hnd as [|? ? Hr Hnd']; subst. simpl.
  destruct Hin as [->|Hin].
  - rewrite String.eqb_refl.
    assert (Hnil : forall l,
               ~ In (FileMatrix.filename row) (map FileMatrix.filename l) ->
               flat_map (fun row' =>
                           if String.eqb (FileMatrix.filename row')
                                         (FileMatrix.filename row)
                           then F row' else []) l = []).
    { induction l as [|x l IHl]; intros Hn; [reflexivity|]. simpl.
      destruct (String.eqb_spec (FileMatrix.filename x) (FileMatrix.filename row))
        as [E|_].
      - exfalso. apply Hn. left. exact E.
      - apply IHl. intros H. apply Hn. right. exact H. }
    rewrite (Hnil df Hr). apply app_nil_r.
  - destruct (String.eqb_spec (FileMatrix.filename r) (FileMatrix.filename row))
      as [E|_].
    + exfalso. apply Hr. rewrite E. apply in_map, Hin.
    + simpl. apply IH; assumption.
Qed.

Lemma frames_read_cons :
  forall name c cs,
    frames_read name (c :: cs)
    = flat_map (fun p => if String.eqb (index p) name
                         then frame_range (z_from p) (Z.to_nat (z_to p - z_from p))
                         else [])
               c
      ++ frames_read name cs.
Proof. reflexivity. Qed.

Variable row : FileMatrix.tile.

(** The frames of [row] that the loop reads, chunk after chunk, are its
    frames in the part of the volume that the chunks cover. *)
Lemma run_puts_frames :
  forall ths fr,
    Forall (fun t => 0 <= t) ths ->
    NoDup (map FileMatrix.filename (FileMatrix.data_frame (fm fr))) ->
    In row (FileMatrix.data_frame (fm fr)) ->
    frames_read (FileMatrix.filename row) (run_puts ths fr)
    = frames_in row (zmin fr) (zmin fr + sum_Z ths).
Proof.
  induction ths as [|t ths IH]; intros fr Hpos Hnd Hin.
  - simpl. rewrite Z.add_0_r, frames_in_nil. reflexivity.
  - inversion Hpos as [|? ? Ht Hths]; subst.
    assert (Hs : 0 <= sum_Z ths) by (clear -Hths; induction Hths; simpl; lia).
    cbn [run_puts]. rewrite frames_read_cons.
    rewrite IH by assumption.
    rewrite frames_of_puts.
    rewrite (flat_map_one_name _ _ row) by assumption.
    rewrite (tile_frames_chunk _ row (zmin fr + t)) by reflexivity.
    simpl zmin. simpl sum_Z. rewrite frames_in_app by lia.
    f_equal. lia.
Qed.
End TileLoop.

(** X12. The frames that the loop of [run] reads from a tile in a chunk are
    exactly the frames of the tile that fall in the chunk: frame [f] of the
    tile is in the range [z_from, z_to) that is read if and only if it is a
    frame of the file and the frame [Zs + f] of the volume is in
    [zmin, zmax); a tile without such a frame is skipped. *)
Theorem tile_frames_are_those_in_the_chunk :
  forall (fr : Fuser.FuseRunner) (row : FileMatrix.tile) (f : Z),
    (exists z_from z_to,
        Fuser.tile_frames fr row = Some (z_from, z_to) /\ (z_from <= f < z_to)%Z)
    <-> (0 <= f < FileMatrix.nfrms row
         /\ Fuser.zmin fr <= FileMatrix.Zs row + f
         /\ match Fuser.zmax fr with
            | Some zm => FileMatrix.Zs row + f < zm
            | None => True
            end)%Z.
Proof.
  intros fr row f. unfold Fuser.tile_frames.
  destruct (Fuser.zmax fr) as [zm|]; split.
  - intros (zf & zt & Hsome & Hf). revert Hsome.
    repeat match goal with
           | |- context [(?a >? ?b)%Z] => destruct (Z.gtb_spec a b)
           | |- context [(?a <=? ?b)%Z] => destruct (Z.leb_spec a b)
           | |- context [(?a <? ?b)%Z] => destruct (Z.ltb_spec a b)
           | |- context [(?a >=? ?b)%Z] => destruct (Z.geb_spec a b)
           end; intros Hsome; try discriminate; injection Hsome as <- <-; lia.
  - intros (Hf & Hlo & Hhi).
    repeat match goal with
           | |- context [(?a >? ?b)%Z] => destruct (Z.gtb_spec a b)
           | |- context [(?a <=? ?b)%Z] => destruct (Z.leb_spec a b)
           | |- context [(?a <? ?b)%Z] => destruct (Z.ltb_spec a b)
           | |- context [(?a >=? ?b)%Z] => destruct (Z.geb_spec a b)
           end; try lia; do 2 eexists; (split; [reflexivity | lia]).
  - intros (zf & zt & Hsome & Hf). revert Hsome.
    repeat match goal with
           | |- context [(?a >? ?b)%Z] => destruct (Z.gtb_spec a b)
           | |- context [(?a <=? ?b)%Z] => destruct (Z.leb_spec a b)
           | |- context [(?a <? ?b)%Z] => destruct (Z.ltb_spec a b)
           | |- context [(?a >=? ?b)%Z] => destruct (Z.geb_spec a b)
           end; intros Hsome; try discriminate; injection Hsome as <- <-; lia.
  - intros (Hf & Hlo & _).
    repeat match goal with
           | |- context [(?a >? ?b)%Z] => destruct (Z.gtb_spec a b)
           | |- context [(?a <=? ?b)%Z] => destruct (Z.leb_spec a b)
           | |- context [(?a <? ?b)%Z] => destruct (Z.ltb_spec a b)
           | |- context [(?a >=? ?b)%Z] => destruct (Z.geb_spec a b)
           end; try lia; do 2 eexists; (split; [reflexivity | lia]).
Qed.

(** X13. Every slice that the loop of [run] puts on the queue fits: it is
    a range of frames of its file that is not empty, and it lands in the
    buffer of the chunk, from plane [Zs + z_from - zmin] on, within the
    [zmax - zmin] planes of the buffer. *)
Theorem slices_fit_the_buffer :
  forall (fr : Fuser.FuseRunner) (zm : Z) (p : FuserTiles.put),
    Fuser.zmax fr = Some zm ->
    In p (FuserTiles.puts fr) ->
    exists row,
      In row (FileMatrix.data_frame (Fuser.fm fr))
      /\ FuserTiles.index p = FileMatrix.filename row
      /\ (0 <= FuserTiles.z_from p < FuserTiles.z_to p)%Z
      /\ (FuserTiles.z_to p <= FileMatrix.nfrms row)%Z
      /\ FuserTiles.top_left p
         = (FileMatrix.Zs row + FuserTiles.z_from p - Fuser.zmin fr,
            FileMatrix.Ys row, FileMatrix.Xs row)%Z
      /\ (0 <= FileMatrix.Zs row + FuserTiles.z_from p - Fuser.zmin fr)%Z
      /\ (FileMatrix.Zs row + FuserTiles.z_to p - Fuser.zmin fr
          <= Fuser.output_thickness fr)%Z
      /\ Fuser.output_thickness fr = (zm - Fuser.zmin fr)%Z.
Proof.
  intros fr zm p Hzm Hp. unfold FuserTiles.puts in Hp.
  apply in_flat_map in Hp as (row & Hrow & Hp). exists row.
  split; [exact Hrow|].
  assert (Hth : Fuser.output_thickness fr = (zm - Fuser.zmin fr)%Z).
  { unfold Fuser.output_thickness. rewrite Hzm. lia. }
  rewrite Hth. revert Hp. unfold Fuser.tile_frames. rewrite Hzm.
  repeat match goal with
         | |- context [(?a >? ?b)%Z] => destruct (Z.gtb_spec a b)
         | |- context [(?a <=? ?b)%Z] => destruct (Z.leb_spec a b)
         | |- context [(?a <? ?b)%Z] => destruct (Z.ltb_spec a b)
         | |- context [(?a >=? ?b)%Z] => destruct (Z.geb_spec a b)
         end; intros Hp; try (destruct Hp; fail);
    destruct Hp as [<-|[]]; simpl; repeat split; lia.
Qed.

Lemma slices_fit_the_buffer_witness :
  exists row,
    In row (FileMatrix.data_frame (Fuser.fm staggered_chunk))
    /\ "b"%string = FileMatrix.filename row
    /\ (0 <= 0 < 3)%Z
    /\ (3 <= FileMatrix.nfrms row)%Z
    /\ (1, 0, 80)%Z
       = (FileMatrix.Zs row + 0 - Fuser.zmin staggered_chunk,
          FileMatrix.Ys row, FileMatrix.Xs row)%Z
    /\ (0 <= FileMatrix.Zs row + 0 - Fuser.zmin staggered_chunk)%Z
    /\ (FileMatrix.Zs row + 3 - Fuser.zmin staggered_chunk
        <= Fuser.output_thickness staggered_chunk)%Z
    /\ Fuser.output_thickness staggered_chunk = (6 - Fuser.zmin staggered_chunk)%Z.
Proof.
  apply (slices_fit_the_buffer staggered_chunk 6%Z
           {| FuserTiles.index := "b"; FuserTiles.z_from := 0; FuserTiles.z_to := 3;
              FuserTiles.top_left := (1, 0, 80) |}%Z).
  - reflexivity.
  - vm_compute. right. left. reflexivity.
Defined.

(** X14. Over the whole of [run] every frame of a tile that lies in the
    output is read in exactly one chunk: for a table of distinct file
    names, an output of at least one frame and at least one frame in
    memory, the frames read from a tile, chunk after chunk, are without
    repetition and in increasing order its frames [f] with
    [zmin <= Zs + f < zmin + output_shape[0]]. *)
Theorem run_reads_each_frame_once :
  forall (fr : Fuser.FuseRunner) (n : Z) (row : FileMatrix.tile),
    (1 <= Fuser.output_thickness fr)%Z ->
    (1 <= n)%Z ->
    NoDup (map FileMatrix.filename (FileMatrix.data_frame (Fuser.fm fr))) ->
    In row (FileMatrix.data_frame (Fuser.fm fr)) ->
    exists chunks,
      FuserTiles.run fr n = inr chunks
      /\ frames_read (FileMatrix.filename row) chunks
         = frames_in row (Fuser.zmin fr) (Fuser.zmin fr + Fuser.output_thickness fr)
      /\ NoDup (frames_read (FileMatrix.filename row) chunks)
      /\ forall f,
          In f (frames_read (FileMatrix.filename row) chunks)
          <-> (0 <= f < FileMatrix.nfrms row
               /\ Fuser.zmin fr <= FileMatrix.Zs row + f
                  < Fuser.zmin fr + Fuser.output_thickness fr)%Z.
Proof.
  intros fr n row Ht Hn Hnd Hin.
  destruct (partial_thickness_spec (Fuser.output_thickness fr) n Ht Hn)
    as (ths & Hp & _ & Hsum & Hall).
  unfold FuserTiles.run. rewrite Hp. eexists. split; [reflexivity|].
  assert (E : frames_read (FileMatrix.filename row) (FuserTiles.run_puts ths fr)
              = frames_in row (Fuser.zmin fr)
                  (Fuser.zmin fr + Fuser.output_thickness fr)).
  { rewrite run_puts_frames, Hsum; auto.
    eapply Forall_impl; [|exact Hall]. simpl. intros; lia. }
  rewrite E. split; [reflexivity|]. split.
  - unfold frames_in. apply NoDup_frame_range.
  - intros f. apply in_frames_in.
Qed.

Lemma run_reads_each_frame_once_witness :
  exists chunks,
    FuserTiles.run staggered_whole 3 = inr chunks
    /\ frames_read (FileMatrix.filename staggered_b) chunks
       = frames_in staggered_b (Fuser.zmin staggered_whole)
           (Fuser.zmin staggered_whole + Fuser.output_thickness staggered_whole)
    /\ NoDup (frames_read (FileMatrix.filename staggered_b) chunks)
    /\ forall f,
        In f (frames_read (FileMatrix.filename staggered_b) chunks)
        <-> (0 <= f < FileMatrix.nfrms staggered_b
             /\ Fuser.zmin staggered_whole <= FileMatrix.Zs staggered_b + f
                < Fuser.zmin staggered_whole + Fuser.output_thickness staggered_whole)%Z.
Proof.
  apply (run_reads_each_frame_once staggered_whole 3%Z staggered_b).
  - vm_compute. discriminate.
  - lia.
  - simpl. repeat constructor; simpl; intuition discriminate.
  - simpl. right. left. reflexivity.
Defined.

(** ** The bounds of the optimisation problem *)

Section Bounds.
Import TileDisplacementLeastSquares.

Lemma length_list_mul (A : Type) :
  forall (l : list A) n, length (list_mul l n) = (n * length l)%nat.
Proof.
  intros l n. unfold list_mul. induction n as [|n IH]; [reflexivity|].
  simpl. rewrite length_app, IH. reflexivity.
Qed.

Lemma list_mul_S (A : Type) :
  forall (l : list A) n, list_mul l (S n) = l ++ list_mul l n.
Proof. reflexivity. Qed.

Lemma skipn_list_mul (A : Type) :
  forall (l : list A) k n,
    skipn (k * length l) (list_mul l n) = list_mul l (n - k).
Proof.
  intros l. induction k as [|k IH]; intros n.
  - simpl. rewrite Nat.sub_0_r. reflexivity.
  - destruct n as [|n].
    + simpl. apply skipn_nil.
    + rewrite list_mul_S. simpl Nat.mul. rewrite skipn_app.
      rewrite skipn_all2 by lia.
      replace (length l + k * length l - length l)%nat with (k * length l)%nat by lia.
      rewrite IH. reflexivity.
Qed.

(** The bounds, tile after tile. *)
Lemma bounds_of (lo lo1 : list Z) :
  length lo = 3 -> length lo1 = 3 ->
  forall ysize xsize,
    1 <= ysize -> 1 <= xsize ->
    set_slice 3 (3 * xsize) (list_mul lo1 (xsize - 1))
      (set_slice 0 3 [0; 0; 0]%Z (list_mul lo (ysize * xsize)))
    = [0; 0; 0]%Z ++ list_mul lo1 (xsize - 1)
      ++ list_mul lo (ysize * xsize - xsize).
Proof.
  intros Hlo Hlo1 ysize xsize Hy Hx.
  assert (Hn : exists n, ysize * xsize = S n /\ xsize - 1 <= n).
  { exists (ysize * xsize - 1). nia. }
  destruct Hn as (n & En & Hle). rewrite En.
  assert (E1 : set_slice 0 3 [0; 0; 0]%Z (list_mul lo (S n))
               = (0 :: 0 :: 0 :: list_mul lo n)%Z).
  { unfold set_slice. cbn [firstn Nat.max app]. do 3 f_equal.
    rewrite <- Hlo. replace (length lo) with (1 * length lo) at 1 by lia.
    rewrite skipn_list_mul. f_equal. lia. }
  rewrite E1. unfold set_slice.
  replace (Nat.max 3 (3 * xsize)) with (S (S (S ((xsize - 1) * length lo)))) by lia.
  cbn [firstn skipn app]. do 3 f_equal.
  rewrite skipn_list_mul. do 2 f_equal. lia.
Qed.

Lemma Forall2_list_mul (R : Z -> Z -> Prop) :
  forall l l' n, Forall2 R l l' -> Forall2 R (list_mul l n) (list_mul l' n).
Proof.
  intros l l' n H. induction n as [|n IH]; [constructor|].
  rewrite !list_mul_S. apply Forall2_app; assumption.
Qed.

Lemma firstn_skipn_list_mul (A : Type) :
  forall (l rest : list A) k n,
    k < n ->
    firstn (length l) (skipn (k * length l) (list_mul l n ++ rest)) = l.
Proof.
  intros l rest k n H. rewrite skipn_app, skipn_list_mul, length_list_mul.
  replace (k * length l - n * length l) with 0 by nia. simpl skipn.
  destruct (n - k) as [|m] eqn:E; [lia|].
  rewrite list_mul_S, <- app_assoc, firstn_app, Nat.sub_diag, firstn_all.
  simpl. apply app_nil_r.
Qed.
End Bounds.

(** X15. The bounds that [get_bounds] gives a mosaic of [ysize >= 1] rows
    and [xsize >= 1] columns are a box for the decision vector: both lists
    have three items per tile, every lower bound is at most the upper
    bound, the first tile is pinned to 0, the other tiles of the first row
    may be displaced by 400 to 512 along the third component, and the tiles
    of the other rows by 400 to 512 along the second. *)
Theorem get_bounds_is_a_box :
  forall ysize xsize c : nat,
    1 <= ysize -> 1 <= xsize ->
    let bounds := TileDisplacementLeastSquares.get_bounds (ysize, xsize, c) in
    length (fst bounds) = 3 * (ysize * xsize)
    /\ length (snd bounds) = 3 * (ysize * xsize)
    /\ Forall2 Z.le (fst bounds) (snd bounds)
    /\ tile_bounds bounds 0 = ([0; 0; 0], [0; 0; 0])%Z
    /\ (forall k, 1 <= k < xsize ->
                  tile_bounds bounds k = ([-10; -30; 400], [10; 30; 512])%Z)
    /\ (forall k, xsize <= k < ysize * xsize ->
                  tile_bounds bounds k = ([-10; 400; -30], [10; 512; 30])%Z).
Proof.
  intros ysize xsize c Hy Hx bounds.
  assert (Emin : fst bounds
                 = [0; 0; 0]%Z
                   ++ TileDisplacementLeastSquares.list_mul [-10; -30; 400]%Z (xsize - 1)
                   ++ TileDisplacementLeastSquares.list_mul [-10; 400; -30]%Z
                        (ysize * xsize - xsize)).
  { apply bounds_of; auto. }
  assert (Emax : snd bounds
                 = [0; 0; 0]%Z
                   ++ TileDisplacementLeastSquares.list_mul [10; 30; 512]%Z (xsize - 1)
                   ++ TileDisplacementLeastSquares.list_mul [10; 512; 30]%Z
                        (ysize * xsize - xsize)).
  { apply bounds_of; auto. }
  assert (Hlayout : forall lo1 lo : list Z,
             length lo1 = 3 -> length lo = 3 ->
             let l := [0; 0; 0]%Z
                      ++ TileDisplacementLeastSquares.list_mul lo1 (xsize - 1)
                      ++ TileDisplacementLeastSquares.list_mul lo (ysize * xsize - xsize) in
             length l = 3 * (ysize * xsize)
             /\ firstn 3 (skipn (3 * 0) l) = [0; 0; 0]%Z
             /\ (forall k, 1 <= k < xsize -> firstn 3 (skipn (3 * k) l) = lo1)
             /\ (forall k, xsize <= k < ysize * xsize -> firstn 3 (skipn (3 * k) l) = lo)).
  { intros lo1 lo H1 H0 l. subst l. split; [|split; [reflexivity|split]].
    - rewrite !length_app, !length_list_mul, H1, H0. simpl. nia.
    - intros k Hk. replace (3 * k) with (S (S (S ((k - 1) * length lo1)))) by lia.
      cbn [app skipn]. rewrite <- H1 at 1.
      apply firstn_skipn_list_mul. lia.
    - intros k Hk. replace (3 * k) with (S (S (S ((xsize - 1) * 3 + (k - xsize) * length lo)))) by lia.
      cbn [app skipn]. rewrite skipn_app.
      rewrite skipn_all2 by (rewrite length_list_mul; lia).
      rewrite length_list_mul, H1.
      replace ((xsize - 1) * 3 + (k - xsize) * length lo - (xsize - 1) * 3)
        with ((k - xsize) * length lo) by lia.
      simpl app. rewrite <- H0 at 1.
      rewrite <- (app_nil_r (TileDisplacementLeastSquares.list_mul lo _)).
      apply firstn_skipn_list_mul. lia. }
  destruct (Hlayout [-10; -30; 400]%Z [-10; 400; -30]%Z eq_refl eq_refl)
    as (L1 & Z1 & R1 & O1).
  destruct (Hlayout [10; 30; 512]%Z [10; 512; 30]%Z eq_refl eq_refl)
    as (L2 & Z2 & R2 & O2).
  unfold tile_bounds. rewrite Emin, Emax.
  split; [exact L1|]. split; [exact L2|]. split.
  - apply Forall2_app; [|apply Forall2_app]; try apply Forall2_list_mul;
      repeat (constructor; [lia|]); constructor.
  - split; [rewrite Z1, Z2; reflexivity|]. split.
    + intros k Hk. rewrite (R1 k Hk), (R2 k Hk). reflexivity.
    + intros k Hk. rewrite (O1 k Hk), (O2 k Hk). reflexivity.
Qed.

Lemma get_bounds_is_a_box_witness :
  let bounds := TileDisplacementLeastSquares.get_bounds (2, 2, 3) in
  length (fst bounds) = 3 * (2 * 2)
  /\ length (snd bounds) = 3 * (2 * 2)
  /\ Forall2 Z.le (fst bounds) (snd bounds)
  /\ tile_bounds bounds 0 = ([0; 0; 0], [0; 0; 0])%Z
  /\ (forall k, 1 <= k < 2 ->
                tile_bounds bounds k = ([-10; -30; 400], [10; 30; 512])%Z)
  /\ (forall k, 2 <= k < 2 * 2 ->
                tile_bounds bounds k = ([-10; 400; -30], [10; 512; 30])%Z).
Proof. apply (get_bounds_is_a_box 2 2 3); lia. Defined.

(** ** The tile coordinates as sums of displacements *)

Section RunningSums.
Import Np.
Local Open Scope Z_scope.

Variable A : Type.
Variable add : A -> A -> A.
Variable valid : A -> Prop.
Variable pi : A -> Z.
Variable d : A.
Hypothesis Hadd : forall a b, valid a -> valid b -> pi (add a b) = pi a + pi b.
Hypothesis Hvalid : forall a b, valid a -> valid b -> valid (add a b).

Lemma nth_cumsum_from :
  forall l acc i,
    valid acc -> Forall valid l -> (i < length l)%nat ->
    pi (nth i (cumsum_from add acc l) d)
    = pi acc + sum_Z (map (fun k => pi (nth k l d)) (seq 0 (S i))).
Proof.
  induction l as [|a l IH]; intros acc i Hacc Hl Hi; [simpl in Hi; lia|].
  inversion Hl as [|? ? Ha Hl']; subst.
  destruct i as [|i].
  - simpl. rewrite Hadd by assumption. lia.
  - cbn [cumsum_from nth]. rewrite IH; [|apply Hvalid; assumption|assumption|simpl in Hi; lia].
    rewrite Hadd by assumption.
    change (seq 0 (S (S i))) with (0%nat :: seq 1 (S i)).
    rewrite <- (seq_shift (S i) 0). cbn [map]. rewrite map_map.
    unfold sum_Z. cbn [fold_right nth]. lia.
Qed.

Lemma nth_cumsum :
  forall l i,
    Forall valid l -> (i < length l)%nat ->
    pi (nth i (cumsum add l) d)
    = sum_Z (map (fun k => pi (nth k l d)) (seq 0 (S i))).
Proof.
  intros [|a l] i Hl Hi; [simpl in Hi; lia|].
  inversion Hl as [|? ? Ha Hl']; subst.
  destruct i as [|i]; [simpl; lia|].
  cbn [cumsum nth]. rewrite nth_cumsum_from; [|assumption..|simpl in Hi; lia].
  change (seq 0 (S (S i))) with (0%nat :: seq 1 (S i)).
  rewrite <- (seq_shift (S i) 0). cbn [map]. rewrite map_map.
  unfold sum_Z. cbn [fold_right nth]. reflexivity.
Qed.
End RunningSums.

Section TileCoordinates.
Import Np GlobalOptimization.
Local Open Scope Z_scope.

Lemma nth_concat_uniform (A : Type) (k : nat) :
  forall (l : list (list A)) i r d,
    Forall (fun x => length x = k) l -> (r < k)%nat -> (i < length l)%nat ->
    nth (i * k + r) (concat l) d = nth r (nth i l []) d.
Proof.
  induction l as [|a l IH]; intros i r d Hl Hr Hi; [simpl in Hi; lia|].
  inversion Hl as [|? ? Ha Hl']; subst. simpl concat.
  destruct i as [|i].
  - simpl. apply app_nth1. lia.
  - rewrite app_nth2 by (simpl; lia).
    replace (S i * length a + r - length a)%nat with (i * length a + r)%nat by (simpl; lia).
    simpl nth. apply IH; [assumption | assumption | simpl in Hi; lia].
Qed.

Lemma length_concat_uniform (A : Type) (k : nat) :
  forall l : list (list A),
    Forall (fun x => length x = k) l -> length (concat l) = (length l * k)%nat.
Proof.
  induction 1 as [|a l Ha _ IH]; [reflexivity|].
  simpl. rewrite length_app, IH, Ha. reflexivity.
Qed.

Lemma nth_zip_with_add :
  forall (a b : array1) c,
    length a = length b ->
    nth c (zip_with Z.add a b) 0 = nth c a 0 + nth c b 0.
Proof.
  induction a as [|x a IH]; intros [|y b] c H; simpl in *; try discriminate.
  - destruct c; reflexivity.
  - destruct c as [|c]; [reflexivity|]. apply IH. lia.
Qed.

Lemma nth_zip_with_add1 :
  forall (a b : array2) j,
    length a = length b ->
    nth j (zip_with add1 a b) [] = add1 (nth j a []) (nth j b []).
Proof.
  induction a as [|x a IH]; intros [|y b] j H; simpl in *; try discriminate.
  - destruct j; reflexivity.
  - destruct j as [|j]; [reflexivity|]. apply IH. lia.
Qed.

Lemma rect2_add2 :
  forall n c a b, rect2 n c a -> rect2 n c b -> rect2 n c (add2 a b).
Proof.
  intros n c a b Ha Hb.
  pose proof (rect2_same_shape2 n c a b Ha Hb) as Hs.
  destruct Hb as [Lb Fb]. split.
  - unfold add2. rewrite length_zip_with; [assumption|]. destruct Ha. congruence.
  - apply same_shape2_add2 in Hs. unfold same_shape2 in Hs.
    revert Hs Fb. generalize (add2 a b) as m. clear. intros m Hs.
    induction Hs as [|r1 r2 m1 m2 Hr _ IH]; intros Fb; constructor;
      inversion Fb; subst; auto.
Qed.

Lemma nth_rect2 :
  forall n c m j, rect2 n c m -> (j < n)%nat -> length (nth j m []) = c.
Proof.
  intros n c m j [L F] Hj. rewrite Forall_forall in F. apply F, nth_In. lia.
Qed.

Variables ysize xsize : nat.
Variable x : array1.
Hypothesis Hy : (0 < ysize)%nat.
Hypothesis Hx : length x = (ysize * xsize * 3)%nat.

(** The reshaped decision vector, item by item. *)
Lemma reshape3_items :
  exists t0,
    reshape3 x (ysize, xsize, 3%nat) = inr t0
    /\ length t0 = ysize
    /\ Forall (rect2 xsize 3) t0
    /\ forall i j c,
        (i < ysize)%nat -> (j < xsize)%nat -> (c < 3)%nat ->
        at3 t0 i j c = at_flat x xsize 3 i j c.
Proof.
  destruct (reshape3_spec x ysize xsize 3 Hx) as (t0 & Hr & Hf & Hl & Hrect).
  exists t0. split; [exact Hr|]. split; [exact Hl|]. split; [exact Hrect|].
  intros i j c Hi Hj Hc. unfold at3, at_flat. rewrite <- Hf. unfold flatten3.
  replace ((i * xsize + j) * 3 + c)%nat with (i * (xsize * 3) + (j * 3 + c))%nat by lia.
  rewrite (nth_concat_uniform _ (xsize * 3)).
  - replace (nth i (map (@concat Z) t0) []) with (concat (nth i t0 [])).
    + symmetry. apply nth_concat_uniform; [|assumption|].
      * rewrite Forall_forall in Hrect.
        destruct (Hrect (nth i t0 [])) as [_ F]; [apply nth_In; lia | exact F].
      * rewrite Forall_forall in Hrect.
        destruct (Hrect (nth i t0 [])) as [L _]; [apply nth_In; lia|].
        exact (eq_ind_r (fun n => (j < n)%nat) Hj L).
    + change [] with (@concat Z []) at 2. symmetry. apply map_nth.
  - apply Forall_forall. intros r Hr'. apply in_map_iff in Hr' as (m & <- & Hm).
    rewrite Forall_forall in Hrect. destruct (Hrect m Hm) as [L F].
    etransitivity; [apply (length_concat_uniform _ 3%nat m F)|].
    exact (f_equal (fun n => (n * 3)%nat) L).
  - nia.
  - rewrite length_map. exact (eq_ind_r (fun n => (i < n)%nat) Hi Hl).
Qed.
End TileCoordinates.

(** X16. The tile coordinates as sums of displacements: for a mosaic of
    [ysize >= 1] rows and [xsize] columns, component [c] of the coordinate
    that [decision_vector_to_tile_coords] gives the tile of row [i] and
    column [j] is the sum of the displacements of the tiles of row 0 up to
    column [j], plus the sum of the displacements of the tiles of column
    [j] from row 1 down to row [i]. *)
Theorem tile_coordinates_are_sums :
  forall (x : Np.array1) (ysize xsize : nat),
    0 < ysize ->
    length x = ysize * xsize * 3 ->
    exists x' t,
      GlobalOptimization.decision_vector_to_tile_coords x (ysize, xsize, 3) = inr (x', t)
      /\ forall i j c,
          i < ysize -> j < xsize -> c < 3 ->
          at3 t i j c
          = (sum_Z (map (fun k => at_flat x xsize 3 0 k c) (seq 0 (S j)))
             + sum_Z (map (fun k => at_flat x xsize 3 k j c) (seq 1 i)))%Z.
Proof.
  intros x ysize xsize Hy Hx.
  destruct (reshape3_items ysize xsize x Hy Hx) as (t0 & Hr & Hl & Hrect & Hitems).
  unfold GlobalOptimization.decision_vector_to_tile_coords. rewrite Hr.
  destruct t0 as [|row0 rows]; [simpl in Hl; lia|].
  do 2 eexists. split; [reflexivity|].
  intros i j c Hi Hj Hc.
  inversion Hrect as [|? ? Hrow0 Hrows]; subst.
  assert (Hrow0' : rect2 xsize 3 (Np.cumsum Np.add1 row0)) by (apply rect2_cumsum1; exact Hrow0).
  unfold at3.
  rewrite (nth_cumsum Np.array2 Np.add2 (rect2 xsize 3)
             (fun m => nth c (nth j m []) 0%Z) []).
  - change (seq 0 (S i)) with (0 :: seq 1 i). cbn [map sum_Z fold_right nth].
    f_equal.
    + rewrite (nth_cumsum Np.array1 Np.add1 (fun r => length r = 3)
                 (fun r => nth c r 0%Z) []).
      * unfold sum_Z. f_equal. apply map_ext_in. intros k Hk. apply in_seq in Hk.
        apply (Hitems 0 k c); simpl in *; lia.
      * intros a b Ha Hb. apply nth_zip_with_add. congruence.
      * intros a b Ha Hb. unfold Np.add1. rewrite length_zip_with; congruence.
      * destruct Hrow0 as [_ F]. exact F.
      * destruct Hrow0 as [L _]. rewrite L. exact Hj.
    + unfold sum_Z. f_equal. apply map_ext_in. intros k Hk. apply in_seq in Hk.
      destruct k as [|k]; [lia|]. cbn [nth].
      apply (Hitems (S k) j c); simpl in *; lia.
  - intros a b Ha Hb. unfold Np.add2.
    rewrite nth_zip_with_add1 by (destruct Ha, Hb; congruence).
    apply nth_zip_with_add.
    rewrite (nth_rect2 _ _ _ _ Ha Hj), (nth_rect2 _ _ _ _ Hb Hj). reflexivity.
  - apply rect2_add2.
  - constructor; assumption.
  - simpl in *. lia.
Qed.

Lemma tile_coordinates_are_sums_witness :
  exists x' t,
    GlobalOptimization.decision_vector_to_tile_coords
      [0; 0; 0; 1; 20; 450; 2; 440; 25; 3; 445; 30]%Z (2, 2, 3) = inr (x', t)
    /\ forall i j c,
        i < 2 -> j < 2 -> c < 3 ->
        at3 t i j c
        = (sum_Z (map (fun k => at_flat [0; 0; 0; 1; 20; 450; 2; 440; 25; 3; 445; 30]%Z
                                  2 3 0 k c) (seq 0 (S j)))
           + sum_Z (map (fun k => at_flat [0; 0; 0; 1; 20; 450; 2; 440; 25; 3; 445; 30]%Z
                                    2 3 k j c) (seq 1 i)))%Z.
Proof.
  apply (tile_coordinates_are_sums [0; 0; 0; 1; 20; 450; 2; 440; 25; 3; 445; 30]%Z 2 2).
  - lia.
  - reflexivity.
Defined.

Section InPlace.
Import Np GlobalOptimization.
Local Open Scope Z_scope.

End InPlace.



(** ** The generators of the groups of tiles *)

Section Generators.
Import TileGroups.

Variable fm : FileMatrix.FileMatrix.

Lemma iterate_after_groups :
  forall sent rest fuel,
    2 <= fuel ->
    iterate (along_next fm sent) fuel (along_from (dir_groups [] rest))
    = Some (after_first_slice rest).
Proof.
  intros sent rest fuel Hf. destruct fuel as [|[|fuel]]; try lia.
  destruct rest as [|s rest]; reflexivity.
Qed.

Lemma iterate_groups :
  forall sent groups rest fuel,
    length groups + 2 <= fuel ->
    iterate (along_next fm sent) fuel (along_from (dir_groups groups rest))
    = Some (map Some groups ++ fst (after_first_slice rest),
            snd (after_first_slice rest)).
Proof.
  intros sent. induction groups as [|g groups IH]; intros rest fuel Hf.
  - rewrite iterate_after_groups by (simpl in Hf; lia).
    destruct (after_first_slice rest). reflexivity.
  - destruct fuel as [|fuel]; [simpl in Hf; lia|].
    cbn [iterate along_next dir_send]. rewrite IH by (simpl in Hf; lia).
    reflexivity.
Qed.

(** The loop over the generator, when the table has slices and the first
    one has groups. *)
Lemma iterate_along :
  forall sent s rest g groups fuel,
    FileMatrix.slices fm = Some (inr (s :: rest)) ->
    groups_of fm s sent = g :: groups ->
    length groups + 3 <= fuel ->
    iterate (along_next fm sent) fuel along_start
    = Some (map Some (g :: groups) ++ fst (after_first_slice rest),
            snd (after_first_slice rest)).
Proof.
  intros sent s rest g groups fuel Hs Hg Hf.
  destruct fuel as [|fuel]; [lia|].
  cbn [iterate along_next dir_send]. rewrite Hs. cbn [dir_loop dir_send].
  destruct sent as [by' key]. unfold groups_of in Hg. simpl fst in Hg. simpl snd in Hg.
  rewrite Hg. rewrite iterate_groups by lia. reflexivity.
Qed.
End Generators.

(** ** Sorting and grouping the rows of a table *)

Section Pandas.
Import Pd.
Local Open Scope Z_scope.

Lemma lex_le_total :
  forall by' a b, lex_le by' a b = false -> lex_le by' b a = true.
Proof.
  induction by' as [|k by' IH]; intros a b H; simpl in *; [discriminate|].
  destruct (Z.ltb_spec (k a) (k b)); [discriminate|].
  destruct (Z.eqb_spec (k a) (k b)) as [E|E].
  - rewrite E, Z.ltb_irrefl, Z.eqb_refl. apply IH, H.
  - destruct (Z.ltb_spec (k b) (k a)); [reflexivity | lia].
Qed.

Lemma lex_le_trans :
  forall by' a b c,
    lex_le by' a b = true -> lex_le by' b c = true -> lex_le by' a c = true.
Proof.
  induction by' as [|k by' IH]; intros a b c H1 H2; simpl in *; [reflexivity|].
  destruct (Z.ltb_spec (k a) (k b)), (Z.ltb_spec (k b) (k c)),
    (Z.ltb_spec (k a) (k c)); try reflexivity; try lia;
    destruct (Z.eqb_spec (k a) (k b)), (Z.eqb_spec (k b) (k c)),
      (Z.eqb_spec (k a) (k c)); try discriminate; try lia.
  eapply IH; eassumption.
Qed.

Lemma insert_perm :
  forall by' a l, Permutation (insert by' a l) (a :: l).
Proof.
  intros by' a. induction l as [|b l IH]; simpl; [apply Permutation_refl|].
  destruct (lex_le by' a b); [apply Permutation_refl|].
  apply perm_trans with (b :: a :: l); [apply perm_skip, IH | apply perm_swap].
Qed.

Lemma sort_values_perm :
  forall by' df, Permutation (sort_values by' df) df.
Proof.
  intros by'. induction df as [|a df IH]; simpl; [constructor|].
  apply perm_trans with (a :: sort_values by' df);
    [apply insert_perm | apply perm_skip, IH].
Qed.

Lemma insert_sorted_rows :
  forall by' a l, ordered_by by' l -> ordered_by by' (insert by' a l).
Proof.
  intros by' a. unfold ordered_by.
  induction l as [|b l IH]; intros Hl; simpl.
  - constructor; constructor.
  - inversion Hl as [|? ? Hs Hb]; subst.
    destruct (lex_le by' a b) eqn:E.
    + constructor; [exact Hl|]. constructor; [exact E|].
      rewrite Forall_forall in *. intros x Hx.
      apply lex_le_trans with b; [exact E | apply Hb, Hx].
    + constructor; [apply IH, Hs|].
      rewrite Forall_forall in *. intros x Hx.
      apply (Permutation_in _ (insert_perm by' a l)) in Hx.
      destruct Hx as [<-|Hx]; [apply lex_le_total, E | apply Hb, Hx].
Qed.

Lemma sort_values_sorted :
  forall by' df, ordered_by by' (sort_values by' df).
Proof.
  intros by'. induction df as [|a df IH]; simpl; [constructor|].
  apply insert_sorted_rows, IH.
Qed.

Lemma insert_Z_perm : forall v l, Permutation (insert_Z v l) (v :: l).
Proof.
  intros v. induction l as [|w l IH]; simpl; [apply Permutation_refl|].
  destruct (v <=? w); [apply Permutation_refl|].
  apply perm_trans with (w :: v :: l); [apply perm_skip, IH | apply perm_swap].
Qed.

Lemma sort_Z_perm : forall l, Permutation (fold_right insert_Z [] l) l.
Proof.
  induction l as [|a l IH]; simpl; [constructor|].
  apply perm_trans with (a :: fold_right insert_Z [] l);
    [apply insert_Z_perm | apply perm_skip, IH].
Qed.

Lemma insert_Z_sorted :
  forall v l, StronglySorted Z.le l -> StronglySorted Z.le (insert_Z v l).
Proof.
  intros v. induction l as [|w l IH]; intros Hl; simpl.
  - constructor; constructor.
  - inversion Hl as [|? ? Hs Hw]; subst.
    destruct (Z.leb_spec v w).
    + constructor; [exact Hl|]. constructor; [assumption|].
      rewrite Forall_forall in *. intros x Hx. specialize (Hw x Hx). lia.
    + constructor; [apply IH, Hs|].
      rewrite Forall_forall in *. intros x Hx.
      apply (Permutation_in _ (insert_Z_perm v l)) in Hx.
      destruct Hx as [<-|Hx]; [lia | apply Hw, Hx].
Qed.

Lemma sort_Z_sorted : forall l, StronglySorted Z.le (fold_right insert_Z [] l).
Proof.
  induction l as [|a l IH]; simpl; [constructor | apply insert_Z_sorted, IH].
Qed.

Variable key : column.

Lemma group_keys_spec :
  forall df,
    NoDup (group_keys key df)
    /\ (forall v, In v (group_keys key df) <-> In v (map key df))
    /\ StronglySorted Z.lt (group_keys key df).
Proof.
  intros df. unfold group_keys.
  set (vs := nodup Z.eq_dec (map key df)).
  assert (Hnd : NoDup (fold_right insert_Z [] vs)).
  { apply (Permutation_NoDup (Permutation_sym (sort_Z_perm vs))).
    apply NoDup_nodup. }
  split; [exact Hnd|]. split.
  - intros v. split; intros H.
    + apply (Permutation_in _ (sort_Z_perm _)) in H.
      unfold vs in H. apply nodup_In in H. exact H.
    + apply (Permutation_in _ (Permutation_sym (sort_Z_perm _))).
      unfold vs. apply nodup_In. exact H.
  - pose proof (sort_Z_sorted vs) as Hs. revert Hnd Hs.
    generalize (fold_right insert_Z [] vs) as l. clear.
    induction l as [|a l IH]; intros Hnd Hs; constructor.
    + inversion Hnd; inversion Hs; subst. apply IH; assumption.
    + inversion Hnd as [|? ? Hn _]; inversion Hs as [|? ? _ Hle]; subst.
      rewrite Forall_forall in *. intros x Hx. specialize (Hle x Hx).
      assert (x <> a) by (intros ->; contradiction). lia.
Qed.

Lemma concat_groups_perm :
  forall (vs : list Z) (l : list FileMatrix.tile),
    NoDup vs ->
    (forall t, In t l -> In (key t) vs) ->
    Permutation (concat (map (fun v => filter (fun t => key t =? v) l) vs)) l.
Proof.
  induction vs as [|v vs IH]; intros l Hnd Hin.
  - destruct l as [|t l]; [constructor|]. destruct (Hin t (or_introl eq_refl)).
  - inversion Hnd as [|? ? Hv Hnd']; subst. simpl.
    apply perm_trans with
      (filter (fun t => key t =? v) l ++ filter (fun t => negb (key t =? v)) l).
    + apply Permutation_app_head.
      replace (map (fun v0 => filter (fun t => key t =? v0) l) vs)
        with (map (fun v0 => filter (fun t => key t =? v0)
                                    (filter (fun t => negb (key t =? v)) l)) vs).
      * apply IH; [exact Hnd'|]. intros t Ht. apply filter_In in Ht as [Ht Hne].
        destruct (Hin t Ht) as [E|H]; [|exact H].
        rewrite E, Z.eqb_refl in Hne. discriminate.
      * apply map_ext_in. intros v0 Hv0.
        induction l as [|t l IHl]; [reflexivity|]. simpl.
        destruct (Z.eqb_spec (key t) v) as [E|E]; simpl.
        -- destruct (Z.eqb_spec (key t) v0) as [E0|_].
           ++ exfalso. apply Hv. congruence.
           ++ apply IHl. intros t' Ht'. apply Hin. right. exact Ht'.
        -- destruct (key t =? v0); [f_equal|]; apply IHl;
             intros t' Ht'; apply Hin; right; exact Ht'.
    + clear. induction l as [|t l IH]; [constructor|]. simpl.
      destruct (key t =? v); simpl.
      * apply perm_skip, IH.
      * apply Permutation_sym, Permutation_cons_app, Permutation_sym, IH.
Qed.

(** The groups of [groupby]: they hold every row once, none is empty, the
    rows of a group have its key, and keep the order of the table. *)
Lemma groupby_spec :
  forall by' df,
    ordered_by by' df ->
    let groups := map snd (groupby key df) in
    Permutation (concat groups) df
    /\ Forall (fun g => g <> [] /\ same_key key g /\ ordered_by by' g) groups
    /\ StronglySorted Z.lt (keys_of key groups)
    /\ (df <> [] -> groups <> []).
Proof.
  intros by' df Hsorted groups. subst groups. unfold groupby. rewrite map_map. simpl.
  destruct (group_keys_spec df) as (Hnd & Hin & Hs).
  split; [|split; [|split]].
  - apply concat_groups_perm; [exact Hnd|].
    intros t Ht. apply Hin, in_map, Ht.
  - apply Forall_forall. intros g Hg. apply in_map_iff in Hg as (v & <- & Hv).
    split; [|split].
    + apply Hin, in_map_iff in Hv as (t & E & Ht). intros Hnil.
      assert (H : In t (filter (fun t0 => key t0 =? v) df)).
      { apply filter_In. split; [exact Ht|]. apply Z.eqb_eq, E. }
      rewrite Hnil in H. destruct H.
    + exists v. apply Forall_forall. intros t Ht.
      apply filter_In in Ht as [_ Ht]. apply Z.eqb_eq, Ht.
    + unfold ordered_by in *. clear -Hsorted.
      induction Hsorted as [|a l Hl IH Ha]; simpl; [constructor|].
      destruct (key a =? v); [|exact IH]. constructor; [exact IH|].
      rewrite Forall_forall in *. intros x Hx. apply filter_In in Hx as [Hx _].
      apply Ha, Hx.
  - unfold keys_of. rewrite map_map.
    replace (map _ (group_keys key df)) with (group_keys key df); [exact Hs|].
    rewrite <- (map_id (group_keys key df)) at 1. apply map_ext_in.
    intros v Hv. apply Hin, in_map_iff in Hv as (t & E & Ht).
    assert (H : In t (filter (fun t0 => key t0 =? v) df)).
    { apply filter_In. split; [exact Ht|]. apply Z.eqb_eq, E. }
    destruct (filter (fun t0 => key t0 =? v) df) as [|t0 g] eqn:Ef; [destruct H|].
    assert (H0 : In t0 (filter (fun t0 => key t0 =? v) df)) by (rewrite Ef; left; reflexivity).
    apply filter_In in H0 as [_ H0]. apply Z.eqb_eq in H0. congruence.
  - intros Hne Hnil. apply map_eq_nil in Hnil.
    destruct df as [|t df]; [congruence|].
    assert (H : In (key t) (group_keys key (t :: df))) by (apply Hin; left; reflexivity).
    rewrite Hnil in H. destruct H.
Qed.
End Pandas.

Section FirstSlice.
Import Nx.

Variable fm : FileMatrix.FileMatrix.
Let df := FileMatrix.data_frame fm.

(** The slices are the subgraphs of the components of the graph of
    [slices], which has the file names for nodes. *)
Lemma slices_run :
  exists (G : Graph unit) comps,
    FileMatrix.slices fm = Some (inr (map (subgraph G) comps))
    /\ NoDup (nodes G)
    /\ (forall x, In x (nodes G) <-> In x (map FileMatrix.filename df))
    /\ (forall x, In x (concat comps) <-> In x (nodes G))
    /\ Forall (fun c => exists u, In u c /\ In u (nodes G)) comps.
Proof.
  unfold FileMatrix.slices. fold df.
  destruct (slices_graph_spec df) as (G & HG & Hwf & Hnodes & _).
  rewrite HG.
  destruct (connected_components_spec unit G Hwf)
    as (comps & Hrun & _ & Hall & Hcomp).
  unfold connected_component_subgraphs. rewrite Hrun. simpl.
  exists G, comps. split; [reflexivity|]. split; [destruct Hwf; assumption|].
  split; [exact Hnodes|]. split; [exact Hall|].
  eapply Forall_impl; [|exact Hcomp]. simpl.
  intros c (u & Hu & Hin & _). exists u. tauto.
Qed.

Lemma loc_nonempty :
  forall labels u,
    In u labels -> In u (map FileMatrix.filename df) -> Pd.loc df labels <> [].
Proof.
  intros labels u Hu Hin E. apply in_map_iff in Hin as (t & Ht & Hin).
  assert (H : In t (Pd.loc df labels)).
  { unfold Pd.loc. apply in_flat_map. exists u. split; [exact Hu|].
    apply filter_In. split; [exact Hin|]. apply String.eqb_eq, Ht. }
  rewrite E in H. destruct H.
Qed.

Lemma loc_all :
  forall l : list FileMatrix.tile,
    NoDup (map FileMatrix.filename l) ->
    Pd.loc l (map FileMatrix.filename l) = l.
Proof.
  induction l as [|t l IH]; intros Hnd; [reflexivity|].
  simpl in Hnd. inversion Hnd as [|? ? Hn Hnd']; subst.
  unfold Pd.loc. cbn [map flat_map filter]. rewrite String.eqb_refl.
  assert (E1 : filter (fun t0 => String.eqb (FileMatrix.filename t0)
                                            (FileMatrix.filename t)) l = []).
  { clear -Hn. induction l as [|a l IHl]; [reflexivity|]. simpl.
    destruct (String.eqb_spec (FileMatrix.filename a) (FileMatrix.filename t)) as [E|_].
    - exfalso. apply Hn. left. exact E.
    - apply IHl. intros H. apply Hn. right. exact H. }
  rewrite E1. simpl. f_equal. rewrite <- (IH Hnd') at 2. unfold Pd.loc.
  rewrite !flat_map_concat_map. f_equal. apply map_ext_in.
  intros n Hin. simpl.
  destruct (String.eqb_spec (FileMatrix.filename t) n) as [E|_]; [|reflexivity].
  exfalso. apply Hn. rewrite E. exact Hin.
Qed.

(** The first slice has rows, hence groups. *)
Lemma first_slice_groups :
  forall s rest sent,
    FileMatrix.slices fm = Some (inr (s :: rest)) ->
    groups_of fm s sent <> [].
Proof.
  intros s rest sent Hs.
  destruct slices_run as (G & comps & Hrun & Hnd & Hnodes & Hall & Hcomp).
  rewrite Hrun in Hs. injection Hs as Hs.
  destruct comps as [|c comps]; [discriminate|]. injection Hs as <- _.
  inversion Hcomp as [|? ? (u & Huc & Hu) _]; subst.
  unfold groups_of.
  apply (groupby_spec (snd sent) (fst sent)); [apply sort_values_sorted|].
  intros E.
  apply (loc_nonempty (nodes (subgraph G c)) u).
  - rewrite nodes_subgraph. apply filter_In. split; [exact Hu | apply mem_In, Huc].
  - apply Hnodes, Hu.
  - pose proof (sort_values_perm (fst sent)
                  (Pd.loc (FileMatrix.data_frame fm) (nodes (subgraph G c)))) as Hp.
    rewrite E in Hp. apply Permutation_nil in Hp. exact Hp.
Qed.

(** The rows of a slice that is alone are the rows of the table. *)
Lemma single_slice_rows :
  forall s,
    NoDup (map FileMatrix.filename df) ->
    FileMatrix.slices fm = Some (inr [s]) ->
    Permutation (Pd.loc df (nodes s)) df.
Proof.
  intros s Hnames Hs.
  destruct slices_run as (G & comps & Hrun & Hnd & Hnodes & Hall & _).
  rewrite Hrun in Hs. injection Hs as Hs.
  destruct comps as [|c [|c' comps]]; try discriminate. injection Hs as <-.
  rewrite nodes_subgraph.
  assert (E : filter (fun n => mem n c) (nodes G) = nodes G).
  { apply forallb_filter_id. apply forallb_forall. intros x Hx.
    apply mem_In. apply Hall in Hx. simpl in Hx. rewrite app_nil_r in Hx. exact Hx. }
  rewrite E.
  rewrite <- (loc_all df Hnames) at 2. unfold Pd.loc.
  apply Permutation_flat_map. apply NoDup_Permutation; assumption.
Qed.
End FirstSlice.

(** X17. A loop over [tiles_along_X] or [tiles_along_Y] serves the first
    slice only.  It yields the groups of the first slice; when the table
    has no other slice the loop stops there; when it has, the loop is then
    handed [None] (the bare [yield] of [tiles_along_dir], passed on by
    [yield from]) and its next step raises TypeError, the inner generator
    being resumed without the tuple it expects. *)
Theorem tiles_along_serve_first_slice_only :
  forall (fm : FileMatrix.FileMatrix) (s : Nx.Graph unit) (rest : list (Nx.Graph unit)),
    FileMatrix.slices fm = Some (inr (s :: rest)) ->
    let sent_X := ([FileMatrix.Z; FileMatrix.X; FileMatrix.Y], FileMatrix.Y) in
    let sent_Y := ([FileMatrix.Z; FileMatrix.Y; FileMatrix.X], FileMatrix.X) in
    groups_of fm s sent_X <> []
    /\ groups_of fm s sent_Y <> []
    /\ (forall fuel,
           length (groups_of fm s sent_X) + 2 <= fuel ->
           TileGroups.iterate (TileGroups.tiles_along_X fm) fuel TileGroups.along_start
           = Some (map Some (groups_of fm s sent_X) ++ fst (after_first_slice rest),
                   snd (after_first_slice rest)))
    /\ (forall fuel,
           length (groups_of fm s sent_Y) + 2 <= fuel ->
           TileGroups.iterate (TileGroups.tiles_along_Y fm) fuel TileGroups.along_start
           = Some (map Some (groups_of fm s sent_Y) ++ fst (after_first_slice rest),
                   snd (after_first_slice rest))).
Proof.
  intros fm s rest Hs sent_X sent_Y.
  pose proof (first_slice_groups fm s rest sent_X Hs) as HX.
  pose proof (first_slice_groups fm s rest sent_Y Hs) as HY.
  split; [exact HX|]. split; [exact HY|]. split; intros fuel Hf.
  - destruct (groups_of fm s sent_X) as [|g groups] eqn:E; [congruence|].
    apply (iterate_along fm sent_X s rest g groups fuel Hs E). simpl in Hf. lia.
  - destruct (groups_of fm s sent_Y) as [|g groups] eqn:E; [congruence|].
    apply (iterate_along fm sent_Y s rest g groups fuel Hs E). simpl in Hf. lia.
Qed.

Lemma tiles_along_serve_first_slice_only_witness :
  let s := nth 0 (slices_of three_tiles) [] in
  let rest := tl (slices_of three_tiles) in
  let sent_X := ([FileMatrix.Z; FileMatrix.X; FileMatrix.Y], FileMatrix.Y) in
  let sent_Y := ([FileMatrix.Z; FileMatrix.Y; FileMatrix.X], FileMatrix.X) in
  groups_of three_tiles s sent_X <> []
  /\ groups_of three_tiles s sent_Y <> []
  /\ (forall fuel,
         length (groups_of three_tiles s sent_X) + 2 <= fuel ->
         TileGroups.iterate (TileGroups.tiles_along_X three_tiles) fuel
           TileGroups.along_start
         = Some (map Some (groups_of three_tiles s sent_X) ++ fst (after_first_slice rest),
                 snd (after_first_slice rest)))
  /\ (forall fuel,
         length (groups_of three_tiles s sent_Y) + 2 <= fuel ->
         TileGroups.iterate (TileGroups.tiles_along_Y three_tiles) fuel
           TileGroups.along_start
         = Some (map Some (groups_of three_tiles s sent_Y) ++ fst (after_first_slice rest),
                 snd (after_first_slice rest))).
Proof.
  apply (tiles_along_serve_first_slice_only three_tiles
           (nth 0 (slices_of three_tiles) []) (tl (slices_of three_tiles))).
  vm_compute. reflexivity.
Defined.

(** X18. On a table of distinct file names whose tiles form a single
    slice, a loop over [tiles_along_X] yields every tile of the table once
    and then stops: the tiles come in groups of equal [Y], the groups in
    increasing order of [Y], and the tiles of a group in the order of
    [Z], then [X]. *)
Theorem tiles_along_X_rows_of_single_slice :
  forall (fm : FileMatrix.FileMatrix) (s : Nx.Graph unit),
    NoDup (map FileMatrix.filename (FileMatrix.data_frame fm)) ->
    FileMatrix.slices fm = Some (inr [s]) ->
    exists groups,
      (forall fuel,
          length groups + 2 <= fuel ->
          TileGroups.iterate (TileGroups.tiles_along_X fm) fuel TileGroups.along_start
          = Some (map Some groups, None))
      /\ Permutation (concat groups) (FileMatrix.data_frame fm)
      /\ Forall (fun g => g <> [] /\ same_key FileMatrix.Y g
                          /\ ordered_by [FileMatrix.Z; FileMatrix.X; FileMatrix.Y] g)
                groups
      /\ StronglySorted Z.lt (keys_of FileMatrix.Y groups).
Proof.
  intros fm s Hnames Hs.
  set (sent := ([FileMatrix.Z; FileMatrix.X; FileMatrix.Y], FileMatrix.Y)).
  exists (groups_of fm s sent).
  pose proof (first_slice_groups fm s [] sent Hs) as Hne.
  destruct (groupby_spec FileMatrix.Y [FileMatrix.Z; FileMatrix.X; FileMatrix.Y]
              (Pd.sort_values [FileMatrix.Z; FileMatrix.X; FileMatrix.Y]
                 (Pd.loc (FileMatrix.data_frame fm) (Nx.nodes s))))
    as (Hperm & Hgroups & Hkeys & _); [apply sort_values_sorted|].
  split; [|split; [|split]].
  - intros fuel Hf.
    destruct (groups_of fm s sent) as [|g groups] eqn:E; [congruence|].
    etransitivity;
      [apply (iterate_along fm sent s [] g groups fuel Hs E); simpl in Hf; lia|].
    simpl. rewrite app_nil_r. reflexivity.
  - apply perm_trans with (Pd.sort_values [FileMatrix.Z; FileMatrix.X; FileMatrix.Y]
                             (Pd.loc (FileMatrix.data_frame fm) (Nx.nodes s)));
      [exact Hperm|].
    apply perm_trans with (Pd.loc (FileMatrix.data_frame fm) (Nx.nodes s));
      [apply sort_values_perm | apply single_slice_rows; assumption].
  - exact Hgroups.
  - exact Hkeys.
Qed.

Lemma tiles_along_X_rows_of_single_slice_witness :
  exists groups,
    (forall fuel,
        length groups + 2 <= fuel ->
        TileGroups.iterate (TileGroups.tiles_along_X mosaic_2x2) fuel
          TileGroups.along_start
        = Some (map Some groups, None))
    /\ Permutation (concat groups) (FileMatrix.data_frame mosaic_2x2)
    /\ Forall (fun g => g <> [] /\ same_key FileMatrix.Y g
                        /\ ordered_by [FileMatrix.Z; FileMatrix.X; FileMatrix.Y] g)
              groups
    /\ StronglySorted Z.lt (keys_of FileMatrix.Y groups).
Proof.
  apply (tiles_along_X_rows_of_single_slice mosaic_2x2
           (nth 0 (slices_of mosaic_2x2) [])).
  - exact NoDup_mosaic_2x2.
  - vm_compute. reflexivity.
Defined.

(** ** Loading a directory *)

Section LoadDir.
Local Open Scope Z_scope.








End LoadDir.

Section LoadDirStages.
Local Open Scope Z_scope.





End LoadDirStages.



(** ** Matching the patterns of the file names *)

Section Matcher.
Import Re.
Variable R : Type.
Implicit Types kont : cont R.

Lemma star_none :
  forall k s pos caps kont,
    (forall b1 b2, s = b1 ++ b2 -> Forall (fun c => test k c = true) b1 ->
                   kont b2 (pos + length b1) caps = None) ->
    star k s pos caps kont = None.
Proof.
  intros k. induction s as [|c s IH]; intros pos caps kont H; simpl.
  - rewrite <- (Nat.add_0_r pos). apply (H [] []); [reflexivity | constructor].
  - assert (H0 : kont (c :: s) pos caps = None).
    { rewrite <- (Nat.add_0_r pos) at 1. apply (H [] (c :: s)); [reflexivity | constructor]. }
    destruct (test k c) eqn:E; [|exact H0].
    rewrite IH; [exact H0|].
    intros b1 b2 -> Hb1.
    replace (S pos + length b1) with (pos + length (c :: b1)) by (simpl; lia).
    apply H; [reflexivity|]. constructor; assumption.
Qed.

(** A greedy [*] stops at the last place from which the rest of the
    pattern matches. *)
Lemma star_last :
  forall k a b pos caps kont r,
    Forall (fun c => test k c = true) a ->
    (forall b1 b2, b = b1 ++ b2 -> b1 <> [] -> Forall (fun c => test k c = true) b1 ->
                   kont b2 (pos + length a + length b1) caps = None) ->
    kont b (pos + length a) caps = Some r ->
    star k (a ++ b) pos caps kont = Some r.
Proof.
  intros k. induction a as [|c a IH]; intros b pos caps kont r Ha Hfail Hk.
  - simpl in *. rewrite Nat.add_0_r in *.
    destruct b as [|c b]; simpl; [exact Hk|].
    destruct (test k c) eqn:E; [|exact Hk].
    rewrite star_none; [exact Hk|].
    intros b1 b2 -> Hb1.
    replace (S pos + length b1) with (pos + length (c :: b1)) by (simpl; lia).
    apply Hfail; [reflexivity | discriminate | constructor; assumption].
  - inversion Ha as [|? ? Hc Ha']; subst. simpl. rewrite Hc.
    rewrite (IH b (S pos) caps kont r); [reflexivity | exact Ha' | |].
    + intros b1 b2 E Hne Hb1.
      replace (S pos + length a + length b1) with (pos + length (c :: a) + length b1)
        by (simpl; lia).
      apply Hfail; assumption.
    + replace (S pos + length a) with (pos + length (c :: a)) by (simpl; lia).
      exact Hk.
Qed.
End Matcher.

Section MatcherFacts.
Import Re.

Lemma star_accept :
  forall k s pos caps,
    star k s pos caps (fun _ _ caps' => Some caps') = Some caps.
Proof.
  intros k. induction s as [|c s IH]; intros pos caps; simpl; [reflexivity|].
  destruct (test k c); [rewrite IH|]; reflexivity.
Qed.

Lemma digit_not_minus : forall c, is_digit c = true -> Ascii.eqb c "-" = false.
Proof.
  intros c H. destruct (Ascii.eqb_spec c "-"%char) as [->|_]; [|reflexivity].
  discriminate.
Qed.

(** The pattern [([-]?\d+)] on a number that the string starts with. *)
Lemma matches_number (R : Type) :
  forall n sign ds rest pos caps (kont : cont R) r,
    (sign = [] \/ sign = ["-"%char]) ->
    ds <> [] ->
    Forall (fun c => is_digit c = true) ds ->
    match rest with [] => True | c :: _ => is_digit c = false end ->
    kont rest (pos + length (sign ++ ds)) (set_group n (sign ++ ds) caps) = Some r ->
    matches (Loader.number n) ((sign ++ ds) ++ rest) pos caps kont = Some r.
Proof.
  intros n sign ds rest pos caps kont r Hsign Hne Hds Hrest Hk.
  destruct ds as [|d ds]; [congruence|].
  inversion Hds as [|? ? Hd Hds']; subst.
  assert (Hstar : forall s0 p0,
             firstn (pos + length (sign ++ d :: ds) - p0) s0 = sign ++ d :: ds ->
             star Digit (ds ++ rest) (pos + length (sign ++ [d])) caps
               (fun s' pos' caps' =>
                  kont s' pos' (set_group n (firstn (pos' - p0) s0) caps'))
             = Some r).
  { intros s0 p0 Hfirst. apply star_last.
    - exact Hds'.
    - intros b1 b2 -> Hb1 Hall. destruct b1 as [|c b1]; [congruence|].
      inversion Hall as [|? ? Hc _]; subst. simpl in Hrest. cbn [test] in Hc.
      congruence.
    - replace (pos + length (sign ++ [d]) + length ds)
        with (pos + length (sign ++ d :: ds)) by (rewrite !length_app; simpl; lia).
      rewrite Hfirst. exact Hk. }
  assert (Hfirst : firstn (pos + length (sign ++ d :: ds) - pos)
                     ((sign ++ d :: ds) ++ rest) = sign ++ d :: ds).
  { replace (pos + length (sign ++ d :: ds) - pos) with (length (sign ++ d :: ds)) by lia.
    rewrite firstn_app, Nat.sub_diag, firstn_all. simpl. apply app_nil_r. }
  specialize (Hstar _ _ Hfirst).
  unfold Loader.number. cbn [matches].
  destruct Hsign as [->| ->].
  - simpl app in *. cbn [test]. rewrite (digit_not_minus d Hd).
    cbn [test]. rewrite Hd.
    replace (S pos) with (pos + length ([] ++ [d])) by (simpl; lia). exact Hstar.
  - simpl app in *. cbn [test]. rewrite Ascii.eqb_refl. cbn [test]. rewrite Hd.
    replace (S (S pos)) with (pos + length ["-"%char; d]) by (simpl; lia).
    rewrite Hstar. reflexivity.
Qed.
End MatcherFacts.

(** ** Numbers in file names *)

Section Numbers.
Import Re.

Lemma chars_app : forall a b : string, chars (a ++ b) = chars a ++ chars b.
Proof.
  unfold chars. induction a as [|c a IH]; intros b; simpl; [reflexivity|].
  rewrite IH. reflexivity.
Qed.

Lemma digits_of_uint :
  forall d, Forall (fun c => is_digit c = true) (chars (NilEmpty.string_of_uint d)).
Proof.
  induction d; simpl; constructor; (reflexivity || assumption).
Qed.

Lemma digits_of_uint_nonnil :
  forall d,
    chars (NilZero.string_of_uint d) <> []
    /\ Forall (fun c => is_digit c = true) (chars (NilZero.string_of_uint d)).
Proof.
  intros d. split.
  - destruct d; simpl; discriminate.
  - destruct d; try apply digits_of_uint. repeat constructor.
Qed.

(** The text of an integer: a sign or none, then digits. *)
Lemma show_Z_shape :
  forall z,
    exists sign ds,
      chars (Loader.show_Z z) = sign ++ ds
      /\ (sign = [] \/ sign = ["-"%char])
      /\ ds <> []
      /\ Forall (fun c => is_digit c = true) ds.
Proof.
  intros z. unfold Loader.show_Z.
  destruct (Z.to_int z) as [d|d]; simpl NilZero.string_of_int.
  - exists [], (chars (NilZero.string_of_uint d)).
    destruct (digits_of_uint_nonnil d). auto.
  - exists ["-"%char], (chars (NilZero.string_of_uint d)).
    destruct (digits_of_uint_nonnil d). auto.
Qed.

Lemma int_show_Z :
  forall z, Loader.int (chars (Loader.show_Z z)) = Some z.
Proof.
  intros z. unfold Loader.int, chars, Loader.show_Z.
  rewrite string_of_list_ascii_of_string, NilZero.isi.
  - simpl. rewrite DecimalZ.of_to. reflexivity.
  - destruct z; simpl; try discriminate.
    intros E. injection E as E. exact (DecimalPos.Unsigned.to_uint_nonnil _ E).
  - destruct z; simpl; try discriminate.
    intros E. injection E as E. exact (DecimalPos.Unsigned.to_uint_nonnil _ E).
Qed.

(** A number has no character but digits and the sign. *)
Lemma show_Z_without :
  forall z c, is_digit c = false -> c <> "-"%char -> ~ In c (chars (Loader.show_Z z)).
Proof.
  intros z c Hd Hm Hin.
  destruct (show_Z_shape z) as (sign & ds & E & Hs & _ & Hds).
  rewrite E in Hin. apply in_app_iff in Hin as [Hin|Hin].
  - destruct Hs as [->| ->]; [destruct Hin|]. destruct Hin as [<-|[]]. congruence.
  - rewrite Forall_forall in Hds. rewrite (Hds c Hin) in Hd. discriminate.
Qed.
End Numbers.

Section Fields.
Import Re.

Lemma suffix_head (A : Type) :
  forall (l b1 b2 : list A) c,
    l = b1 ++ c :: b2 -> b1 <> [] -> In c (tl l).
Proof.
  intros l [|a b1] b2 c -> H; [congruence|]. simpl.
  apply in_app_iff. right. left. reflexivity.
Qed.

(** One field of the pattern of the names: [.*], the letter of the
    field, an underscore and the number, on a string in which the letter
    does not come again. *)
Lemma matches_field (R : Type) :
  forall letter n rest_of_pattern a sign ds rest pos caps (kont : cont R) r,
    Forall (fun c => test Dot c = true) a ->
    ~ In letter ("_"%char :: (sign ++ ds) ++ rest) ->
    (sign = [] \/ sign = ["-"%char]) ->
    ds <> [] ->
    Forall (fun c => is_digit c = true) ds ->
    match rest with [] => True | c :: _ => is_digit c = false end ->
    matches rest_of_pattern rest (pos + length a + 2 + length (sign ++ ds))
      (set_group n (sign ++ ds) caps) kont = Some r ->
    matches (Seq (Star Dot)
               (Seq (Lit (Chr letter))
                  (Seq (Lit (Chr "_"%char)) (Seq (Loader.number n) rest_of_pattern))))
      (a ++ letter :: "_"%char :: (sign ++ ds) ++ rest) pos caps kont = Some r.
Proof.
  intros letter n rp a sign ds rest pos caps kont r Ha Hfree Hsign Hne Hds Hrest Hk.
  cbn [matches]. apply star_last.
  - exact Ha.
  - intros b1 b2 E Hb1 _. destruct b2 as [|c b2]; [reflexivity|].
    cbn [test].
    destruct (Ascii.eqb_spec c letter) as [->|_]; [|reflexivity].
    exfalso. apply Hfree. apply (suffix_head _ _ _ _ _ E Hb1).
  - cbn [test]. rewrite !Ascii.eqb_refl.
    apply matches_number; try assumption.
    replace (S (S (pos + length a)) + length (sign ++ ds))
      with (pos + length a + 2 + length (sign ++ ds)) by lia.
    exact Hk.
Qed.

Lemma search_hit :
  forall r s caps,
    matches r s 0 [] (fun _ _ caps' => Some caps') = Some caps ->
    search r s = Some caps.
Proof. intros r s caps H. unfold search. destruct s; simpl; rewrite H; reflexivity. Qed.

Lemma search_from_bol :
  forall r s pos, pos <> 0 -> search_from (Seq Bol r) s pos = None.
Proof.
  intros r. induction s as [|c s IH]; intros pos Hpos; simpl;
    destruct (Nat.eqb_spec pos 0); try congruence; auto.
Qed.

Lemma search_bol :
  forall r s,
    search (Seq Bol r) s = matches r s 0 [] (fun _ _ caps' => Some caps').
Proof.
  intros r s. unfold search. destruct s as [|c s]; simpl.
  - destruct (matches r [] 0 [] _); reflexivity.
  - destruct (matches r (c :: s) 0 [] _); [reflexivity|].
    apply search_from_bol. discriminate.
Qed.
End Fields.

Section FileNames.
Import Re.

Lemma basename_plain :
  forall p, ~ In "/"%char p -> Loader.basename p = p.
Proof.
  intros [|c p] H; [reflexivity|]. unfold Loader.basename.
  destruct (existsb (Ascii.eqb "/"%char) (c :: p)) eqn:E; [|reflexivity].
  exfalso. apply existsb_exists in E as (a & Ha & Ea).
  apply Ascii.eqb_eq in Ea. subst a. exact (H Ha).
Qed.

Lemma basename_after_slash :
  forall d p, ~ In "/"%char p -> Loader.basename (d ++ "/"%char :: p) = p.
Proof.
  induction d as [|c d IH]; intros p H.
  - simpl app. cbn [Loader.basename existsb]. rewrite Ascii.eqb_refl. cbn [orb].
    apply basename_plain, H.
  - change ((c :: d) ++ "/"%char :: p) with (c :: (d ++ "/"%char :: p)).
    cbn [Loader.basename].
    replace (existsb (Ascii.eqb "/"%char) (c :: d ++ "/"%char :: p)) with true.
    + apply IH, H.
    + symmetry. apply existsb_exists. exists "/"%char. split.
      * right. apply in_app_iff. right. left. reflexivity.
      * reflexivity.
Qed.

Lemma basename_of_path :
  forall dir base,
    directory_part dir -> without "/"%char base ->
    Loader.basename (list_ascii_of_string (dir ++ base)) = chars base.
Proof.
  intros dir base [->|[d ->]] H.
  - apply basename_plain, H.
  - change (list_ascii_of_string ((d ++ "/") ++ base)) with (chars ((d ++ "/") ++ base)).
    rewrite !chars_app. change (chars "/") with ["/"%char].
    rewrite <- app_assoc. apply basename_after_slash, H.
Qed.

(** A field of a name, with the number as [str] writes it. *)
Lemma matches_field_Z (R : Type) :
  forall letter n rest_of_pattern a z rest pos caps (kont : cont R) r,
    Forall (fun c => test Dot c = true) a ->
    is_digit letter = false -> letter <> "-"%char -> letter <> "_"%char ->
    ~ In letter rest ->
    match rest with [] => True | c :: _ => is_digit c = false end ->
    matches rest_of_pattern rest
      (pos + length a + 2 + length (chars (Loader.show_Z z)))
      (set_group n (chars (Loader.show_Z z)) caps) kont = Some r ->
    matches (Seq (Star Dot)
               (Seq (Lit (Chr letter))
                  (Seq (Lit (Chr "_"%char)) (Seq (Loader.number n) rest_of_pattern))))
      (a ++ letter :: "_"%char :: chars (Loader.show_Z z) ++ rest) pos caps kont = Some r.
Proof.
  intros letter n rp a z rest pos caps kont r Ha Hd Hm Hu Hfree Hrest Hk.
  pose proof (show_Z_without z letter Hd Hm) as Hz.
  destruct (show_Z_shape z) as (sign & ds & E & Hs & Hne & Hds).
  rewrite E in *.
  apply matches_field; try assumption.
  intros [H|H]; [congruence|].
  apply in_app_iff in H as [H|H]; [exact (Hz H) | exact (Hfree H)].
Qed.

Lemma matches_number_Z (R : Type) :
  forall n z rest pos caps (kont : cont R) r,
    match rest with [] => True | c :: _ => is_digit c = false end ->
    kont rest (pos + length (chars (Loader.show_Z z)))
      (set_group n (chars (Loader.show_Z z)) caps) = Some r ->
    matches (Loader.number n) (chars (Loader.show_Z z) ++ rest) pos caps kont = Some r.
Proof.
  intros n z rest pos caps kont r Hrest Hk.
  destruct (show_Z_shape z) as (sign & ds & E & Hs & Hne & Hds).
  rewrite E in *. apply matches_number; assumption.
Qed.
End FileNames.

Section FileNameProofs.
Import Re.

Lemma without_app :
  forall c a b, without c a -> without c b -> without c (a ++ b).
Proof.
  unfold without. intros c a b Ha Hb. rewrite chars_app, in_app_iff. tauto.
Qed.

Lemma without_number :
  forall c z, is_digit c = false -> c <> "-"%char -> without c (Loader.show_Z z).
Proof. intros c z Hd Hm. exact (show_Z_without z c Hd Hm). Qed.

Lemma named_fields_chars :
  forall prefix x y z ext,
    chars (named_fields prefix x y z ext)
    = chars prefix ++ "x"%char :: "_"%char :: chars (Loader.show_Z x)
      ++ (["_"%char] ++ "y"%char :: "_"%char :: chars (Loader.show_Z y)
          ++ (["_"%char] ++ "z"%char :: "_"%char :: chars (Loader.show_Z z)
              ++ chars ext)).
Proof.
  intros. unfold named_fields. rewrite !chars_app. reflexivity.
Qed.

Lemma named_fields_search :
  forall prefix x y z ext,
    plain_prefix prefix -> plain_suffix ext ->
    search Loader.fields_by_name (chars (named_fields prefix x y z ext))
    = Some [(1, chars (Loader.show_Z x)); (2, chars (Loader.show_Z y));
            (3, chars (Loader.show_Z z))].
Proof.
  intros prefix x y z ext [_ Hnl] (Hext & _ & Hx & Hy & Hz).
  unfold Loader.fields_by_name. cbn [cat]. rewrite search_bol.
  rewrite named_fields_chars.
  apply matches_field_Z; try reflexivity; try discriminate.
  - apply Forall_forall. intros c Hc. cbn [test].
    destruct (Ascii.eqb_spec c "010"%char) as [->|_]; [|reflexivity].
    exfalso. exact (Hnl Hc).
  - intros H. simpl in H. destruct H as [H|[H|[H|H]]]; try discriminate.
    apply in_app_iff in H as [H|H].
    { exact (without_number "x"%char y eq_refl ltac:(discriminate) H). }
    simpl in H. destruct H as [H|[H|[H|H]]]; try discriminate.
    apply in_app_iff in H as [H|H].
    { exact (without_number "x"%char z eq_refl ltac:(discriminate) H). }
    exact (Hx H).
  - apply matches_field_Z; try reflexivity; try discriminate.
    + repeat constructor.
    + intros H. simpl in H. destruct H as [H|[H|[H|H]]]; try discriminate.
      apply in_app_iff in H as [H|H].
      { exact (without_number "y"%char z eq_refl ltac:(discriminate) H). }
      exact (Hy H).
    + apply matches_field_Z; try reflexivity; try discriminate.
      * repeat constructor.
      * exact Hz.
      * exact Hext.
      * cbn [matches]. rewrite star_accept. reflexivity.
Qed.
End FileNameProofs.

(** X20. [parse_file_name] reads the stage coordinates of a file named
    [<prefix>x_<X>_y_<Y>_z_<Z><ext>], where the numbers are written as [str]
    writes them (negative ones with their sign): whatever directory the
    path goes through and whatever the prefix holds, other fields included,
    the result is [[X, Y, Z]], and the line printed shows the name without
    its directory. *)
Theorem parse_file_name_reads_named_fields :
  forall dir prefix ext x y z,
    directory_part dir -> plain_prefix prefix -> plain_suffix ext ->
    Loader.parse_file_name (dir ++ named_fields prefix x y z ext)
    = inr ([x; y; z], printed_line (named_fields prefix x y z ext) x y z).
Proof.
  intros dir prefix ext x y z Hdir Hprefix Hext.
  assert (Hslash : without "/"%char (named_fields prefix x y z ext)).
  { destruct Hprefix as [Hp _]. destruct Hext as (_ & He & _).
    unfold named_fields.
    repeat (apply without_app;
            [first [ exact Hp | apply without_number; [reflexivity | discriminate]
                   | intros H; simpl in H; intuition discriminate ]|]).
    exact He. }
  unfold Loader.parse_file_name.
  rewrite (basename_of_path _ _ Hdir Hslash).
  rewrite (named_fields_search _ x y z _ Hprefix Hext).
  cbv beta zeta. cbn [Re.group Nat.eqb]. rewrite !int_show_Z.
  unfold chars. rewrite string_of_list_ascii_of_string. reflexivity.
Qed.

Lemma parse_file_name_reads_named_fields_witness :
  Loader.parse_file_name
    ("scan/x_1_y_2_z_3/" ++ named_fields "x_7_y_8_z_9_tile_" 100 (-20) 3 ".tiff")
  = inr ([100; -20; 3]%Z,
         printed_line (named_fields "x_7_y_8_z_9_tile_" 100 (-20) 3 ".tiff")
           100 (-20) 3).
Proof.
  apply (parse_file_name_reads_named_fields
           "scan/x_1_y_2_z_3/" "x_7_y_8_z_9_tile_" ".tiff" 100 (-20) 3).
  - right. exists "scan/x_1_y_2_z_3"%string. reflexivity.
  - split; vm_compute; intuition discriminate.
  - repeat split; vm_compute; intuition discriminate.
Defined.

Section OtherNames.
Import Re.

Lemma letter_absent (R : Type) :
  forall letter rest_of_pattern s pos caps (kont : cont R),
    ~ In letter s ->
    matches (Seq (Star Dot) (Seq (Lit (Chr letter)) rest_of_pattern)) s pos caps kont
    = None.
Proof.
  intros letter rp s pos caps kont H. cbn [matches]. apply star_none.
  intros b1 b2 -> _. destruct b2 as [|c b2]; [reflexivity|]. cbn [test].
  destruct (Ascii.eqb_spec c letter) as [->|_]; [|reflexivity].
  exfalso. apply H, in_app_iff. right. left. reflexivity.
Qed.

Lemma number_fails (R : Type) :
  forall n s pos caps (kont : cont R),
    Forall (fun c => is_digit c = false) s ->
    matches (Loader.number n) s pos caps kont = None.
Proof.
  intros n s pos caps kont H. unfold Loader.number. cbn [matches].
  destruct s as [|c s]; [reflexivity|].
  inversion H as [|? ? Hc Hs]; subst. cbn [test]. rewrite Hc.
  destruct (Ascii.eqb c "-"); [|reflexivity].
  destruct s as [|c' s]; [reflexivity|].
  inversion Hs as [|? ? Hc' _]; subst. rewrite Hc'. reflexivity.
Qed.

Lemma named_field_fails (R : Type) :
  forall letter n rest_of_pattern s pos caps (kont : cont R),
    Forall (fun c => is_digit c = false) s ->
    matches (Seq (Star Dot)
               (Seq (Lit (Chr letter))
                  (Seq (Lit (Chr "_"%char)) (Seq (Loader.number n) rest_of_pattern))))
      s pos caps kont = None.
Proof.
  intros letter n rp s pos caps kont H. cbn [matches]. apply star_none.
  intros b1 b2 -> _. apply Forall_app in H as [_ H].
  destruct b2 as [|c1 b2]; [reflexivity|].
  destruct (test (Chr letter) c1); [|reflexivity].
  inversion H as [|? ? _ H2]; subst.
  destruct b2 as [|c2 b2]; [reflexivity|].
  destruct (test (Chr "_"%char) c2); [|reflexivity].
  inversion H2 as [|? ? _ H3]; subst.
  apply (number_fails R n b2 _ _ _ H3).
Qed.

Lemma ordered_fields_chars :
  forall x y z ext,
    chars (ordered_fields x y z ext)
    = chars (Loader.show_Z x)
      ++ "_"%char :: chars (Loader.show_Z y)
      ++ "_"%char :: chars (Loader.show_Z z) ++ chars ext.
Proof. intros. unfold ordered_fields. rewrite !chars_app. reflexivity. Qed.

Lemma ordered_fields_search :
  forall x y z ext,
    no_leading_digit ext ->
    search Loader.fields_in_order (chars (ordered_fields x y z ext))
    = Some [(1, chars (Loader.show_Z x)); (2, chars (Loader.show_Z y));
            (3, chars (Loader.show_Z z))].
Proof.
  intros x y z ext Hext.
  unfold Loader.fields_in_order. cbn [cat]. rewrite search_bol.
  rewrite ordered_fields_chars. cbn [matches].
  apply matches_number_Z; [reflexivity|]. cbn [test]. rewrite Ascii.eqb_refl.
  apply matches_number_Z; [reflexivity|]. cbn [test]. rewrite Ascii.eqb_refl.
  apply matches_number_Z; [exact Hext|]. reflexivity.
Qed.
End OtherNames.

(** X21. A file named [<X>_<Y>_<Z><ext>], with no [x] in it, is read by
    the second pattern of [parse_file_name]: the result is [[X, Y, Z]],
    negative numbers included. *)
Theorem parse_file_name_reads_ordered_fields :
  forall dir ext x y z,
    directory_part dir ->
    no_leading_digit ext -> without "/"%char ext -> without "x"%char ext ->
    Loader.parse_file_name (dir ++ ordered_fields x y z ext)
    = inr ([x; y; z], printed_line (ordered_fields x y z ext) x y z).
Proof.
  intros dir ext x y z Hdir Hext Hslash Hx.
  assert (Hfree : forall c, Re.is_digit c = false -> c <> "-"%char -> c <> "_"%char ->
                            without c ext -> without c (ordered_fields x y z ext)).
  { intros c Hd Hm Hu He. unfold ordered_fields.
    repeat (apply without_app;
            [first [ apply without_number; assumption
                   | intros H; simpl in H; intuition congruence ]|]).
    exact He. }
  unfold Loader.parse_file_name.
  rewrite (basename_of_path _ _ Hdir
             (Hfree "/"%char eq_refl ltac:(discriminate) ltac:(discriminate) Hslash)).
  replace (Re.search Loader.fields_by_name (chars (ordered_fields x y z ext)))
    with (@None Re.captures).
  - rewrite (ordered_fields_search x y z ext Hext).
    cbv beta zeta. cbn [Re.group Nat.eqb]. rewrite !int_show_Z.
    unfold chars. rewrite string_of_list_ascii_of_string. reflexivity.
  - symmetry. unfold Loader.fields_by_name. cbn [Re.cat]. rewrite search_bol.
    apply letter_absent.
    exact (Hfree "x"%char eq_refl ltac:(discriminate) ltac:(discriminate) Hx).
Qed.

Lemma parse_file_name_reads_ordered_fields_witness :
  Loader.parse_file_name ("scan/" ++ ordered_fields (-1500) 0 42 ".dcimg")
  = inr ([-1500; 0; 42]%Z, printed_line (ordered_fields (-1500) 0 42 ".dcimg") (-1500) 0 42).
Proof.
  apply (parse_file_name_reads_ordered_fields "scan/" ".dcimg" (-1500) 0 42).
  - right. exists "scan"%string. reflexivity.
  - reflexivity.
  - vm_compute. intuition discriminate.
  - vm_compute. intuition discriminate.
Defined.

(** X22. A file whose name holds no digit is refused: [parse_file_name]
    raises [ValueError], and the message names the file without its
    directory. *)
Theorem parse_file_name_refuses_names_without_digits :
  forall dir base,
    directory_part dir -> without "/"%char base -> no_digit base ->
    Loader.parse_file_name (dir ++ base)
    = inl (ValueError ("Invalid name " ++ base)).
Proof.
  intros dir base Hdir Hslash Hdigit.
  assert (H : Forall (fun c => Re.is_digit c = false) (chars base)).
  { apply Forall_forall. exact Hdigit. }
  unfold Loader.parse_file_name.
  rewrite (basename_of_path _ _ Hdir Hslash).
  replace (Re.search Loader.fields_by_name (chars base)) with (@None Re.captures).
  - replace (Re.search Loader.fields_in_order (chars base)) with (@None Re.captures).
    + unfold chars. rewrite string_of_list_ascii_of_string. reflexivity.
    + symmetry. unfold Loader.fields_in_order. cbn [Re.cat]. rewrite search_bol.
      cbn [Re.matches]. apply number_fails, H.
  - symmetry. unfold Loader.fields_by_name. cbn [Re.cat]. rewrite search_bol.
    apply named_field_fails, H.
Qed.

Lemma parse_file_name_refuses_names_without_digits_witness :
  Loader.parse_file_name "scan/notes.txt" = inl (ValueError "Invalid name notes.txt").
Proof.
  apply (parse_file_name_refuses_names_without_digits "scan/" "notes.txt").
  - right. exists "scan"%string. reflexivity.
  - vm_compute. intuition discriminate.
  - intros c H. vm_compute in H.
    repeat (destruct H as [<-|H]; [reflexivity|]). destruct H.
Defined.

